(** * neuron: a shallow embedding of the Go package [cacilhas/neuron]

    The development follows the two source files of the package: the
    neuron (a gene vector with its wire format, [Marshal],
    [neuronFromBytes], [Compute], [Child]) and the two-layer neural net
    built from neurons ([NewNeuralNet], [Compute], [Save], [LoadNet]).

    Conventions.
    - A Go [int] is a mathematical integer [Z]; where the program narrows
      a value ([uint16(..)], [uint32(..)], [byte(..)]) the wrap-around is
      written out with [mod].
    - A [byte] is a [Z] in [0, 256); a [[]byte] is a [list Z].
    - A Go [string] is a sequence of bytes, here a [string] of 8-bit
      [ascii] characters.
    - A [float64] is an IEEE-754 binary64 number, [spec_float] with a
      53-bit mantissa and [emax = 1024]; sums and products round to
      nearest, ties to even, one operation at a time (a product and the
      addition that follows it are not fused).  What [int(f)] gives for
      a float outside the range of [int] is left to the platform and is
      a parameter, [indefinite].
    - A call can return normally, return an [error], or panic; see
      [outcome]. *)

From Stdlib Require Import ZArith Lia List Bool Ascii String QArith Qround.
From Stdlib Require Import Floats.SpecFloat OrderedTypeEx.
From stdpp Require Import base tactics option list numbers strings pretty gmap sorting.

Local Open Scope Z_scope.

(** ** Results of a call *)

Inductive error : Type :=
  | RuntimeError          (* a recovered run-time panic, boxed as an error *)
  | EOF                   (* io.EOF *)
  | CorruptInputError     (* encoding/base32 *)
  | Errorf (msg : string) (* fmt.Errorf *).

Inductive outcome (A : Type) : Type :=
  | Ret (a : A)           (* normal return, nil error *)
  | Fail (e : error)      (* (nil, err) *)
  | Panic (msg : string)  (* an unrecovered panic *)
  | Hang                  (* the call never returns *).

Arguments Ret {A} a.
Arguments Fail {A} e.
Arguments Panic {A} msg.
Arguments Hang {A}.

#[global] Instance outcome_ret : MRet outcome := fun A a => Ret a.

#[global] Instance outcome_bind : MBind outcome := fun A B f x =>
  match x with
  | Ret a => f a
  | Fail e => Fail e
  | Panic m => Panic m
  | Hang => Hang
  end.

(** ** Narrowing conversions and [encoding/binary.BigEndian] *)

Definition byte (x : Z) : Z := x mod 256.
Definition uint16 (x : Z) : Z := x mod 2 ^ 16.
Definition uint32 (x : Z) : Z := x mod 2 ^ 32.

Definition is_byte (b : Z) : Prop := 0 <= b < 256.

(** [PutUint16(b, v)] writes [b[0] = byte(v >> 8)], [b[1] = byte(v)]. *)
Definition PutUint16 (v : Z) : list Z :=
  [byte (Z.shiftr v 8); byte v].

(** [PutUint32(b, v)] writes the four bytes of [v], most significant first. *)
Definition PutUint32 (v : Z) : list Z :=
  [byte (Z.shiftr v 24); byte (Z.shiftr v 16); byte (Z.shiftr v 8); byte v].

(** [Uint16(b)] is [uint16(b[1]) | uint16(b[0])<<8]; it panics (index out
    of range) on a slice shorter than two bytes, which is [None] here. *)
Definition Uint16 (b : list Z) : option Z :=
  match b with
  | b0 :: b1 :: _ => Some (Z.lor b1 (Z.shiftl b0 8))
  | _ => None
  end.

(** [Uint32(b)], [None] on a slice shorter than four bytes. *)
Definition Uint32 (b : list Z) : option Z :=
  match b with
  | b0 :: b1 :: b2 :: b3 :: _ =>
      Some (Z.lor (Z.lor (Z.lor b3 (Z.shiftl b2 8)) (Z.shiftl b1 16))
                  (Z.shiftl b0 24))
  | _ => None
  end.

(** The slice expression [b[k:]]: [None] (a run-time panic) when
    [k > len(b)]. *)
Definition slice_from (b : list Z) (k : nat) : option (list Z) :=
  if decide (k <= length b)%nat then Some (drop k b) else None.

(** The builtin [copy(dst, src)]: the first [min(len(dst), len(src))]
    elements of [dst] are overwritten. *)
Definition copy (dst src : list Z) : list Z :=
  take (length dst) src ++ drop (length src) dst.

(** ** [encoding/base32]: [HexEncoding.WithPadding(NoPadding)]

    The Go standard library codec used for the text form of a neuron,
    written quantum by quantum as the library does: five bytes become
    eight 5-bit digits, each digit one character of the alphabet. *)

Module Base32.

Definition encodeHex : string := "0123456789ABCDEFGHIJKLMNOPQRSTUV".

(** The five low bits of a digit, [d & 31]. *)
Definition low5 (d : Z) : Z := Z.land d 31.

(** [enc.encode[d & 31]] *)
Definition encode_digit (d : Z) : ascii :=
  default "0"%char (String.get (Z.to_nat (low5 d)) encodeHex).

(** [enc.decodeMap[c]]: the position of [c] in the alphabet, [0xFF] for a
    character outside it. *)
Fixpoint index_from (i : Z) (alphabet : string) (c : ascii) : Z :=
  match alphabet with
  | EmptyString => 255
  | String a rest => if Ascii.eqb a c then i else index_from (i + 1) rest c
  end.

Definition decodeMap (c : ascii) : Z := index_from 0 encodeHex c.

(** [EncodedLen(n)] without padding. *)
Definition EncodedLen (n : nat) : nat := (n / 5 * 8 + (n mod 5 * 8 + 4) / 5)%nat.

(** The eight digits [b[0..7]] of one quantum.  The [switch len(src)]
    falls through from the longest case to the shortest, so the
    statements for source byte [k] run when [len(src) > k]. *)
Definition quantum (src : list Z) : list Z :=
  let n := length src in
  let s k := nth k src 0 in
  let have k (x : Z) := if decide (k < n)%nat then x else 0 in
  let b7 := have 4%nat (Z.land (s 4%nat) 31) in
  let b6 := Z.lor (have 4%nat (Z.shiftr (s 4%nat) 5))
                  (have 3%nat (Z.land (byte (Z.shiftl (s 3%nat) 3)) 31)) in
  let b5 := have 3%nat (Z.land (Z.shiftr (s 3%nat) 2) 31) in
  let b4 := Z.lor (have 3%nat (Z.shiftr (s 3%nat) 7))
                  (have 2%nat (Z.land (byte (Z.shiftl (s 2%nat) 1)) 31)) in
  let b3 := Z.lor (have 2%nat (Z.land (Z.shiftr (s 2%nat) 4) 31))
                  (have 1%nat (Z.land (byte (Z.shiftl (s 1%nat) 4)) 31)) in
  let b2 := have 1%nat (Z.land (Z.shiftr (s 1%nat) 1) 31) in
  let b1 := Z.lor (have 1%nat (Z.land (Z.shiftr (s 1%nat) 6) 31))
                  (have 0%nat (Z.land (byte (Z.shiftl (s 0%nat) 2)) 31)) in
  let b0 := have 0%nat (Z.shiftr (s 0%nat) 3) in
  [b0; b1; b2; b3; b4; b5; b6; b7].

(** [Encode]: full quanta give eight characters; the last, short quantum
    gives only the characters that fit in [dst], whose length is
    [EncodedLen]. *)
Fixpoint Encode (src : list Z) : list ascii :=
  match src with
  | [] => []
  | s0 :: s1 :: s2 :: s3 :: s4 :: rest =>
      map encode_digit (quantum [s0; s1; s2; s3; s4]) ++ Encode rest
  | _ => take (EncodedLen (length src)) (map encode_digit (quantum src))
  end.

Definition EncodeToString (src : list Z) : string :=
  string_of_list_ascii (Encode src).

(** The characters of one quantum looked up in [decodeMap]; a character
    outside the alphabet is a [CorruptInputError]. *)
Fixpoint digits (cs : list ascii) : outcome (list Z) :=
  match cs with
  | [] => Ret []
  | c :: cs' =>
      let d := decodeMap c in
      if d =? 255 then Fail CorruptInputError
      else ds ← digits cs'; Ret (d :: ds)
  end.

(** "Pack 8x 5-bit source blocks into 5 byte destination quantum": the
    [switch dlen] writes a byte for the cases 8, 7, 5, 4 and 2, falling
    through; the digits are bytes, so each shift is narrowed. *)
Definition pack (dlen : nat) (dbuf : list Z) : list Z :=
  let d k := nth k dbuf 0 in
  let n := match dlen with
           | 8 => 5 | 7 => 4 | 5 => 3 | 4 => 2 | 2 => 1 | _ => 0
           end%nat in
  take n
    [ Z.lor (byte (Z.shiftl (d 0%nat) 3)) (Z.shiftr (d 1%nat) 2);
      Z.lor (Z.lor (byte (Z.shiftl (d 1%nat) 6)) (byte (Z.shiftl (d 2%nat) 1)))
            (Z.shiftr (d 3%nat) 4);
      Z.lor (byte (Z.shiftl (d 3%nat) 4)) (Z.shiftr (d 4%nat) 1);
      Z.lor (Z.lor (byte (Z.shiftl (d 4%nat) 7)) (byte (Z.shiftl (d 5%nat) 2)))
            (Z.shiftr (d 6%nat) 3);
      Z.lor (byte (Z.shiftl (d 6%nat) 5)) (d 7%nat) ].

(** [decode]: eight characters at a time; with no padding the input may
    end inside a quantum, which is then packed with [dlen] characters.
    Before a character is looked up it is compared with
    [byte(enc.padChar)], which is [0xFF] for [NoPadding]: text that holds
    the byte [0xFF] is not covered here. *)
Fixpoint decode (src : list ascii) : outcome (list Z) :=
  match src with
  | [] => Ret []
  | c0 :: c1 :: c2 :: c3 :: c4 :: c5 :: c6 :: c7 :: rest =>
      d ← digits [c0; c1; c2; c3; c4; c5; c6; c7];
      r ← decode rest;
      Ret (pack 8 d ++ r)
  | _ => d ← digits src; Ret (pack (length src) d)
  end.

(** [stripNewlines]: carriage returns and line feeds are dropped. *)
Definition stripNewlines (src : list ascii) : list ascii :=
  filter (fun c => c <> "010"%char /\ c <> "013"%char) src.

Definition DecodeString (s : string) : outcome (list Z) :=
  decode (stripNewlines (list_ascii_of_string s)).

End Base32.

(** Conversions between a byte and a character of a string. *)
Definition byte_of_ascii (c : ascii) : Z := Z.of_N (N_of_ascii c).
Definition ascii_of_byte (b : Z) : ascii := ascii_of_N (Z.to_N b).

(** [[]byte(s)] *)
Definition bytes_of_string (s : string) : list Z :=
  map byte_of_ascii (list_ascii_of_string s).

(** ** [strings.TrimSpace]

    [TrimSpace] removes the white space at both ends of a string, white
    space as Unicode defines it ([unicode.IsSpace]).  The string is a
    sequence of bytes read as UTF-8, and a byte that begins no
    well-formed sequence is read as U+FFFD, which is no white space: what
    is removed at either end are the UTF-8 sequences of the white-space
    code points, for as long as there is one. *)

(** The code points with the property [White_Space]: U+0009 to U+000D,
    U+0020, U+0085, U+00A0, U+1680, U+2000 to U+200A, U+2028, U+2029,
    U+202F, U+205F and U+3000. *)
Definition White_Space : list Z :=
  seqZ 9 5 ++ [32; 133; 160; 5760] ++ seqZ 8192 11 ++ [8232; 8233; 8239; 8287; 12288].

(** [utf8.EncodeRune] below U+10000: one, two or three bytes. *)
Definition EncodeRune (r : Z) : list Z :=
  if r <? 128 then [r]
  else if r <? 2048 then [Z.lor 192 (Z.shiftr r 6); Z.lor 128 (Z.land r 63)]
  else [Z.lor 224 (Z.shiftr r 12);
        Z.lor 128 (Z.land (Z.shiftr r 6) 63);
        Z.lor 128 (Z.land r 63)].

(** The characters [p] are the UTF-8 sequence of a white-space code
    point. *)
Definition IsSpace (p : list ascii) : bool :=
  bool_decide (p ∈ (fun r => ascii_of_byte <$> EncodeRune r) <$> White_Space).

(** The string made of the code points [rs], each as its UTF-8
    sequence. *)
Definition utf8 (rs : list Z) : string :=
  string_of_list_ascii (flat_map (fun r => ascii_of_byte <$> EncodeRune r) rs).

(** The white space among the ASCII characters. *)
Definition isSpace (c : ascii) : bool :=
  match c with
  | "009"%char | "010"%char | "011"%char | "012"%char | "013"%char | " "%char => true
  | _ => false
  end.

(** [c < utf8.RuneSelf]: an ASCII character, a sequence of its own. *)
Definition isASCII (c : ascii) : bool := (N_of_ascii c <? 128)%N.

(** The white space at the front of [cs] removed, sequence by sequence;
    [space] tells whether one, two or three characters are the sequence
    of a white-space code point. *)
Fixpoint trim (space : list ascii -> bool) (cs : list ascii) : list ascii :=
  match cs with
  | [] => []
  | c0 :: cs1 =>
      if space [c0] then trim space cs1
      else
        match cs1 with
        | [] => cs
        | c1 :: cs2 =>
            if space [c0; c1] then trim space cs2
            else
              match cs2 with
              | [] => cs
              | c2 :: cs3 => if space [c0; c1; c2] then trim space cs3 else cs
              end
        end
  end.

Definition TrimLeft (cs : list ascii) : list ascii := trim IsSpace cs.

(** From the end of the string a sequence is met last byte first. *)
Definition TrimRight (cs : list ascii) : list ascii :=
  rev (trim (fun p => IsSpace (rev p)) (rev cs)).

Definition TrimSpace (s : string) : string :=
  string_of_list_ascii (TrimRight (TrimLeft (list_ascii_of_string s))).

(** ** [int] arithmetic and [float64] *)

(** Wrap-around of the 64-bit [int] and of [int32]. *)
Definition int (x : Z) : Z := (x + 2 ^ 63) mod 2 ^ 64 - 2 ^ 63.
Definition int32 (x : Z) : Z := (x + 2 ^ 31) mod 2 ^ 32 - 2 ^ 31.

Definition float64 : Type := spec_float.

Definition fzero : float64 := S754_zero false.
Definition fadd : float64 -> float64 -> float64 := SFadd 53 1024.
Definition fmul : float64 -> float64 -> float64 := SFmul 53 1024.

(** [x > y]; false when either side is a NaN. *)
Definition fgt (x y : float64) : bool := SFltb y x.

(** [float64(n)] for an [int] [n], rounded to nearest even. *)
Definition float64_of_int (n : Z) : float64 := binary_normalize 53 1024 n 0 false.

(** The integer part of a finite float, rounded toward zero. *)
Definition ftrunc (f : float64) : Z :=
  match f with
  | S754_finite s m e =>
      let a := if 0 <=? e then Z.shiftl (Zpos m) e else Z.shiftr (Zpos m) (- e) in
      if s then - a else a
  | _ => 0
  end.

Section Conversion.

(** The language leaves [int(f)] to the implementation when [f] is a NaN,
    an infinity or outside the range of [int]; [indefinite f] is the
    value the platform gives. *)
Variable indefinite : float64 -> Z.

Definition int_of_float64 (f : float64) : Z :=
  match f with
  | S754_zero _ => 0
  | S754_finite _ _ _ =>
      let t := ftrunc f in
      if (- 2 ^ 63 <=? t) && (t <? 2 ^ 63) then t else indefinite f
  | _ => indefinite f
  end.

End Conversion.

(** ** An in-memory [io.Reader]

    The state of the reader is the sequence of bytes not read yet.
    [Read(p)] with [len(p) = n] reports [io.EOF] at the end of the input
    and otherwise hands over the bytes that are there, at most [n].  At
    the end of the input a read with [n = 0] reports [io.EOF] too, as
    [bytes.Reader] and [strings.Reader] do; [bytes.Buffer] and [os.File]
    return no error there. *)

Definition Reader : Type := list Z.

Definition Read (n : nat) (input : Reader) : outcome (list Z * Reader) :=
  match input with
  | [] => Fail EOF
  | _ => Ret (take n input, drop n input)
  end.

(** [input.Read(buf)]: the bytes read overwrite the front of [buf]. *)
Definition read_into (buf : list Z) (input : Reader) : outcome (list Z * Reader) :=
  got ← Read (length buf) input;
  Ret (copy buf got.1, got.2).

(** ** The neuron *)

Module Neuron.

(** [type neuron []int] *)
Abbreviation neuron := (list Z) (only parsing).

Definition GetSize (neu : neuron) : nat := length neu.

(** [neu[index]]; an index out of range panics. *)
Definition GetGene (neu : neuron) (index : nat) : outcome Z :=
  match neu !! index with
  | Some g => Ret g
  | None => Panic "index out of range"
  end.

(** [Equals]: the sizes are compared first, then the genes position by
    position, against [other.GetGene(i)]. *)
Fixpoint Equals_from (i : nat) (rest : list Z) (other : neuron) : outcome bool :=
  match rest with
  | [] => Ret true
  | value :: rest' =>
      g ← GetGene other i;
      if Z.eqb value g then Equals_from (S i) rest' other else Ret false
  end.

Definition Equals (neu other : neuron) : outcome bool :=
  if negb (Nat.eqb (GetSize neu) (GetSize other)) then Ret false
  else Equals_from 0 neu other.

(** *** Wire format: [Marshal] *)

(** The word written for one gene: a negative gene is first lifted by
    [0x100000000], then narrowed to [uint32]. *)
Definition gene_word (gene : Z) : Z :=
  if gene <? 0 then uint32 (4294967296 + gene) else uint32 gene.

(** The bytes sent, in order, on the channel returned by [Marshal]. *)
Definition Marshal (neu : neuron) : list Z :=
  let size := Z.of_nat (GetSize neu) in
  PutUint16 (uint16 size)
  ++ flat_map (fun gene => PutUint32 (gene_word gene)) neu.

(** *** Decoding: [processBytes] and [neuronFromBytes] *)

(** What the decoding goroutine sends: a gene on [res] or, once, the
    recovered error on [ech]. *)
Inductive message : Type :=
  | OnRes (value : Z)
  | OnEch (err : error).

(** The signed reading of a 32-bit word. *)
Definition word_gene (value : Z) : Z :=
  if 2147483648 <=? value then value - 4294967296 else value.

(** The loop [for i := 0; i < size; i++] of [processBytes], with [todo]
    iterations left.  [body[i*4:]] and [Uint32] panic on a short slice;
    the deferred function recovers the run-time error and sends it. *)
Fixpoint processBytes_from (body : list Z) (i todo : nat) : list message :=
  match todo with
  | O => []
  | S todo' =>
      match slice_from body (i * 4) ≫= Uint32 with
      | Some value => OnRes (word_gene value) :: processBytes_from body (S i) todo'
      | None => [OnEch RuntimeError]
      end
  end.

Definition processBytes (body : list Z) (size : nat) : list message :=
  processBytes_from body 0 size.

(** The receiving loop [for i := 0; i < size; { select ... }] of
    [neuronFromBytes], with [todo = size - i].  The channels are
    unbuffered and there is one sender, so the messages arrive in the
    order they were sent; with nothing left to receive the loop spins on
    its [default] branch for ever. *)
Fixpoint receive (ch : list message) (i todo : nat) (neu : neuron) : outcome neuron :=
  match todo with
  | O => Ret neu
  | S todo' =>
      match ch with
      | OnEch err :: _ => Fail err
      | OnRes value :: ch' => receive ch' (S i) todo' (<[i := value]> neu)
      | [] => Hang
      end
  end.

Definition neuronFromBytes (input : list Z) : outcome neuron :=
  match Uint16 input with
  | None => Panic "index out of range"
  | Some size =>
      let size := Z.to_nat size in
      receive (processBytes (drop 2 input) size) 0 size (replicate size 0)
  end.

(** *** [Compute] *)

Section Compute.

Variable indefinite : float64 -> Z.

(** The loop [for index, value := range data], [sum] accumulating
    [value * float64(neu.GetGene(index))]. *)
Fixpoint Compute_loop (neu : neuron) (index : nat) (data : list float64)
    (sum : float64) : outcome float64 :=
  match data with
  | [] => Ret sum
  | value :: data' =>
      gene ← GetGene neu index;
      Compute_loop neu (S index) data' (fadd sum (fmul value (float64_of_int gene)))
  end.

Definition Compute (neu : neuron) (data : list float64) : outcome Z :=
  if negb (Nat.eqb (length data) (GetSize neu))
  then Panic "expected parameters"
  else
    sum ← Compute_loop neu 0 data fzero;
    Ret (if fgt sum fzero then int_of_float64 indefinite sum else 0).

End Compute.

(** *** [Child] and the random constructor *)

Section Random.

(** The process-wide source of [math/rand]: its state, and the value
    [Int31n(n)] draws for a positive [n] together with the next state. *)
Variable Rand : Type.
Variable draw : Z -> Rand -> Z * Rand.

(** [rand.Int31n(n)] panics when [n <= 0]. *)
Definition Int31n (n : Z) (r : Rand) : outcome (Z * Rand) :=
  if n <=? 0 then Panic "invalid argument to Int31n" else Ret (draw n r).

(** The loop of [Child]: [child[i] = value + int(rand.Int31n(int32(dev))) - (dev / 2)]. *)
Fixpoint Child_loop (dev : Z) (i : nat) (rest : list Z) (child : neuron)
    (r : Rand) : outcome (neuron * Rand) :=
  match rest with
  | [] => Ret (child, r)
  | value :: rest' =>
      ur ← Int31n (int32 dev) r;
      Child_loop dev (S i) rest'
        (<[i := int (int (value + ur.1) - dev ÷ 2)]> child) ur.2
  end.

Definition Child (neu : neuron) (dev : Z) (r : Rand) : outcome (neuron * Rand) :=
  Child_loop dev 0 neu (replicate (GetSize neu) 0) r.

(** [k] successive draws of [Int31n(n)], for a positive [n], and the state
    of the source after them. *)
Fixpoint draws (n : Z) (k : nat) (r : Rand) : list Z * Rand :=
  match k with
  | O => ([], r)
  | S k' => let ur := draw n r in
            let rest := draws n k' ur.2 in
            (ur.1 :: rest.1, rest.2)
  end.

(** [case int]: [value] genes, each [int(rand.Int31n(2000)) - 1000];
    [make] panics on a negative length. *)
Fixpoint NewNeuron_int_loop (i todo : nat) (neu : neuron) (r : Rand)
    : outcome (neuron * Rand) :=
  match todo with
  | O => Ret (neu, r)
  | S todo' =>
      ur ← Int31n 2000 r;
      NewNeuron_int_loop (S i) todo' (<[i := int (ur.1 - 1000)]> neu) ur.2
  end.

Definition NewNeuron_int (value : Z) (r : Rand) : outcome (neuron * Rand) :=
  if value <? 0 then Panic "makeslice: len out of range"
  else NewNeuron_int_loop 0 (Z.to_nat value) (replicate (Z.to_nat value) 0) r.

End Random.

(** *** [String]: the base32hex text of the marshalled bytes *)

(** [String] receives [2 + 4*size] bytes from the channel of [Marshal]. *)
Definition String (neu : neuron) : string :=
  let size := (2 + 4 * GetSize neu)%nat in
  Base32.EncodeToString (take size (Marshal neu)).

(** *** [NewNeuron]: one constructor per case of the type switch *)

(** [case []int]: a fresh slice of the same length, filled by [copy]. *)
Definition NewNeuron_ints (value : list Z) : outcome neuron :=
  Ret (copy (replicate (length value) 0) value).

(** [case []byte] *)
Definition NewNeuron_bytes (value : list Z) : outcome neuron :=
  neuronFromBytes value.

(** [case string]: base32hex text, surrounding white space trimmed. *)
Definition NewNeuron_string (value : string) : outcome neuron :=
  match Base32.DecodeString (TrimSpace value) with
  | Ret data => neuronFromBytes data
  | Fail err => Fail err
  | Panic m => Panic m
  | Hang => Hang
  end.

(** [case io.Reader]: [readFile] reads the two size bytes, then the
    [4*size] bytes of the genes into [data[2:]], and decodes [data]. *)
Definition readFile (input : Reader) : outcome (neuron * Reader) :=
  r1 ← read_into [0; 0] input;
  match Uint16 r1.1 with
  | None => Panic "index out of range"
  | Some count =>
      let size := (4 * Z.to_nat count)%nat in
      let data := copy (replicate (2 + size) 0) r1.1 in
      r2 ← read_into (drop 2 data) r1.2;
      neu ← neuronFromBytes (take 2 data ++ r2.1);
      Ret (neu, r2.2)
  end.

Definition NewNeuron_Reader (value : Reader) : outcome (neuron * Reader) :=
  readFile value.

End Neuron.

(** ** The neural net *)

Module Net.

Import Neuron.

Record neuralnet : Type := {
  actions : list string;
  frontNeuronSet : list neuron;
  backNeuronSet : list neuron;
  sensors : list string
}.

(** The order of [sort.Strings]: byte-wise lexicographic. *)
Definition string_le (a b : string) : Prop := String.leb a b = true.

#[global] Instance string_le_dec : RelDecision string_le.
Proof. intros a b. unfold string_le. apply _. Defined.

(** [usort]: the arguments are the keys of a map, so each name is kept
    once; the keys are then sorted. *)
Definition usort (args : list string) : list string :=
  let buf : gset string := list_to_set args in
  merge_sort string_le (elements buf).

(** The loop [for i, neuron := range layer] from index [i] on: the index
    and the size of the first neuron whose size is not the expected
    one. *)
Fixpoint check_sizes (expected : nat) (i : nat) (layer : list neuron)
    : option (nat * nat) :=
  match layer with
  | [] => None
  | neu :: layer' =>
      if negb (Nat.eqb (GetSize neu) expected) then Some (i, GetSize neu)
      else check_sizes expected (S i) layer'
  end.

(** The layers are slices of neurons of this package; [pretty] is the
    decimal form the verb [%v] gives an [int]. *)
Definition NewNeuralNet (sensors actions : list string)
    (frontNeuronSet backNeuronSet : list neuron) : outcome neuralnet :=
  let sortedSensors := usort sensors in
  let sortedActions := usort actions in
  let sensorsCount := length sortedSensors in
  let actionsCount := length sortedActions in
  if Nat.eqb sensorsCount 0 then Fail (Errorf "no sensor supplied")
  else if Nat.eqb actionsCount 0 then Fail (Errorf "no action supplied")
  else if negb (Nat.eqb (length frontNeuronSet) actionsCount)
  then Fail (Errorf ("expected " +:+ pretty actionsCount +:+ " front neurons, got "
                     +:+ pretty (length frontNeuronSet)))
  else if negb (Nat.eqb (length backNeuronSet) actionsCount)
  then Fail (Errorf ("expected " +:+ pretty actionsCount +:+ " back neurons, got "
                     +:+ pretty (length backNeuronSet)))
  else
    match check_sizes sensorsCount 0 frontNeuronSet with
    | Some (i, size) =>
        Fail (Errorf ("[fron neuron " +:+ pretty i +:+ "] expected "
                      +:+ pretty sensorsCount +:+ " genes, got " +:+ pretty size))
    | None =>
        match check_sizes actionsCount 0 backNeuronSet with
        | Some (i, size) =>
            Fail (Errorf ("[back neuron " +:+ pretty i +:+ "] expected "
                          +:+ pretty actionsCount +:+ " genes, got " +:+ pretty size))
        | None =>
            Ret {| actions := sortedActions;
                   frontNeuronSet := frontNeuronSet;
                   backNeuronSet := backNeuronSet;
                   sensors := sortedSensors |}
        end
    end.

(** The invariants of a constructed net: the names sorted and without
    duplicates, no empty set, one front and one back neuron per action,
    front neurons as long as the sensors, back neurons as long as the
    actions. *)
Record valid (net : neuralnet) : Prop := {
  valid_sensors_sorted : Sorted string_le (sensors net);
  valid_sensors_NoDup : NoDup (sensors net);
  valid_sensors_nonempty : sensors net <> [];
  valid_actions_sorted : Sorted string_le (actions net);
  valid_actions_NoDup : NoDup (actions net);
  valid_actions_nonempty : actions net <> [];
  valid_front_length : length (frontNeuronSet net) = length (actions net);
  valid_back_length : length (backNeuronSet net) = length (actions net);
  valid_front_sizes :
    Forall (fun neu => GetSize neu = length (sensors net)) (frontNeuronSet net);
  valid_back_sizes :
    Forall (fun neu => GetSize neu = length (actions net)) (backNeuronSet net)
}.

(** *** [Compute] *)

(** [checkInput]: the number of entries, then every key of [incoming]
    against the set of sensors. *)
Definition checkInput (net : neuralnet) (incoming : gmap string float64)
    : option error :=
  if negb (Nat.eqb (size incoming) (length (sensors net)))
  then Some (Errorf "incoming mismatch sensors")
  else
    let sensors : gset string := list_to_set (sensors net) in
    if decide (map_Forall (fun key _ => key ∈ sensors) incoming)
    then None
    else Some (Errorf "incoming mismatch sensors").

Section Compute.

Variable indefinite : float64 -> Z.

(** [input := make([]float64, n)], then [input[j] = values[j]] for each
    [j]; an index past the end of [input] panics. *)
Fixpoint fill (j : nat) (values input : list float64) : outcome (list float64) :=
  match values with
  | [] => Ret input
  | v :: values' =>
      if decide (j < length input)%nat then fill (S j) values' (<[j := v]> input)
      else Panic "index out of range"
  end.

(** The values [incoming[sensor]], sensor by sensor in the order of
    [net.sensors]; a sensor without an entry reads as zero. *)
Definition sensor_inputs (net : neuralnet) (incoming : gmap string float64)
    : list float64 :=
  (fun sensor => default fzero (incoming !! sensor)) <$> sensors net.

(** The loop over [net.frontNeuronSet], filling [middle]. *)
Fixpoint front_loop (net : neuralnet) (incoming : gmap string float64)
    (i : nat) (layer : list neuron) (middle : list Z) : outcome (list Z) :=
  match layer with
  | [] => Ret middle
  | neuron :: layer' =>
      input ← fill 0 (sensor_inputs net incoming) (replicate (size incoming) fzero);
      value ← Neuron.Compute indefinite neuron input;
      if decide (i < length middle)%nat
      then front_loop net incoming (S i) layer' (<[i := value]> middle)
      else Panic "index out of range"
  end.

(** The loop over [net.backNeuronSet], filling the result map. *)
Fixpoint back_loop (net : neuralnet) (middle : list Z)
    (i : nat) (layer : list neuron) (res : gmap string bool)
    : outcome (gmap string bool) :=
  match layer with
  | [] => Ret res
  | neuron :: layer' =>
      input ← fill 0 (float64_of_int <$> middle) (replicate (length middle) fzero);
      value ← Neuron.Compute indefinite neuron input;
      match actions net !! i with
      | Some action => back_loop net middle (S i) layer' (<[action := 0 <? value]> res)
      | None => Panic "index out of range"
      end
  end.

Definition Compute (net : neuralnet) (incoming : gmap string float64)
    : outcome (gmap string bool) :=
  match checkInput net incoming with
  | Some err => Fail err
  | None =>
      middle ← front_loop net incoming 0 (frontNeuronSet net)
                 (replicate (length (actions net)) 0);
      back_loop net middle 0 (backNeuronSet net) ∅
  end.

End Compute.

(** *** [Save] *)

(** The neurons of a layer, each as the [2 + 4*size] bytes received from
    its [Marshal] channel. *)
Definition save_neurons (layer : list neuron) : list Z :=
  flat_map (fun neuron => take (2 + 4 * GetSize neuron) (Marshal neuron)) layer.

(** The names of a set, each followed by a zero byte. *)
Definition save_strings (names : list string) : list Z :=
  flat_map (fun name => bytes_of_string name ++ [0]) names.

(** The bytes [Save] writes to [out]: the 4-byte header, then the buffer.
    [current] is the one 4-byte array whose first two bytes are set by
    every [PutUint16]; its last two bytes are never written. *)
Definition Save (net : neuralnet) : list Z :=
  let current := [0; 0; 0; 0] in
  let current := copy current (PutUint16 (uint16 (Z.of_nat (length (sensors net))))) in
  let buf := current ++ save_strings (sensors net) in
  let current := copy current (PutUint16 (uint16 (Z.of_nat (length (actions net))))) in
  let buf := buf ++ current ++ save_strings (actions net) in
  let current := copy current (PutUint16 (uint16 (Z.of_nat (length (frontNeuronSet net))))) in
  let buf := buf ++ current ++ save_neurons (frontNeuronSet net) in
  let current := copy current (PutUint16 (uint16 (Z.of_nat (length (backNeuronSet net))))) in
  let buf := buf ++ current ++ save_neurons (backNeuronSet net) in
  let buf := buf ++ [0; 0; 0; 0] in
  let current := copy current (PutUint16 (uint16 (Z.of_nat (length buf)))) in
  current ++ buf.

(** *** [LoadNet] *)

(** The inner loop of [loadStrings]: one byte at a time up to the zero
    byte, the others appended to [str]. *)
Fixpoint loadString (input : Reader) (str : list ascii) : outcome (string * Reader) :=
  match input with
  | [] => Fail EOF
  | current :: input' =>
      if current =? 0 then Ret (string_of_list_ascii str, input')
      else loadString input' (str ++ [ascii_of_byte current])
  end.

Fixpoint loadStrings_loop (i todo : nat) (input : Reader) (set : list string)
    : outcome (list string * Reader) :=
  match todo with
  | O => Ret (set, input)
  | S todo' =>
      r ← loadString input [];
      loadStrings_loop (S i) todo' r.2 (<[i := r.1]> set)
  end.

Definition loadStrings (input : Reader) : outcome (list string * Reader) :=
  r ← read_into [0; 0; 0; 0] input;
  match Uint16 r.1 with
  | None => Panic "index out of range"
  | Some size =>
      let size := Z.to_nat size in
      loadStrings_loop 0 size r.2 (replicate size EmptyString)
  end.

Fixpoint loadNeurons_loop (i todo : nat) (input : Reader) (res : list neuron)
    : outcome (list neuron * Reader) :=
  match todo with
  | O => Ret (res, input)
  | S todo' =>
      r ← NewNeuron_Reader input;
      loadNeurons_loop (S i) todo' r.2 (<[i := r.1]> res)
  end.

Definition loadNeurons (input : Reader) : outcome (list neuron * Reader) :=
  r ← read_into [0; 0; 0; 0] input;
  match Uint16 r.1 with
  | None => Panic "index out of range"
  | Some size =>
      let size := Z.to_nat size in
      loadNeurons_loop 0 size r.2 (replicate size [])
  end.

Definition LoadNet (input : Reader) : outcome neuralnet :=
  discarded ← read_into [0; 0; 0; 0] input;
  s ← loadStrings discarded.2;
  a ← loadStrings s.2;
  f ← loadNeurons a.2;
  b ← loadNeurons f.2;
  NewNeuralNet s.1 a.1 f.1 b.1.

End Net.

(** ** Slices and their backing arrays

    The [[]int] and [Neuron] cases of [NewNeuron] at the level of slice
    values: a slice is the address of a backing array and a length, and
    two slices with the same address share their elements. *)

Module Storage.

Record slice : Type := { array : nat; len : nat }.

(** The elements a slice denotes in a given memory. *)
Definition genes (mem : gmap nat (list Z)) (s : slice) : list Z :=
  take (len s) (default [] (mem !! array s)).

(** [make(neuron, n)]: a new, zeroed backing array. *)
Definition make (mem : gmap nat (list Z)) (n : nat) : gmap nat (list Z) * slice :=
  let a := fresh (dom mem) in
  (<[a := replicate n 0]> mem, {| array := a; len := n |}).

(** [s[i] = v] *)
Definition set_index (mem : gmap nat (list Z)) (s : slice) (i : nat) (v : Z)
    : gmap nat (list Z) :=
  alter (fun elems => <[i := v]> elems) (array s) mem.

(** [case []int]: [neu := make(neuron, len(value)); copy(neu, value)] *)
Definition NewNeuron_ints (mem : gmap nat (list Z)) (value : slice)
    : gmap nat (list Z) * slice :=
  let made := make mem (len value) in
  (alter (fun elems => copy elems (genes mem value)) (array made.2) made.1, made.2).

(** [case Neuron: return value, nil] *)
Definition NewNeuron_Neuron (mem : gmap nat (list Z)) (value : slice)
    : gmap nat (list Z) * slice :=
  (mem, value).

End Storage.

Import Neuron.

(** ** The wire format in the words of its description

    [uint16_be] and [int32_be] are the big-endian base-256 digits of a
    count and of a gene in two's complement; [wire_format] is the count
    followed by the genes.  [be_value] reads digits back. *)

Definition uint16_be (n : Z) : list Z := [n / 256; n mod 256].

Definition int32_be (gene : Z) : list Z :=
  let w := gene mod 2 ^ 32 in
  [w / 2 ^ 24; w / 2 ^ 16 mod 256; w / 2 ^ 8 mod 256; w mod 256].

Definition wire_format (genes : list Z) : list Z :=
  uint16_be (Z.of_nat (length genes)) ++ concat (map int32_be genes).

Definition be_value (digits : list Z) : Z :=
  fold_left (fun acc d => acc * 256 + d) digits 0.

(** The genes held by the first [4*n] bytes of [body]. *)
Fixpoint genes_of (body : list Z) (n : nat) : list Z :=
  match n with
  | O => []
  | S n' => word_gene (default 0 (Uint32 body)) :: genes_of (drop 4 body) n'
  end.

Definition in_int32 (gene : Z) : Prop := - 2 ^ 31 <= gene < 2 ^ 31.

(** ** The weighted sum, exactly and in [float64]

    [float_value] is the rational number a finite float stands for;
    [real_sum] is the sum of the products [param[i] * gene[i]] computed
    without rounding; [float_sum] is the same sum in [float64], every
    product and every addition rounded, from left to right. *)

Definition float_value (f : float64) : Q :=
  match f with
  | S754_finite s m e =>
      let n := if s then Zneg m else Zpos m in
      if 0 <=? e then inject_Z (n * 2 ^ e) else Qmake n (Z.to_pos (2 ^ (- e)))
  | _ => 0%Q
  end.

Definition is_finite (f : float64) : bool :=
  match f with
  | S754_zero _ | S754_finite _ _ _ => true
  | _ => false
  end.

Definition real_sum (neu : neuron) (data : list float64) : Q :=
  foldr Qplus 0%Q (zip_with (fun value gene => (float_value value * inject_Z gene)%Q) data neu).

Definition float_sum (neu : neuron) (data : list float64) : float64 :=
  fold_left (fun sum p => fadd sum (fmul p.1 (float64_of_int p.2))) (zip data neu) fzero.

(** Rounding a rational toward zero. *)
Definition Qtrunc (q : Q) : Z := Qnum q ÷ Zpos (Qden q).

(** The threshold: the integer part of a strictly positive sum, else 0. *)
Definition threshold (sum : Q) : Z :=
  if Qle_bool sum 0 then 0 else Qtrunc sum.

(** ** What the persistence format can hold

    A name is written up to its terminating zero byte, a count in 16
    bits and a gene in 32 bits. *)

Definition nul_free (name : string) : Prop := 0 ∉ bytes_of_string name.

Definition storable (net : Net.neuralnet) : Prop :=
  Forall nul_free (Net.sensors net)
  /\ Forall nul_free (Net.actions net)
  /\ Z.of_nat (length (Net.sensors net)) < 2 ^ 16
  /\ Z.of_nat (length (Net.actions net)) < 2 ^ 16
  /\ Forall (Forall in_int32) (Net.frontNeuronSet net)
  /\ Forall (Forall in_int32) (Net.backNeuronSet net).

(** * Properties *)

(** ** Bit-level facts on bytes and words *)

Lemma byte_range x : is_byte (byte x).
Proof. unfold is_byte, byte. apply Z.mod_pos_bound. lia. Qed.

Lemma testbit_byte x i : 0 <= i -> Z.testbit (byte x) i = (i <? 8) && Z.testbit x i.
Proof. intros Hi. unfold byte. change 256 with (2 ^ 8). by rewrite Z.testbit_mod_pow2. Qed.

Lemma testbit_small k x i :
  0 <= k -> 0 <= x < 2 ^ k -> k <= i -> Z.testbit x i = false.
Proof.
  intros Hk Hx Hi. rewrite <- (Z.mod_small x (2 ^ k)) by lia.
  apply Z.mod_pow2_bits_high. lia.
Qed.

(** A value whose bits are all below [k] is below [2^k]. *)
Lemma bits_below k x :
  0 <= k -> (forall i, k <= i -> Z.testbit x i = false) -> 0 <= x < 2 ^ k.
Proof.
  intros Hk H.
  assert (Hx : x = x mod 2 ^ k).
  { apply Z.bits_inj'. intros i Hi. rewrite Z.testbit_mod_pow2 by lia.
    destruct (Z.ltb_spec i k); simpl; [done|]. by apply H. }
  rewrite Hx. apply Z.mod_pos_bound. lia.
Qed.

(** [a | b<<k] is [a + b*2^k] when [a] fits in [k] bits. *)
Lemma lor_shiftl_add a b k :
  0 <= k -> 0 <= a < 2 ^ k -> Z.lor a (Z.shiftl b k) = a + b * 2 ^ k.
Proof.
  intros Hk Ha.
  assert (Hdisj : Z.land a (Z.shiftl b k) = 0).
  { apply Z.bits_inj'. intros i Hi. rewrite Z.land_spec, Z.bits_0.
    destruct (Z.ltb_spec i k).
    - rewrite Z.shiftl_spec_low by lia. apply andb_false_r.
    - rewrite (testbit_small k a i) by lia. done. }
  rewrite <- Z.lxor_lor, <- Z.add_nocarry_lxor by done.
  by rewrite Z.shiftl_mul_pow2.
Qed.

Lemma Uint16_PutUint16 n rest :
  0 <= n < 2 ^ 16 -> Uint16 (PutUint16 n ++ rest) = Some n.
Proof.
  intros Hn. unfold PutUint16, Uint16, byte. simpl. f_equal.
  rewrite Z.shiftr_div_pow2 by lia.
  rewrite lor_shiftl_add by (try apply Z.mod_pos_bound; lia).
  change (2 ^ 8) with 256. rewrite (Z.mod_small (n / 256)).
  - symmetry. rewrite Z.add_comm, Z.mul_comm. apply Z.div_mod. lia.
  - split; [apply Z.div_pos; lia | apply Z.div_lt_upper_bound; lia].
Qed.

Lemma Uint32_PutUint32 w rest :
  0 <= w < 2 ^ 32 -> Uint32 (PutUint32 w ++ rest) = Some w.
Proof.
  intros Hw. unfold PutUint32, Uint32, byte. simpl. f_equal.
  rewrite !Z.shiftr_div_pow2 by lia.
  assert (H8 : 0 <= w mod 256 < 2 ^ 8) by (apply Z.mod_pos_bound; lia).
  assert (H16 : 0 <= (w / 2 ^ 8) mod 256 < 2 ^ 8) by (apply Z.mod_pos_bound; lia).
  assert (H24 : 0 <= (w / 2 ^ 16) mod 256 < 2 ^ 8) by (apply Z.mod_pos_bound; lia).
  rewrite (lor_shiftl_add _ _ 8) by lia.
  rewrite (lor_shiftl_add _ _ 16) by lia.
  rewrite (lor_shiftl_add _ _ 24) by lia.
  change (2 ^ 8) with 256 in *. change (2 ^ 16) with 65536 in *.
  change (2 ^ 24) with 16777216 in *. change (2 ^ 32) with 4294967296 in *.
  Z.div_mod_to_equations. lia.
Qed.

(** ** The bytes of [Marshal] *)

Lemma gene_word_mod gene : gene_word gene = gene mod 2 ^ 32.
Proof.
  unfold gene_word, uint32. destruct (gene <? 0); [|done].
  change 4294967296 with (1 * 2 ^ 32). by rewrite Z.add_comm, Z.mod_add.
Qed.

Lemma PutUint32_int32_be gene : PutUint32 (gene_word gene) = int32_be gene.
Proof.
  rewrite gene_word_mod. unfold PutUint32, int32_be, byte.
  rewrite !Z.shiftr_div_pow2 by lia.
  assert (H : 0 <= gene mod 2 ^ 32 < 2 ^ 32) by (apply Z.mod_pos_bound; lia).
  repeat f_equal. apply Z.mod_small.
  split; [apply Z.div_pos; lia | apply Z.div_lt_upper_bound; lia].
Qed.

Lemma PutUint16_uint16_be n : 0 <= n < 2 ^ 16 -> PutUint16 (uint16 n) = uint16_be n.
Proof.
  intros Hn. unfold PutUint16, uint16_be, uint16, byte.
  rewrite (Z.mod_small n (2 ^ 16)) by lia.
  rewrite Z.shiftr_div_pow2 by lia. change (2 ^ 8) with 256.
  repeat f_equal. apply Z.mod_small.
  split; [apply Z.div_pos; lia | apply Z.div_lt_upper_bound; lia].
Qed.

Lemma flat_map_PutUint32_length (neu : list Z) :
  length (flat_map (fun gene => PutUint32 (gene_word gene)) neu) = (4 * length neu)%nat.
Proof. induction neu as [|g neu IH]; simpl; lia. Qed.

Lemma Marshal_length neu : length (Marshal neu) = (2 + 4 * GetSize neu)%nat.
Proof.
  unfold Marshal, GetSize. rewrite length_app, flat_map_PutUint32_length. done.
Qed.

Lemma Marshal_wire_format neu :
  Z.of_nat (length neu) < 2 ^ 16 -> Marshal neu = wire_format neu.
Proof.
  intros Hn. unfold Marshal, wire_format, GetSize.
  rewrite PutUint16_uint16_be by lia. f_equal.
  clear Hn. induction neu as [|g neu IH]; [done|].
  cbn [flat_map map concat]. by rewrite PutUint32_int32_be, IH.
Qed.

(** The digits of [int32_be] are bytes whose value is the gene modulo
    [2^32], its two's-complement word. *)
Lemma int32_be_value gene :
  Forall is_byte (int32_be gene) /\ be_value (int32_be gene) = gene mod 2 ^ 32.
Proof.
  unfold int32_be, be_value, is_byte. simpl.
  assert (H : 0 <= gene mod 2 ^ 32 < 2 ^ 32) by (apply Z.mod_pos_bound; lia).
  set (w := gene mod 2 ^ 32) in *.
  change (2 ^ 8) with 256 in *. change (2 ^ 16) with 65536 in *.
  change (2 ^ 24) with 16777216 in *. change (2 ^ 32) with 4294967296 in *.
  split; [repeat constructor|]; Z.div_mod_to_equations; lia.
Qed.

Lemma uint16_be_value n :
  0 <= n < 2 ^ 16 -> Forall is_byte (uint16_be n) /\ be_value (uint16_be n) = n.
Proof.
  intros Hn. unfold uint16_be, be_value, is_byte. simpl.
  change (2 ^ 16) with 65536 in *.
  split; [repeat constructor|]; Z.div_mod_to_equations; lia.
Qed.

(** C2.  A neuron with fewer than [2^16] genes marshals to exactly
    [2 + 4*geneCount] bytes: the two big-endian digits of the gene count,
    then, gene by gene in order, the four big-endian digits of the gene in
    32-bit two's complement, which is the wire format as it is described;
    the neuron with genes [0, 256] marshals to 00 02 00 00 00 00 00 00 01 00. *)
Theorem Marshal_layout (neu : neuron) :
  Z.of_nat (GetSize neu) < 2 ^ 16 ->
  length (Marshal neu) = (2 + 4 * GetSize neu)%nat
  /\ Marshal neu = wire_format neu
  /\ be_value (take 2 (Marshal neu)) = Z.of_nat (GetSize neu)
  /\ (forall i gene, neu !! i = Some gene ->
        let word := take 4 (drop (2 + 4 * i) (Marshal neu)) in
        word = int32_be gene /\ Forall is_byte word
        /\ be_value word = gene mod 2 ^ 32)
  /\ Marshal [0; 256] = [0; 2; 0; 0; 0; 0; 0; 0; 1; 0].
Proof.
  intros Hn. unfold GetSize in Hn.
  split; [apply Marshal_length|].
  split; [by apply Marshal_wire_format|].
  rewrite Marshal_wire_format by done. unfold wire_format.
  split; [|split; [|reflexivity]].
  - change (take 2 (uint16_be (Z.of_nat (length neu)) ++ concat (map int32_be neu)))
      with (uint16_be (Z.of_nat (length neu))).
    unfold GetSize. apply (uint16_be_value (Z.of_nat (length neu))). lia.
  - intros i gene Hi. cbv zeta.
    change (drop (2 + 4 * i) (uint16_be (Z.of_nat (length neu)) ++ concat (map int32_be neu)))
      with (drop (4 * i) (concat (map int32_be neu))).
    clear Hn. revert i Hi. induction neu as [|g neu IH]; intros i Hi; [done|].
    destruct i as [|i]; simpl in Hi.
    + injection Hi as ->. simpl.
      split; [done|]. apply int32_be_value.
    + replace (4 * S i)%nat with (4 + 4 * i)%nat by lia.
      change (concat (map int32_be (g :: neu)))
        with (int32_be g ++ concat (map int32_be neu)).
      rewrite <- drop_drop. change (drop 4 (int32_be g ++ ?l)) with l.
      by apply IH.
Qed.

Lemma Marshal_layout_witness :
  length (Marshal [0; 256; -1]) = 14%nat
  /\ Marshal [0; 256; -1] = wire_format [0; 256; -1].
Proof.
  pose proof (Marshal_layout [0; 256; -1]) as H.
  destruct H as (H1 & H2 & _); [simpl; lia|]. split; assumption.
Defined.

(** ** Decoding a byte sequence *)

Lemma Uint32_Some (b : list Z) : (4 <= length b)%nat -> is_Some (Uint32 b).
Proof.
  destruct b as [|b0 [|b1 [|b2 [|b3 b]]]]; simpl; intros H; try lia. eauto.
Qed.

Lemma Uint32_None (b : list Z) : (length b < 4)%nat -> Uint32 b = None.
Proof.
  destruct b as [|b0 [|b1 [|b2 [|b3 b]]]]; simpl; intros H; try lia; done.
Qed.

(** One step of the decoding goroutine succeeds exactly when four more
    bytes are there. *)
Lemma word_at_Some (body : list Z) (i : nat) :
  (4 * i + 4 <= length body)%nat ->
  slice_from body (i * 4) ≫= Uint32 = Some (default 0 (Uint32 (drop (4 * i) body))).
Proof.
  intros H. unfold slice_from. rewrite decide_True by lia.
  cbn [mbind option_bind]. replace (i * 4)%nat with (4 * i)%nat by lia.
  destruct (Uint32_Some (drop (4 * i) body)) as [v Hv]; [rewrite length_drop; lia|].
  by rewrite Hv.
Qed.

Lemma word_at_None (body : list Z) (i : nat) :
  (length body < 4 * i + 4)%nat -> slice_from body (i * 4) ≫= Uint32 = None.
Proof.
  intros H. unfold slice_from. case_decide; [|done]. cbn [mbind option_bind].
  apply Uint32_None. rewrite length_drop. lia.
Qed.

(** With enough bytes the receiving loop collects the genes in order. *)
Lemma receive_processBytes (body : list Z) (todo i : nat) (neu : neuron) :
  (4 * (i + todo) <= length body)%nat ->
  length neu = (i + todo)%nat ->
  receive (processBytes_from body i todo) i todo neu
  = Ret (take i neu ++ genes_of (drop (4 * i) body) todo).
Proof.
  revert i neu. induction todo as [|todo IH]; intros i neu Hlen Hneu.
  - simpl. rewrite app_nil_r, take_ge by lia. done.
  - cbn [processBytes_from]. rewrite word_at_Some by lia. cbn [receive].
    rewrite IH by (rewrite ?length_insert; lia).
    rewrite (take_S_r _ _ (word_gene (default 0 (Uint32 (drop (4 * i) body))))).
    2:{ apply list_lookup_insert_eq. lia. }
    rewrite take_insert_ge by lia. rewrite <- app_assoc. cbn [genes_of app].
    rewrite drop_drop. replace (4 * i + 4)%nat with (4 * S i)%nat by lia. done.
Qed.

(** With too few bytes the run-time error reaches the receiving loop
    before the neuron is complete. *)
Lemma receive_processBytes_short (body : list Z) (todo i : nat) (neu : neuron) :
  (4 * i <= length body)%nat ->
  (length body < 4 * (i + todo))%nat ->
  receive (processBytes_from body i todo) i todo neu = Fail RuntimeError.
Proof.
  revert i neu. induction todo as [|todo IH]; intros i neu Hlo Hhi; [lia|].
  cbn [processBytes_from].
  destruct (decide (4 * i + 4 <= length body)%nat) as [Hfit|Hfit].
  - rewrite word_at_Some by done. cbn [receive]. apply IH; lia.
  - rewrite word_at_None by lia. done.
Qed.

Lemma neuronFromBytes_Ret (input : list Z) (size : Z) :
  Uint16 input = Some size ->
  (2 + 4 * Z.to_nat size <= length input)%nat ->
  neuronFromBytes input = Ret (genes_of (drop 2 input) (Z.to_nat size)).
Proof.
  intros Hsize Hlen. unfold neuronFromBytes, processBytes. rewrite Hsize.
  rewrite receive_processBytes; [done| |].
  - rewrite length_drop. lia.
  - by rewrite length_replicate.
Qed.

Lemma genes_of_length (body : list Z) (n : nat) : length (genes_of body n) = n.
Proof. revert body. induction n as [|n IH]; intros body; simpl; [done|]. by rewrite IH. Qed.

Lemma Uint32_app (b rest : list Z) :
  (4 <= length b)%nat -> Uint32 (b ++ rest) = Uint32 b.
Proof.
  destruct b as [|b0 [|b1 [|b2 [|b3 b]]]]; simpl; intros H; try lia; done.
Qed.

(** Only the first [4*n] bytes matter to [genes_of]. *)
Lemma genes_of_app (body rest : list Z) (n : nat) :
  (4 * n <= length body)%nat -> genes_of (body ++ rest) n = genes_of body n.
Proof.
  revert body. induction n as [|n IH]; intros body H; [done|].
  cbn [genes_of]. rewrite Uint32_app by lia. f_equal.
  rewrite drop_app_le by lia. apply IH. rewrite length_drop. lia.
Qed.

Lemma Uint16_app (b rest : list Z) :
  (2 <= length b)%nat -> Uint16 (b ++ rest) = Uint16 b.
Proof. destruct b as [|b0 [|b1 b]]; simpl; intros H; try lia; done. Qed.

Lemma Uint16_Some_length (b : list Z) (v : Z) :
  Uint16 b = Some v -> (2 <= length b)%nat.
Proof. destruct b as [|b0 [|b1 b]]; simpl; intros H; try done; lia. Qed.

(** C6.  When the two size bytes are there but fewer than
    [2 + 4*declared_size] bytes are available, decoding fails with an
    error and no neuron is returned. *)
Theorem neuronFromBytes_truncated (input : list Z) (declared_size : Z) :
  Uint16 input = Some declared_size ->
  (length input < 2 + 4 * Z.to_nat declared_size)%nat ->
  NewNeuron_bytes input = Fail RuntimeError
  /\ forall neu, NewNeuron_bytes input <> Ret neu.
Proof.
  intros Hsize Hlen.
  assert (H : NewNeuron_bytes input = Fail RuntimeError).
  { pose proof (Uint16_Some_length _ _ Hsize).
    unfold NewNeuron_bytes, neuronFromBytes, processBytes. rewrite Hsize.
    apply receive_processBytes_short; rewrite length_drop; lia. }
  split; [done|]. intros neu. by rewrite H.
Qed.

Lemma neuronFromBytes_truncated_witness :
  NewNeuron_bytes [0; 2; 255; 255; 255; 255; 0; 0; 0] = Fail RuntimeError.
Proof.
  apply (neuronFromBytes_truncated [0; 2; 255; 255; 255; 255; 0; 0; 0] 2).
  - reflexivity.
  - simpl. lia.
Defined.

(** Without the two size bytes there is no declared size: reading it
    panics in [neuronFromBytes] itself, outside the goroutine whose
    panics are recovered. *)
Lemma neuronFromBytes_no_size (input : list Z) :
  (length input < 2)%nat -> exists msg, neuronFromBytes input = Panic msg.
Proof.
  destruct input as [|b0 [|b1 input]]; cbn; intros H; try lia; eauto.
Qed.

(** The [io.Reader] case is another path: [readFile] allocates
    [2 + 4*size] zero bytes before it reads, so a stream that ends early
    decodes with zeros in place of the missing bytes. *)
Lemma readFile_short_stream :
  readFile [0; 2; 255; 255; 255; 255; 0; 0; 0] = Ret ([-1; 0], []).
Proof. reflexivity. Qed.

(** C10.  When more than [2 + 4*declared_size] bytes are given, decoding
    succeeds with [declared_size] genes, read from the first
    [2 + 4*declared_size] bytes alone: whatever follows them is ignored. *)
Theorem neuronFromBytes_trailing (input : list Z) (declared_size : Z) :
  Uint16 input = Some declared_size ->
  (2 + 4 * Z.to_nat declared_size < length input)%nat ->
  exists neu,
    NewNeuron_bytes input = Ret neu
    /\ GetSize neu = Z.to_nat declared_size
    /\ forall trailing,
         NewNeuron_bytes (take (2 + 4 * Z.to_nat declared_size) input ++ trailing)
         = Ret neu.
Proof.
  intros Hsize Hlen. set (n := Z.to_nat declared_size) in *.
  exists (genes_of (drop 2 input) n).
  split; [apply neuronFromBytes_Ret; [done | fold n; lia]|].
  split; [apply genes_of_length|].
  intros trailing. unfold NewNeuron_bytes.
  assert (Hpre : Uint16 (take (2 + 4 * n) input ++ trailing) = Some declared_size).
  { rewrite Uint16_app by (rewrite length_take; lia).
    rewrite <- Hsize. destruct input as [|b0 [|b1 input]]; done. }
  rewrite (neuronFromBytes_Ret _ _ Hpre).
  2:{ rewrite length_app, length_take. fold n. lia. }
  fold n. f_equal.
  rewrite drop_app_le by (rewrite length_take; lia).
  rewrite genes_of_app by (rewrite length_drop, length_take; lia).
  rewrite <- (take_drop (2 + 4 * n) input) at 2.
  rewrite drop_app_le by (rewrite length_take; lia).
  rewrite genes_of_app by (rewrite length_drop, length_take; lia).
  done.
Qed.

Lemma neuronFromBytes_trailing_witness :
  exists neu,
    NewNeuron_bytes [0; 1; 255; 255; 255; 254; 7; 7; 7] = Ret neu
    /\ GetSize neu = 1%nat
    /\ forall trailing,
         NewNeuron_bytes ([0; 1; 255; 255; 255; 254] ++ trailing) = Ret neu.
Proof.
  apply (neuronFromBytes_trailing [0; 1; 255; 255; 255; 254; 7; 7; 7] 1).
  - reflexivity.
  - simpl. lia.
Defined.

(** ** [Compute] of a neuron *)

Section ComputeProps.

Variable indefinite : float64 -> Z.

Lemma Compute_loop_float_sum (neu : neuron) (data : list float64) (i : nat) (sum : float64) :
  (i + length data <= length neu)%nat ->
  Compute_loop neu i data sum
  = Ret (fold_left (fun sum p => fadd sum (fmul p.1 (float64_of_int p.2)))
           (zip data (drop i neu)) sum).
Proof.
  revert i sum. induction data as [|value data IH]; intros i sum Hlen; [done|].
  cbn [Compute_loop length] in *. unfold GetGene.
  destruct (lookup_lt_is_Some_2 neu i) as [gene Hgene]; [lia|].
  rewrite Hgene. cbn [mbind outcome_bind].
  rewrite IH by lia. rewrite (drop_S _ _ _ Hgene). done.
Qed.

Lemma Compute_threshold (neu : neuron) (data : list float64) :
  length data = GetSize neu ->
  Compute indefinite neu data
  = Ret (if fgt (float_sum neu data) fzero
         then int_of_float64 indefinite (float_sum neu data) else 0).
Proof.
  intros Hlen. unfold Compute. rewrite Hlen, Nat.eqb_refl. cbn [negb].
  rewrite Compute_loop_float_sum by (unfold GetSize in Hlen; lia). done.
Qed.

End ComputeProps.

(** The integer part of a positive finite float is the floor of its value. *)
Lemma ftrunc_positive (m : positive) (e : Z) :
  ftrunc (S754_finite false m e) = Qfloor (float_value (S754_finite false m e)).
Proof.
  unfold ftrunc, float_value. destruct (Z.leb_spec 0 e) as [He|He].
  - rewrite Qfloor_Z, Z.shiftl_mul_pow2 by lia. done.
  - rewrite Z.shiftr_div_pow2 by lia. unfold Qfloor.
    rewrite Z2Pos.id by (apply Z.pow_pos_nonneg; lia). done.
Qed.

(** [f > 0] holds for the positive finite floats and for [+Inf] only. *)
Lemma fgt_zero (f : float64) :
  fgt f fzero = match f with
                | S754_finite false _ _ | S754_infinity false => true
                | _ => false
                end.
Proof. by destruct f as [[]|[]| |[] m e]. Qed.

(** C9.  [Compute] with a number of parameters other than the size of the
    neuron panics: no value is returned, whatever the parameters are. *)
Theorem Compute_arity (indefinite : float64 -> Z) (neu : neuron) (data : list float64) :
  length data <> GetSize neu ->
  (exists msg, Compute indefinite neu data = Panic msg)
  /\ (forall value, Compute indefinite neu data <> Ret value)
  /\ (forall err, Compute indefinite neu data <> Fail err).
Proof.
  intros Hlen. unfold Compute.
  destruct (Nat.eqb_spec (length data) (GetSize neu)) as [Heq|_]; [done|].
  cbn [negb]. split; [eauto|]. split; intros ?; discriminate.
Qed.

Lemma Compute_arity_witness :
  exists msg, Compute (fun _ => 0) [0; 256] [float64_of_int 123] = Panic msg.
Proof.
  apply (Compute_arity (fun _ => 0) [0; 256] [float64_of_int 123]).
  simpl. lia.
Defined.

(** The value of a positive finite float is positive, of a negative one
    negative. *)
Lemma float_value_sign (s : bool) (m : positive) (e : Z) :
  Qle_bool (float_value (S754_finite s m e)) 0 = s.
Proof.
  unfold float_value, Qle_bool.
  assert (Hpow : 0 < 2 ^ Z.abs e) by (apply Z.pow_pos_nonneg; lia).
  destruct (Z.leb_spec 0 e) as [He|He]; cbn [Qnum Qden inject_Z].
  - rewrite Z.abs_eq in Hpow by lia. destruct s.
    + apply Z.leb_le. nia.
    + apply Z.leb_gt. nia.
  - destruct s; [apply Z.leb_le | apply Z.leb_gt]; lia.
Qed.

Lemma Qtrunc_positive (m : positive) (e : Z) :
  Qtrunc (float_value (S754_finite false m e))
  = Qfloor (float_value (S754_finite false m e)).
Proof.
  unfold Qtrunc, Qfloor, float_value.
  assert (Hpow : 0 < 2 ^ Z.abs e) by (apply Z.pow_pos_nonneg; lia).
  destruct (Z.leb_spec 0 e) as [He|He]; cbn [Qnum Qden inject_Z].
  - apply Z.quot_div_nonneg; [|lia]. rewrite Z.abs_eq in Hpow by lia. nia.
  - apply Z.quot_div_nonneg; lia.
Qed.

(** C3 (amended).  With as many parameters as genes, [Compute] applies
    the threshold to the sum of the products as it is accumulated in
    [float64], left to right, each product and each addition rounded to
    the nearest double: when that sum is finite and below [2^63] the
    result is its integer part, rounded toward zero, if the sum is
    strictly positive, and 0 if it is zero or negative; a NaN or a
    negative infinity gives 0.  With genes [-5,...,4],
    [Compute(0,0,0,0,0,1,1,1,1,1)] returns 10. *)
Theorem Compute_float_threshold (indefinite : float64 -> Z)
    (neu : neuron) (data : list float64) :
  length data = GetSize neu ->
  (is_finite (float_sum neu data) = true ->
   (float_value (float_sum neu data) < inject_Z (2 ^ 63))%Q ->
   Compute indefinite neu data = Ret (threshold (float_value (float_sum neu data))))
  /\ (float_sum neu data = S754_nan \/ float_sum neu data = S754_infinity true ->
      Compute indefinite neu data = Ret 0)
  /\ Compute indefinite [-5; -4; -3; -2; -1; 0; 1; 2; 3; 4]
       (float64_of_int <$> [0; 0; 0; 0; 0; 1; 1; 1; 1; 1]) = Ret 10.
Proof.
  intros Hlen. rewrite (Compute_threshold indefinite neu data Hlen).
  rewrite fgt_zero. split; [|split].
  - intros Hfin Hrange. destruct (float_sum neu data) as [s|s| |s m e]; try done.
    unfold threshold. rewrite float_value_sign. destruct s; [done|].
    rewrite Qtrunc_positive, <- ftrunc_positive.
    cbn [int_of_float64].
    assert (Hlo : 0 <= ftrunc (S754_finite false m e)).
    { unfold ftrunc. destruct (0 <=? e);
        [apply Z.shiftl_nonneg | apply Z.shiftr_nonneg]; lia. }
    assert (Hhi : ftrunc (S754_finite false m e) < 2 ^ 63).
    { rewrite Zlt_Qlt. eapply Qle_lt_trans; [|exact Hrange].
      rewrite ftrunc_positive. apply Qfloor_le. }
    destruct (Z.leb_spec (- 2 ^ 63) (ftrunc (S754_finite false m e))); [|lia].
    destruct (Z.ltb_spec (ftrunc (S754_finite false m e)) (2 ^ 63)); [done|lia].
  - intros [-> | ->]; done.
  - vm_compute. reflexivity.
Qed.

Lemma Compute_float_threshold_witness :
  Compute (fun _ => 0) [0; 256] (float64_of_int <$> [123; 1])
  = Ret (threshold (float_value (float_sum [0; 256] (float64_of_int <$> [123; 1])))).
Proof.
  apply (Compute_float_threshold (fun _ => 0) [0; 256] (float64_of_int <$> [123; 1])).
  - reflexivity.
  - reflexivity.
  - vm_compute. reflexivity.
Defined.

(** C3, as stated, fails: with genes [1, 1, 1] and the parameters
    [2^53, 1, -2^53] the sum of the products is 1, whose integer part is
    1, but in [float64] the partial sum [2^53 + 1] rounds to [2^53] and
    [Compute] returns 0. *)
Lemma Compute_real_sum_counterexample :
  length (float64_of_int <$> [2 ^ 53; 1; - 2 ^ 53]) = GetSize [1; 1; 1]
  /\ forallb is_finite (float64_of_int <$> [2 ^ 53; 1; - 2 ^ 53]) = true
  /\ threshold (real_sum [1; 1; 1] (float64_of_int <$> [2 ^ 53; 1; - 2 ^ 53])) = 1
  /\ Compute (fun _ => 0) [1; 1; 1] (float64_of_int <$> [2 ^ 53; 1; - 2 ^ 53]) = Ret 0.
Proof. vm_compute. repeat split; reflexivity. Qed.

(** ** The base32hex codec *)

Lemma testbit_31 i : 0 <= i -> Z.testbit 31 i = (i <? 5).
Proof. intros Hi. change 31 with (Z.ones 5). apply Z.testbit_ones_nonneg; lia. Qed.

Lemma testbit_is_byte s i : is_byte s -> 8 <= i -> Z.testbit s i = false.
Proof. intros Hs Hi. apply (testbit_small 8); unfold is_byte in Hs; lia. Qed.

(** Equalities between bytes built from shifts and masks are settled bit
    by bit: the eight low bits one at a time, the others together. *)
Ltac bit_step :=
  match goal with
  | |- context [Z.testbit (Z.lor _ _) _] => rewrite Z.lor_spec
  | |- context [Z.testbit (Z.land _ _) _] => rewrite Z.land_spec
  | |- context [Z.testbit 0 _] => rewrite Z.bits_0
  | |- context [Z.testbit (byte ?a) ?i] =>
      first [ rewrite (testbit_byte a i) by lia
            | rewrite (Z.testbit_neg_r (byte a) i) by lia ]
  | |- context [Z.testbit 31 ?i] =>
      first [ rewrite (testbit_31 i) by lia
            | rewrite (Z.testbit_neg_r 31 i) by lia ]
  | |- context [Z.testbit (Z.shiftl ?a ?n) ?i] =>
      first [ rewrite (Z.shiftl_spec a n i) by lia
            | rewrite (Z.testbit_neg_r (Z.shiftl a n) i) by lia ]
  | |- context [Z.testbit (Z.shiftr ?a ?n) ?i] =>
      first [ rewrite (Z.shiftr_spec a n i) by lia
            | rewrite (Z.testbit_neg_r (Z.shiftr a n) i) by lia ]
  end.

Ltac bit_leaf :=
  match goal with
  | |- context [?x <? ?y] =>
      first [ rewrite (proj2 (Z.ltb_lt x y)) by lia
            | rewrite (proj2 (Z.ltb_ge x y)) by lia ]
  | H : is_byte ?s |- context [Z.testbit ?s ?i] =>
      first [ rewrite (testbit_is_byte s i H) by lia
            | rewrite (Z.testbit_neg_r s i) by lia ]
  end.

Ltac bit_index :=
  repeat match goal with
  | |- context [Z.testbit ?s ?j] =>
      let j' := eval cbv in j in progress change (Z.testbit s j) with (Z.testbit s j')
  end.

Ltac bits :=
  apply Z.bits_inj'; let i := fresh "i" in let Hi := fresh "Hi" in
  let Hcase := fresh "Hcase" in
  intros i Hi;
  assert (i = 0 \/ i = 1 \/ i = 2 \/ i = 3 \/ i = 4 \/ i = 5 \/ i = 6 \/ i = 7 \/ 8 <= i)
    as Hcase by lia;
  repeat (destruct Hcase as [->|Hcase]);
  repeat bit_step; repeat bit_leaf; bit_index;
  rewrite ?andb_true_r, ?andb_false_r, ?orb_false_r, ?andb_true_l, ?andb_false_l, ?orb_false_l;
  try reflexivity.

Import Base32.

(** One quantum: the five bytes come back from their eight digits. *)
Lemma pack_quantum (src : list Z) :
  (1 <= length src <= 5)%nat -> Forall is_byte src ->
  pack (EncodedLen (length src)) (take (EncodedLen (length src)) (low5 <$> quantum src))
  = src.
Proof.
  intros Hlen Hsrc.
  destruct src as [|s0 [|s1 [|s2 [|s3 [|s4 [|s5 src]]]]]]; simpl in Hlen; try lia;
    repeat match goal with
    | H : Forall _ (_ :: _) |- _ => apply Forall_cons in H; destruct H as [? H]
    end.
  all: cbv [length EncodedLen Nat.div Nat.modulo Nat.divmod Nat.mul Nat.add fst snd Nat.sub].
  all: cbv [quantum fmap list_fmap take pack nth length low5].
  all: repeat match goal with |- context [decide ?P] => 
         first [rewrite (decide_True (P:=P)) by lia | rewrite (decide_False (P:=P)) by lia] end.
  all: repeat f_equal.
  all: bits.
Qed.

Lemma low5_range d : 0 <= low5 d < 32.
Proof.
  unfold low5. change 31 with (Z.ones 5). rewrite Z.land_ones by lia.
  apply Z.mod_pos_bound. lia.
Qed.

Lemma encode_digit_low5 d : encode_digit d = encode_digit (low5 d).
Proof.
  unfold encode_digit, low5. by rewrite <- Z.land_assoc, Z.land_diag.
Qed.

(** Every digit comes back from its character, which is no white space. *)
Lemma alphabet_facts :
  Forall (fun d => decodeMap (encode_digit d) = d
                   /\ isSpace (encode_digit d) = false
                   /\ encode_digit d <> "010"%char
                   /\ encode_digit d <> "013"%char) (seqZ 0 32).
Proof. vm_compute. repeat (constructor; [repeat split; discriminate || reflexivity|]). constructor. Qed.

Lemma encode_digit_facts d :
  decodeMap (encode_digit d) = low5 d
  /\ isSpace (encode_digit d) = false
  /\ encode_digit d <> "010"%char
  /\ encode_digit d <> "013"%char.
Proof.
  rewrite encode_digit_low5. pose proof (low5_range d) as Hd.
  revert Hd. generalize (low5 d). intros v Hv.
  assert (Hin : v ∈ seqZ 0 32) by (apply elem_of_seqZ; lia).
  exact (proj1 (Forall_forall _ _) alphabet_facts v Hin).
Qed.

Lemma digits_encode (ds : list Z) :
  digits (encode_digit <$> ds) = Ret (low5 <$> ds).
Proof.
  induction ds as [|d ds IH]; [done|].
  cbn [fmap list_fmap digits]. destruct (encode_digit_facts d) as [Hd _].
  rewrite Hd. pose proof (low5_range d).
  destruct (Z.eqb_spec (low5 d) 255) as [?|_]; [lia|].
  change (list_fmap Z ascii encode_digit ds) with (encode_digit <$> ds).
  by rewrite IH.
Qed.

Lemma decode_short (cs : list ascii) :
  (0 < length cs < 8)%nat ->
  decode cs = d ← digits cs; Ret (pack (length cs) d).
Proof.
  intros H.
  destruct cs as [|c0 [|c1 [|c2 [|c3 [|c4 [|c5 [|c6 [|c7 cs]]]]]]]];
    simpl in H; try lia; reflexivity.
Qed.

Lemma quantum_length src : length (quantum src) = 8%nat.
Proof. reflexivity. Qed.

Lemma list_ind5 {A} (P : list A -> Prop) :
  P [] ->
  (forall l, (1 <= length l <= 4)%nat -> P l) ->
  (forall a b c d e l, P l -> P (a :: b :: c :: d :: e :: l)) ->
  forall l, P l.
Proof.
  intros Hnil Hshort Hstep l.
  induction l as [l IH] using (induction_ltof1 _ (@length A)). unfold ltof in IH.
  destruct l as [|a [|b [|c [|d [|e l]]]]];
    [exact Hnil | apply Hshort; simpl; lia .. |].
  apply Hstep. apply IH. simpl. lia.
Qed.

Lemma decode_Encode (src : list Z) :
  Forall is_byte src -> decode (Encode src) = Ret src.
Proof.
  induction src as [|src Hlen|s0 s1 s2 s3 s4 src IH] using list_ind5; intros Hsrc.
  - done.
  - assert (HE : Encode src
                 = take (EncodedLen (length src)) (encode_digit <$> quantum src)).
    { destruct src as [|a [|b [|c [|d [|e l]]]]]; simpl in Hlen; try lia; reflexivity. }
    rewrite HE, <- fmap_take, decode_short.
    2:{ rewrite length_fmap, length_take, quantum_length.
        destruct src as [|a [|b [|c [|d [|e l]]]]]; simpl in Hlen; try lia;
          vm_compute; lia. }
    rewrite digits_encode. cbn [mbind outcome_bind].
    rewrite length_fmap, length_take, quantum_length, fmap_take.
    replace (EncodedLen (length src) `min` 8)%nat with (EncodedLen (length src)).
    2:{ destruct src as [|a [|b [|c [|d [|e l]]]]]; simpl in Hlen; try lia; reflexivity. }
    f_equal. apply pack_quantum; [lia|done].
  - change (Encode (s0 :: s1 :: s2 :: s3 :: s4 :: src))
      with ((encode_digit <$> quantum [s0; s1; s2; s3; s4]) ++ Encode src).
    assert (Hq : exists b0 b1 b2 b3 b4 b5 b6 b7,
               quantum [s0; s1; s2; s3; s4] = [b0; b1; b2; b3; b4; b5; b6; b7])
      by (do 8 eexists; reflexivity).
    destruct Hq as (b0 & b1 & b2 & b3 & b4 & b5 & b6 & b7 & Hq).
    pose proof (pack_quantum [s0; s1; s2; s3; s4]) as Hp.
    rewrite Hq in *. cbn [fmap list_fmap app decode].
    pose proof (digits_encode [b0; b1; b2; b3; b4; b5; b6; b7]) as Hd.
    cbn [fmap list_fmap] in Hd. rewrite Hd. cbn [mbind outcome_bind].
    apply Forall_app with (l1 := [s0; s1; s2; s3; s4]) in Hsrc as [H5 Hrest].
    rewrite IH by done. cbn [mbind outcome_bind]. f_equal.
    specialize (Hp ltac:(simpl; lia) H5).
    change (pack 8 [low5 b0; low5 b1; low5 b2; low5 b3; low5 b4; low5 b5; low5 b6; low5 b7]
            = [s0; s1; s2; s3; s4]) in Hp.
    by rewrite Hp.
Qed.

Lemma Encode_alphabet (src : list Z) :
  Forall (fun c => exists d, c = encode_digit d) (Encode src).
Proof.
  induction src as [|src Hlen|s0 s1 s2 s3 s4 src IH] using list_ind5.
  - constructor.
  - assert (HE : Encode src
                 = take (EncodedLen (length src)) (encode_digit <$> quantum src)).
    { destruct src as [|a [|b [|c [|d [|e l]]]]]; simpl in Hlen; try lia; reflexivity. }
    rewrite HE. apply Forall_take, Forall_fmap, Forall_forall. intros d _. by exists d.
  - change (Encode (s0 :: s1 :: s2 :: s3 :: s4 :: src))
      with ((encode_digit <$> quantum [s0; s1; s2; s3; s4]) ++ Encode src).
    apply Forall_app. split; [|done].
    apply Forall_fmap, Forall_forall. intros d _. by exists d.
Qed.

Lemma stripNewlines_alphabet (cs : list ascii) :
  Forall (fun c => exists d, c = encode_digit d) cs -> stripNewlines cs = cs.
Proof.
  unfold stripNewlines. induction 1 as [|c cs [d ->] _ IH]; [done|].
  destruct (encode_digit_facts d) as (_ & _ & Hlf & Hcr).
  rewrite filter_cons_True by done. by rewrite IH.
Qed.

(** *** White space at the ends of a string *)

Lemma IsSpace_one (c : ascii) : IsSpace [c] = isSpace c.
Proof. destruct c as [[] [] [] [] [] [] [] []]; vm_compute; reflexivity. Qed.

(** The sequence of a white-space code point is one character, or it has
    no ASCII character in it. *)
Lemma IsSpace_sequences :
  Forall (fun p => length p = 1%nat \/ Forall (fun c => isASCII c = false) p)
         ((fun r => ascii_of_byte <$> EncodeRune r) <$> White_Space).
Proof. apply (bool_decide_unpack _). vm_compute. exact I. Qed.

Lemma IsSpace_ascii (c : ascii) (p q : list ascii) :
  isASCII c = true -> (1 < length (p ++ c :: q))%nat -> IsSpace (p ++ c :: q) = false.
Proof.
  intros Hc Hlen. apply bool_decide_eq_false. intros Hin.
  destruct (proj1 (Forall_forall _ _) IsSpace_sequences _ Hin) as [H1|Hall]; [lia|].
  apply Forall_app in Hall as [_ Hall]. apply Forall_cons in Hall as [Hc' _].
  congruence.
Qed.

Lemma isSpace_ascii (c : ascii) : isSpace c = true -> isASCII c = true.
Proof. destruct c as [[] [] [] [] [] [] [] []]; vm_compute; congruence. Qed.

Section Trim.

Variable space : list ascii -> bool.

Hypothesis space_one : forall c, space [c] = isSpace c.
Hypothesis space_two : forall c c1, isASCII c = true -> space [c; c1] = false.
Hypothesis space_three : forall c c1 c2, isASCII c = true -> space [c; c1; c2] = false.

Lemma trim_spaces (ws cs : list ascii) :
  Forall (fun c => isSpace c = true) ws -> trim space (ws ++ cs) = trim space cs.
Proof.
  induction 1 as [|w ws Hw _ IH]; [done|]. cbn [app trim]. by rewrite space_one, Hw.
Qed.

Lemma trim_ascii (c : ascii) (cs : list ascii) :
  isASCII c = true -> isSpace c = false -> trim space (c :: cs) = c :: cs.
Proof.
  intros Hc Hsp. cbn [trim]. rewrite space_one, Hsp.
  destruct cs as [|c1 [|c2 cs]]; [done| |].
  - by rewrite space_two.
  - by rewrite space_two, space_three.
Qed.

Lemma trim_text (cs : list ascii) :
  Forall (fun c => isASCII c = true /\ isSpace c = false) cs -> trim space cs = cs.
Proof. destruct 1 as [|c cs [Hc Hsp] _]; [done|]. by apply trim_ascii. Qed.

End Trim.

Lemma TrimLeft_spaces (ws cs : list ascii) :
  Forall (fun c => isSpace c = true) ws -> TrimLeft (ws ++ cs) = TrimLeft cs.
Proof. apply trim_spaces, IsSpace_one. Qed.

Lemma TrimLeft_text (cs : list ascii) :
  Forall (fun c => isASCII c = true /\ isSpace c = false) cs -> TrimLeft cs = cs.
Proof.
  apply trim_text.
  - apply IsSpace_one.
  - intros c c1 Hc. apply (IsSpace_ascii c [] [c1] Hc). simpl. lia.
  - intros c c1 c2 Hc. apply (IsSpace_ascii c [] [c1; c2] Hc). simpl. lia.
Qed.

Lemma TrimRight_spaces (cs ws : list ascii) :
  Forall (fun c => isSpace c = true) ws -> TrimRight (cs ++ ws) = TrimRight cs.
Proof.
  intros Hws. unfold TrimRight. rewrite rev_app_distr, trim_spaces; [done| |].
  - intros c. apply IsSpace_one.
  - by apply Forall_rev.
Qed.

Lemma TrimRight_text (cs : list ascii) :
  Forall (fun c => isASCII c = true /\ isSpace c = false) cs -> TrimRight cs = cs.
Proof.
  intros Hcs. unfold TrimRight. rewrite trim_text.
  - apply rev_involutive.
  - intros c. apply IsSpace_one.
  - intros c c1 Hc. apply (IsSpace_ascii c [c1] [] Hc). simpl. lia.
  - intros c c1 c2 Hc. apply (IsSpace_ascii c [c2; c1] [] Hc). simpl. lia.
  - by apply Forall_rev.
Qed.

(** The characters of the alphabet are ASCII characters. *)
Lemma alphabet_ascii :
  Forall (fun d => isASCII (encode_digit d) = true) (seqZ 0 32).
Proof. vm_compute. repeat constructor. Qed.

Lemma alphabet_text (cs : list ascii) :
  Forall (fun c => exists d, c = encode_digit d) cs ->
  Forall (fun c => isASCII c = true /\ isSpace c = false) cs.
Proof.
  intros Hcs. eapply Forall_impl; [exact Hcs|]. intros c [d ->].
  destruct (encode_digit_facts d) as (_ & Hsp & _). split; [|done].
  rewrite encode_digit_low5. pose proof (low5_range d) as Hd.
  apply (proj1 (Forall_forall _ _) alphabet_ascii). apply elem_of_seqZ. lia.
Qed.

(** White space around a text of the alphabet is removed, and nothing
    else. *)
Lemma TrimSpace_text (before after cs : list ascii) :
  Forall (fun c => isSpace c = true) before ->
  Forall (fun c => isSpace c = true) after ->
  Forall (fun c => exists d, c = encode_digit d) cs ->
  TrimRight (TrimLeft (before ++ cs ++ after)) = cs.
Proof.
  intros Hb Ha Hcs%alphabet_text. rewrite TrimLeft_spaces by done.
  destruct cs as [|c cs].
  - rewrite app_nil_l, <- (app_nil_r after), TrimLeft_spaces by done. done.
  - apply Forall_cons in Hcs as Hc. destruct Hc as [[Hc Hsp] _].
    unfold TrimLeft. cbn [app]. rewrite trim_ascii; [| apply IsSpace_one | | |done|done].
    + change (c :: cs ++ after) with ((c :: cs) ++ after).
      rewrite TrimRight_spaces by done. by apply TrimRight_text.
    + intros c0 c1 Hc0. apply (IsSpace_ascii c0 [] [c1] Hc0). simpl. lia.
    + intros c0 c1 c2 Hc0. apply (IsSpace_ascii c0 [] [c1; c2] Hc0). simpl. lia.
Qed.

Lemma TrimSpace_alphabet (cs : list ascii) :
  Forall (fun c => exists d, c = encode_digit d) cs ->
  TrimSpace (string_of_list_ascii cs) = string_of_list_ascii cs.
Proof.
  intros Hcs. unfold TrimSpace. rewrite list_ascii_of_string_of_list_ascii.
  rewrite <- (app_nil_r cs) at 1. change (cs ++ []) with ([] ++ cs ++ []).
  by rewrite TrimSpace_text.
Qed.

(** Text produced by [EncodeToString] decodes to the bytes it was made
    from, also after [TrimSpace]. *)
Lemma DecodeString_EncodeToString (src : list Z) :
  Forall is_byte src ->
  DecodeString (TrimSpace (EncodeToString src)) = Ret src.
Proof.
  intros Hsrc. unfold DecodeString, EncodeToString.
  rewrite TrimSpace_alphabet by apply Encode_alphabet.
  rewrite list_ascii_of_string_of_list_ascii.
  rewrite stripNewlines_alphabet by apply Encode_alphabet.
  by apply decode_Encode.
Qed.

(** ** Round trip of a neuron *)

Lemma word_gene_gene_word gene : in_int32 gene -> word_gene (gene_word gene) = gene.
Proof.
  unfold in_int32. intros Hg. rewrite gene_word_mod. unfold word_gene.
  change (2 ^ 31) with 2147483648 in Hg. change (2 ^ 32) with 4294967296.
  destruct (Z.leb_spec 2147483648 (gene mod 4294967296));
    Z.div_mod_to_equations; lia.
Qed.

Lemma gene_word_range gene : 0 <= gene_word gene < 2 ^ 32.
Proof. rewrite gene_word_mod. apply Z.mod_pos_bound. lia. Qed.

Lemma genes_of_Marshal_body (neu : neuron) :
  Forall in_int32 neu ->
  genes_of (flat_map (fun gene => PutUint32 (gene_word gene)) neu) (length neu) = neu.
Proof.
  induction 1 as [|gene neu Hgene _ IH]; [done|].
  cbn [flat_map length genes_of].
  rewrite Uint32_PutUint32 by apply gene_word_range.
  cbn [default from_option id]. rewrite word_gene_gene_word by done.
  change (drop 4 (PutUint32 (gene_word gene) ++ ?l)) with l. by rewrite IH.
Qed.

Lemma neuronFromBytes_Marshal (neu : neuron) :
  Forall in_int32 neu -> Z.of_nat (length neu) < 2 ^ 16 ->
  neuronFromBytes (Marshal neu) = Ret neu.
Proof.
  intros Hgenes Hsize.
  assert (Hcount : Uint16 (Marshal neu) = Some (Z.of_nat (length neu))).
  { unfold Marshal, GetSize, uint16. rewrite Z.mod_small by lia.
    apply Uint16_PutUint16. lia. }
  rewrite (neuronFromBytes_Ret _ _ Hcount).
  2:{ rewrite Marshal_length. unfold GetSize. lia. }
  rewrite Nat2Z.id. unfold Marshal.
  change (drop 2 (PutUint16 ?v ++ ?l)) with l.
  by rewrite genes_of_Marshal_body.
Qed.

Lemma Marshal_bytes (neu : neuron) : Forall is_byte (Marshal neu).
Proof.
  unfold Marshal. apply Forall_app. split.
  - repeat constructor; apply byte_range.
  - induction neu as [|g neu IH]; [constructor|].
    cbn [flat_map]. apply Forall_app. split; [|done].
    repeat constructor; apply byte_range.
Qed.

Lemma Equals_from_drop (other : neuron) (i : nat) :
  Equals_from i (drop i other) other = Ret true.
Proof.
  remember (length other - i)%nat as k eqn:Hk. revert i Hk.
  induction k as [|k IH]; intros i Hk.
  - rewrite drop_ge by lia. done.
  - destruct (lookup_lt_is_Some_2 other i) as [g Hg]; [lia|].
    rewrite (drop_S _ _ _ Hg). cbn [Equals_from]. unfold GetGene. rewrite Hg.
    cbn [mbind outcome_bind]. rewrite Z.eqb_refl. apply IH. lia.
Qed.

Lemma Equals_refl (neu : neuron) : Equals neu neu = Ret true.
Proof.
  unfold Equals. rewrite Nat.eqb_refl. cbn [negb]. apply (Equals_from_drop neu 0).
Qed.

Lemma copy_replicate (value : list Z) : copy (replicate (length value) 0) value = value.
Proof.
  unfold copy. rewrite length_replicate, firstn_all, drop_ge.
  - apply app_nil_r.
  - by rewrite length_replicate.
Qed.

(** C1.  A neuron built from an integer gene vector, every gene within
    32-bit two's-complement range and fewer than [2^16] genes, is decoded
    back from its marshalled bytes and from its base32hex text: in both
    cases the decoded neuron [Equals] the original. *)
Theorem neuron_round_trip (genes : list Z) :
  Forall in_int32 genes ->
  Z.of_nat (length genes) < 2 ^ 16 ->
  exists neu,
    NewNeuron_ints genes = Ret neu
    /\ (exists decoded,
          NewNeuron_bytes (Marshal neu) = Ret decoded
          /\ Equals decoded neu = Ret true)
    /\ (exists decoded,
          NewNeuron_string (String neu) = Ret decoded
          /\ Equals decoded neu = Ret true).
Proof.
  intros Hgenes Hsize. exists genes.
  split; [unfold NewNeuron_ints; by rewrite copy_replicate|].
  split; exists genes; (split; [|apply Equals_refl]).
  - by apply neuronFromBytes_Marshal.
  - unfold NewNeuron_string, String.
    rewrite take_ge by (rewrite Marshal_length; lia).
    rewrite DecodeString_EncodeToString by apply Marshal_bytes.
    by apply neuronFromBytes_Marshal.
Qed.

Lemma neuron_round_trip_witness :
  exists neu,
    NewNeuron_ints [-5; 0; 2147483647; -2147483648] = Ret neu
    /\ (exists decoded,
          NewNeuron_bytes (Marshal neu) = Ret decoded
          /\ Equals decoded neu = Ret true)
    /\ (exists decoded,
          NewNeuron_string (String neu) = Ret decoded
          /\ Equals decoded neu = Ret true).
Proof.
  apply (neuron_round_trip [-5; 0; 2147483647; -2147483648]).
  - repeat constructor; unfold in_int32; lia.
  - simpl. lia.
Defined.

(** ** Construction of a net *)

Import Net.

#[local] Instance string_le_total : Total string_le.
Proof. intros a b. apply String.leb_total. Qed.

#[local] Instance string_le_antisym : AntiSymm (=) string_le.
Proof. intros a b. apply String.leb_antisym. Qed.

Lemma string_le_lt (a b : string) : string_le a b <-> String_as_OT.lt a b \/ a = b.
Proof.
  unfold string_le, String.leb.
  destruct (String.compare a b) eqn:Hc.
  - apply String_as_OT.cmp_eq in Hc. tauto.
  - apply String_as_OT.cmp_lt in Hc. tauto.
  - split; [done|]. intros [Hlt | ->].
    + apply String_as_OT.cmp_lt in Hlt. unfold String_as_OT.cmp in Hlt. congruence.
    + pose proof (proj2 (String_as_OT.cmp_eq b b) eq_refl) as He.
      unfold String_as_OT.cmp in He. congruence.
Qed.

#[local] Instance string_le_trans : Transitive string_le.
Proof.
  intros a b c. rewrite !string_le_lt. intros [Hab | ->] [Hbc | ->]; eauto.
  left. by apply (String_as_OT.lt_trans a b c).
Qed.

Lemma usort_Sorted (args : list string) : Sorted string_le (usort args).
Proof. apply Sorted_merge_sort; apply _. Qed.

Lemma usort_Permutation (args : list string) :
  usort args ≡ₚ elements (list_to_set args : gset string).
Proof. apply merge_sort_Permutation. Qed.

Lemma usort_NoDup (args : list string) : NoDup (usort args).
Proof. rewrite usort_Permutation. apply NoDup_elements. Qed.

Lemma usort_elem_of (args : list string) (x : string) : x ∈ usort args <-> x ∈ args.
Proof. rewrite usort_Permutation, elem_of_elements, elem_of_list_to_set. done. Qed.

(** Sorting again a list that is sorted and free of duplicates changes
    nothing. *)
Lemma usort_id (names : list string) :
  Sorted string_le names -> NoDup names -> usort names = names.
Proof.
  intros Hsorted Hnodup. apply (Sorted_unique string_le); [apply usort_Sorted|done|].
  rewrite usort_Permutation. by apply elements_list_to_set.
Qed.

Lemma check_sizes_Forall (expected i : nat) (layer : list (list Z)) :
  check_sizes expected i layer = None
  <-> Forall (fun neu => GetSize neu = expected) layer.
Proof.
  revert i. induction layer as [|neu layer IH]; intros i; cbn [check_sizes].
  - split; [constructor|done].
  - rewrite Forall_cons. destruct (Nat.eqb_spec (GetSize neu) expected); cbn [negb].
    + rewrite IH. tauto.
    + split; [done|tauto].
Qed.

Lemma NewNeuralNet_Ret (sensors0 actions0 : list string)
    (front back : list (list Z)) (net : neuralnet) :
  NewNeuralNet sensors0 actions0 front back = Ret net ->
  net = {| actions := usort actions0; frontNeuronSet := front;
           backNeuronSet := back; sensors := usort sensors0 |}
  /\ valid net.
Proof.
  unfold NewNeuralNet.
  destruct (Nat.eqb_spec (length (usort sensors0)) 0) as [|Hs]; [done|].
  destruct (Nat.eqb_spec (length (usort actions0)) 0) as [|Ha]; [done|].
  destruct (Nat.eqb_spec (length front) (length (usort actions0))) as [Hf|]; [|done].
  destruct (Nat.eqb_spec (length back) (length (usort actions0))) as [Hb|]; [|done].
  cbn [negb].
  destruct (check_sizes (length (usort sensors0)) 0 front) as [[? ?]|] eqn:Hfs; [done|].
  destruct (check_sizes (length (usort actions0)) 0 back) as [[? ?]|] eqn:Hbs; [done|].
  intros [= <-]. split; [done|].
  apply check_sizes_Forall in Hfs, Hbs.
  constructor; cbn; auto using usort_Sorted, usort_NoDup.
  - by destruct (usort sensors0).
  - by destruct (usort actions0).
Qed.

(** A valid net is what [NewNeuralNet] returns for its own fields. *)
Lemma NewNeuralNet_valid (net : neuralnet) :
  valid net ->
  NewNeuralNet (sensors net) (actions net) (frontNeuronSet net) (backNeuronSet net)
  = Ret net.
Proof.
  intros [Hss Hsn Hs0 Has Han Ha0 Hf Hb Hfs Hbs]. unfold NewNeuralNet.
  rewrite !usort_id by done.
  destruct (Nat.eqb_spec (length (sensors net)) 0) as [Hl|_].
  { by destruct (sensors net). }
  destruct (Nat.eqb_spec (length (actions net)) 0) as [Hl|_].
  { by destruct (actions net). }
  rewrite Hf, Hb, Nat.eqb_refl. cbn [negb].
  rewrite (proj2 (check_sizes_Forall _ _ _) Hfs), (proj2 (check_sizes_Forall _ _ _) Hbs).
  by destruct net.
Qed.

(** ** [Compute] of a net *)

Lemma checkInput_None (net : neuralnet) (incoming : gmap string float64) :
  NoDup (sensors net) ->
  checkInput net incoming = None
  <-> dom incoming = (list_to_set (sensors net) : gset string).
Proof.
  intros Hnodup. unfold checkInput.
  assert (Hsize : size (list_to_set (sensors net) : gset string) = length (sensors net))
    by (by apply size_list_to_set).
  destruct (Nat.eqb_spec (size incoming) (length (sensors net))) as [Hlen|Hlen];
    cbn [negb].
  - case_decide as Hkeys.
    + split; [intros _|done].
      apply set_subseteq_size_eq.
      * intros key [v Hv]%elem_of_dom. exact (Hkeys key v Hv).
      * rewrite size_dom. lia.
    + split; [done|]. intros Hdom. exfalso. apply Hkeys.
      intros key v Hv. rewrite <- Hdom. apply elem_of_dom. eauto.
  - split; [done|]. intros Hdom. exfalso. apply Hlen.
    rewrite <- Hsize, <- Hdom. symmetry. apply size_dom.
Qed.

Lemma checkInput_size (net : neuralnet) (incoming : gmap string float64) :
  checkInput net incoming = None -> size incoming = length (sensors net).
Proof.
  unfold checkInput.
  destruct (Nat.eqb_spec (size incoming) (length (sensors net))); cbn [negb]; done.
Qed.

Section NetCompute.

Variable indefinite : float64 -> Z.

(** Filling a fresh array of the right length gives the values. *)
Lemma fill_Ret (values input : list float64) (j : nat) :
  length input = (j + length values)%nat ->
  fill j values input = Ret (take j input ++ values).
Proof.
  revert j input. induction values as [|v values IH]; intros j input Hlen.
  - cbn [fill]. rewrite app_nil_r, take_ge by (simpl in Hlen; lia). done.
  - cbn [fill length] in *. rewrite decide_True by lia.
    rewrite IH by (rewrite length_insert; lia).
    rewrite (take_S_r _ _ v) by (apply list_lookup_insert_eq; lia).
    rewrite take_insert_ge by lia. by rewrite <- app_assoc.
Qed.

Lemma fill_fresh (values : list float64) :
  fill 0 values (replicate (length values) fzero) = Ret values.
Proof. rewrite fill_Ret by (by rewrite length_replicate). done. Qed.

(** A neuron of the right size computes a value. *)
Lemma Neuron_Compute_Ret (neu : list Z) (data : list float64) :
  length data = GetSize neu -> exists value, Neuron.Compute indefinite neu data = Ret value.
Proof. intros H. rewrite (Compute_threshold indefinite neu data H). eauto. Qed.

Lemma front_loop_Ret (net : neuralnet) (incoming : gmap string float64)
    (layer : list (list Z)) (i : nat) (middle : list Z) :
  size incoming = length (sensors net) ->
  Forall (fun neu => GetSize neu = length (sensors net)) layer ->
  length middle = (i + length layer)%nat ->
  exists values,
    Forall2 (fun neu value =>
               Neuron.Compute indefinite neu (sensor_inputs net incoming) = Ret value)
            layer values
    /\ front_loop indefinite net incoming i layer middle = Ret (take i middle ++ values).
Proof.
  intros Hsize Hsizes. revert i middle.
  induction Hsizes as [|neu layer Hneu _ IH]; intros i middle Hlen.
  - exists []. split; [constructor|]. cbn [front_loop].
    rewrite app_nil_r, take_ge by (simpl in Hlen; lia). done.
  - cbn [front_loop length] in *.
    assert (Hin : length (sensor_inputs net incoming) = length (sensors net))
      by apply length_fmap.
    rewrite Hsize, <- Hin, fill_fresh. cbn [mbind outcome_bind].
    destruct (Neuron_Compute_Ret neu (sensor_inputs net incoming)) as [value Hvalue];
      [lia|].
    rewrite Hvalue. cbn [mbind outcome_bind]. rewrite decide_True by lia.
    destruct (IH (S i) (<[i := value]> middle)) as (values & Hvalues & Hloop);
      [rewrite length_insert; lia|].
    exists (value :: values). split; [by constructor|].
    rewrite Hloop, (take_S_r _ _ value) by (apply list_lookup_insert_eq; lia).
    rewrite take_insert_ge by lia. by rewrite <- app_assoc.
Qed.

(** The loop over the back layer from index [i] on: every action from
    [i] on gets the verdict of its neuron, the other entries of [res] are
    left as they are. *)
Lemma back_loop_Ret (net : neuralnet) (middle : list Z) (k i : nat)
    (res : gmap string bool) :
  NoDup (actions net) ->
  length (backNeuronSet net) = length (actions net) ->
  Forall (fun neu => GetSize neu = length middle) (backNeuronSet net) ->
  k = (length (actions net) - i)%nat ->
  exists res',
    back_loop indefinite net middle i (drop i (backNeuronSet net)) res = Ret res'
    /\ (forall action, action ∉ drop i (actions net) -> res' !! action = res !! action)
    /\ (forall j action, (i <= j)%nat -> actions net !! j = Some action ->
          exists neu value,
            backNeuronSet net !! j = Some neu
            /\ Neuron.Compute indefinite neu (float64_of_int <$> middle) = Ret value
            /\ res' !! action = Some (0 <? value)).
Proof.
  intros Hnodup Hlen Hsizes. revert i res.
  induction k as [|k IH]; intros i res Hk.
  - rewrite drop_ge by lia. exists res. split; [done|]. split; [done|].
    intros j action Hij Hj. apply lookup_lt_Some in Hj. lia.
  - destruct (lookup_lt_is_Some_2 (backNeuronSet net) i) as [neu Hneu]; [lia|].
    destruct (lookup_lt_is_Some_2 (actions net) i) as [action Haction]; [lia|].
    rewrite (drop_S _ _ _ Hneu). cbn [back_loop].
    rewrite <- (length_fmap float64_of_int middle), fill_fresh.
    cbn [mbind outcome_bind].
    assert (Hsize : GetSize neu = length middle).
    { eapply (proj1 (Forall_forall _ _) Hsizes), list_elem_of_lookup_2, Hneu. }
    destruct (Neuron_Compute_Ret neu (float64_of_int <$> middle)) as [value Hvalue];
      [by rewrite length_fmap|].
    rewrite Hvalue. cbn [mbind outcome_bind]. rewrite Haction.
    destruct (IH (S i) (<[action := 0 <? value]> res)) as (res' & Hloop & Hold & Hnew);
      [lia|].
    exists res'. split; [done|].
    assert (Hfresh : action ∉ drop (S i) (actions net)).
    { intros [j Hj]%list_elem_of_lookup_1. rewrite lookup_drop in Hj.
      pose proof (NoDup_lookup _ _ _ _ Hnodup Haction Hj). lia. }
    split.
    + intros action' Hnot. rewrite Hold.
      * apply lookup_insert_ne. intros ->. apply Hnot.
        rewrite (drop_S _ _ _ Haction). left.
      * intros Hin. apply Hnot. rewrite (drop_S _ _ _ Haction). by right.
    + intros j action' Hij Hj. destruct (decide (j = i)) as [->|Hne].
      * assert (action' = action) as -> by congruence.
        exists neu, value. split; [done|]. split; [done|].
        rewrite Hold by done. apply lookup_insert_eq.
      * apply Hnew; [lia|done].
Qed.

End NetCompute.

(** The values read for the sensors are the entries of [incoming], in
    the order of [net.sensors]. *)
Lemma sensor_inputs_lookup (net : neuralnet) (incoming : gmap string float64) :
  dom incoming = (list_to_set (sensors net) : gset string) ->
  Forall2 (fun sensor value => incoming !! sensor = Some value)
          (sensors net) (sensor_inputs net incoming).
Proof.
  intros Hdom. unfold sensor_inputs. apply Forall2_fmap_r, Forall_Forall2_diag.
  apply Forall_forall. intros sensor Hin.
  assert (Hkey : sensor ∈ dom incoming) by (by rewrite Hdom, elem_of_list_to_set).
  apply elem_of_dom in Hkey as [value Hvalue]. unfold compose. by rewrite Hvalue.
Qed.

(** C4.  For a net built by [NewNeuralNet], whose sensors and actions are
    the given names sorted and without duplicates, [Compute] returns an
    error exactly when the keys of the input mapping are not the set of
    sensors.  Otherwise [inputs] is the vector of the values the mapping
    holds for the sensors, in sorted sensor order, [middle] the vector of
    the outputs of the front neurons on [inputs], and [Compute] returns a
    mapping defined on the actions alone whose value for the [i]-th
    action, in sorted order, is [backLayer[i].Compute(middle) > 0]. *)
Theorem Net_Compute_spec (indefinite : float64 -> Z)
    (sensors0 actions0 : list string) (front back : list (list Z))
    (net : neuralnet) (incoming : gmap string float64) :
  NewNeuralNet sensors0 actions0 front back = Ret net ->
  (sensors net = usort sensors0 /\ actions net = usort actions0
   /\ frontNeuronSet net = front /\ backNeuronSet net = back)
  /\ ((exists err, Net.Compute indefinite net incoming = Fail err)
      <-> dom incoming <> (list_to_set (sensors net) : gset string))
  /\ (dom incoming = (list_to_set (sensors net) : gset string) ->
      exists inputs middle res,
        Forall2 (fun sensor value => incoming !! sensor = Some value)
                (sensors net) inputs
        /\ Forall2 (fun neu value => Neuron.Compute indefinite neu inputs = Ret value)
                   (frontNeuronSet net) middle
        /\ Net.Compute indefinite net incoming = Ret res
        /\ (forall i action, actions net !! i = Some action ->
              exists neu value,
                backNeuronSet net !! i = Some neu
                /\ Neuron.Compute indefinite neu (float64_of_int <$> middle) = Ret value
                /\ res !! action = Some (0 <? value))
        /\ (forall action, action ∉ actions net -> res !! action = None)).
Proof.
  intros Hnew. destruct (NewNeuralNet_Ret _ _ _ _ _ Hnew) as [Hnet Hvalid].
  split; [by rewrite Hnet|].
  destruct Hvalid as [_ Hsn _ _ Han _ Hf Hb Hfs Hbs].
  assert (Hok : dom incoming = (list_to_set (sensors net) : gset string) ->
      exists inputs middle res,
        Forall2 (fun sensor value => incoming !! sensor = Some value)
                (sensors net) inputs
        /\ Forall2 (fun neu value => Neuron.Compute indefinite neu inputs = Ret value)
                   (frontNeuronSet net) middle
        /\ Net.Compute indefinite net incoming = Ret res
        /\ (forall i action, actions net !! i = Some action ->
              exists neu value,
                backNeuronSet net !! i = Some neu
                /\ Neuron.Compute indefinite neu (float64_of_int <$> middle) = Ret value
                /\ res !! action = Some (0 <? value))
        /\ (forall action, action ∉ actions net -> res !! action = None)).
  { intros Hdom. pose proof (sensor_inputs_lookup net incoming Hdom) as Hinputs.
    apply checkInput_None in Hdom; [|done].
    unfold Net.Compute. rewrite Hdom.
    destruct (front_loop_Ret indefinite net incoming (frontNeuronSet net) 0
                (replicate (length (actions net)) 0))
      as (middle & Hmiddle & Hfront);
      [by apply checkInput_size | done | rewrite length_replicate; lia |].
    rewrite Hfront. cbn [take app mbind outcome_bind].
    assert (Hmlen : length middle = length (actions net)).
    { rewrite <- (Forall2_length _ _ _ Hmiddle). done. }
    destruct (back_loop_Ret indefinite net middle (length (actions net)) 0 ∅)
      as (res & Hback & Hold & Hnew');
      [done | done | by rewrite Hmlen | lia |].
    exists (sensor_inputs net incoming), middle, res.
    split; [done|]. split; [done|]. split; [done|]. split.
    - intros i action Hi. apply (Hnew' i action); [lia|done].
    - intros action Hnot. by rewrite Hold. }
  split; [|done]. split.
  - intros [err Herr] Hdom. destruct (Hok Hdom) as (? & ? & ? & _ & _ & Hret & _).
    congruence.
  - intros Hdom. unfold Net.Compute.
    destruct (checkInput net incoming) as [err|] eqn:Hcheck; [eauto|].
    apply checkInput_None in Hcheck; done.
Qed.

Lemma Net_Compute_spec_witness :
  (exists err,
     Net.Compute (fun _ => 0)
       {| actions := ["jump"]; frontNeuronSet := [[1; -2]];
          backNeuronSet := [[3]]; sensors := ["distance"; "height"] |}
       {["distance" := float64_of_int 1]} = Fail err)
  /\ exists inputs middle res,
       Forall2 (fun sensor value =>
                  ({["height" := float64_of_int 1; "distance" := float64_of_int 5]}
                     : gmap string float64) !! sensor = Some value)
               ["distance"; "height"] inputs
       /\ Forall2 (fun neu value => Neuron.Compute (fun _ => 0) neu inputs = Ret value)
                  [[1; -2]] middle
       /\ Net.Compute (fun _ => 0)
            {| actions := ["jump"]; frontNeuronSet := [[1; -2]];
               backNeuronSet := [[3]]; sensors := ["distance"; "height"] |}
            {["height" := float64_of_int 1; "distance" := float64_of_int 5]}
          = Ret res
       /\ (forall i action, ["jump"] !! i = Some action ->
             exists neu value,
               [[3]] !! i = Some neu
               /\ Neuron.Compute (fun _ => 0) neu (float64_of_int <$> middle) = Ret value
               /\ res !! action = Some (0 <? value))
       /\ (forall action, action ∉ ["jump"] -> res !! action = None).
Proof.
  split.
  - apply (Net_Compute_spec (fun _ => 0) ["height"; "distance"; "height"] ["jump"]
             [[1; -2]] [[3]]
             {| actions := ["jump"]; frontNeuronSet := [[1; -2]];
                backNeuronSet := [[3]]; sensors := ["distance"; "height"] |}
             {["distance" := float64_of_int 1]}).
    + vm_compute. reflexivity.
    + apply (bool_decide_unpack _). vm_compute. exact I.
  - apply (Net_Compute_spec (fun _ => 0) ["height"; "distance"; "height"] ["jump"]
             [[1; -2]] [[3]]
             {| actions := ["jump"]; frontNeuronSet := [[1; -2]];
                backNeuronSet := [[3]]; sensors := ["distance"; "height"] |}
             {["height" := float64_of_int 1; "distance" := float64_of_int 5]}).
    + vm_compute. reflexivity.
    + apply (bool_decide_unpack _). vm_compute. exact I.
Defined.

(** ** [Child] *)

Lemma int_id x : - 2 ^ 63 <= x < 2 ^ 63 -> int x = x.
Proof. intros Hx. unfold int. rewrite Z.mod_small; lia. Qed.

(** An intermediate wrap-around does not change the wrapped result. *)
Lemma int_int_sub x y : int (int x - y) = int (x - y).
Proof.
  unfold int.
  replace (((x + 2 ^ 63) mod 2 ^ 64 - 2 ^ 63 - y + 2 ^ 63))
    with ((x + 2 ^ 63) mod 2 ^ 64 + (- y)) by lia.
  rewrite Zplus_mod_idemp_l. do 2 f_equal. lia.
Qed.

Lemma int32_id x : - 2 ^ 31 <= x < 2 ^ 31 -> int32 x = x.
Proof. intros Hx. unfold int32. rewrite Z.mod_small; lia. Qed.

Section ChildProps.

Variable Rand : Type.
Variable draw : Z -> Rand -> Z * Rand.

(** The contract of [rand.Int31n]: for [n > 0] the value drawn lies in
    the half-open interval [[0, n)]. *)
Hypothesis draw_range : forall n r, 0 < n -> 0 <= (draw n r).1 < n.

Lemma draws_length n k r : length (draws Rand draw n k r).1 = k.
Proof. revert r. induction k as [|k IH]; intros r; cbn; [done|]. by rewrite IH. Qed.

Lemma draws_range n k r :
  0 < n -> Forall (fun u => 0 <= u < n) (draws Rand draw n k r).1.
Proof.
  intros Hn. revert r. induction k as [|k IH]; intros r; cbn; [constructor|].
  constructor; [by apply draw_range | apply IH].
Qed.

Lemma Child_loop_Ret (dev : Z) (rest : list Z) (i : nat) (child : list Z) (r : Rand) :
  0 < dev < 2 ^ 31 ->
  length child = (i + length rest)%nat ->
  Child_loop Rand draw dev i rest child r
  = Ret (take i child
         ++ zip_with (fun value u => int (value + u - dev ÷ 2)) rest
              (draws Rand draw dev (length rest) r).1,
         (draws Rand draw dev (length rest) r).2).
Proof.
  intros Hdev. revert i child r.
  induction rest as [|value rest IH]; intros i child r Hlen.
  - cbn. rewrite app_nil_r, take_ge by (simpl in Hlen; lia). done.
  - cbn [Child_loop length draws zip_with fst snd] in *.
    unfold Int31n. rewrite int32_id by lia.
    destruct (Z.leb_spec dev 0) as [?|_]; [lia|]. cbn [mbind outcome_bind].
    rewrite IH by (rewrite length_insert; lia).
    rewrite (take_S_r _ _ (int (int (value + (draw dev r).1) - dev ÷ 2)))
      by (apply list_lookup_insert_eq; lia).
    rewrite take_insert_ge by lia. rewrite <- app_assoc, int_int_sub. done.
Qed.

(** C8 (amended).  For a deviation with [0 < deviation < 2^31], [Child]
    returns a new neuron of the same size; gene by gene it draws one [u]
    from [[0, deviation)] and the new gene is the original gene plus the
    offset [u - deviation/2], which lies between [-(deviation/2)] and
    [deviation - 1 - deviation/2], provided the sum stays within the range
    of [int]. *)
Theorem Child_offsets (neu : neuron) (dev : Z) (r : Rand) :
  0 < dev < 2 ^ 31 ->
  Forall (fun gene => - 2 ^ 63 <= gene - dev / 2
                      /\ gene + (dev - 1 - dev / 2) < 2 ^ 63) neu ->
  exists child r' offsets,
    Child Rand draw neu dev r = Ret (child, r')
    /\ GetSize child = GetSize neu
    /\ length offsets = GetSize neu
    /\ offsets = (fun u => u - dev / 2) <$> (draws Rand draw dev (GetSize neu) r).1
    /\ r' = (draws Rand draw dev (GetSize neu) r).2
    /\ Forall (fun offset => - (dev / 2) <= offset <= dev - 1 - dev / 2) offsets
    /\ child = zip_with Z.add neu offsets.
Proof.
  intros Hdev Hgenes. unfold Child, GetSize.
  rewrite Child_loop_Ret by (rewrite ?length_replicate; lia).
  cbn [take app].
  assert (Hquot : dev ÷ 2 = dev / 2) by (apply Z.quot_div_nonneg; lia).
  rewrite Hquot.
  pose proof (draws_range dev (length neu) r ltac:(lia)) as Hus.
  pose proof (draws_length dev (length neu) r) as Hlen.
  set (us := (draws Rand draw dev (length neu) r).1) in *.
  eexists _, _, ((fun u => u - dev / 2) <$> us).
  split; [reflexivity|]. rewrite take_0. cbn [app].
  split; [rewrite length_zip_with; lia|].
  split; [rewrite length_fmap; lia|].
  split; [done|]. split; [done|]. split.
  - apply Forall_fmap. eapply Forall_impl; [exact Hus|]. cbn. intros u Hu. lia.
  - clearbody us. clear r. revert us Hus Hlen.
    induction Hgenes as [|gene neu Hgene _ IH]; intros [|u us] Hus Hlen;
      try done.
    apply Forall_cons in Hus as [Hu Hus]. cbn [zip_with fmap list_fmap].
    rewrite IH by (simpl in Hlen; auto with lia).
    f_equal. rewrite int_id by lia. lia.
Qed.

End ChildProps.

Lemma Child_offsets_witness :
  exists child r' offsets,
    Child Z (fun n s => (s mod n, s + 1)) [1; -2; 3] 10 7 = Ret (child, r')
    /\ GetSize child = 3%nat
    /\ length offsets = 3%nat
    /\ offsets = (fun u => u - 10 / 2)
                 <$> (draws Z (fun n s => (s mod n, s + 1)) 10 3 7).1
    /\ r' = (draws Z (fun n s => (s mod n, s + 1)) 10 3 7).2
    /\ Forall (fun offset => - (10 / 2) <= offset <= 10 - 1 - 10 / 2) offsets
    /\ child = zip_with Z.add [1; -2; 3] offsets.
Proof.
  apply (Child_offsets Z (fun n s => (s mod n, s + 1))).
  - intros n s Hn. cbn. apply Z.mod_pos_bound. lia.
  - lia.
  - repeat (apply Forall_cons_2; [cbv beta; Z.div_mod_to_equations; lia|]).
    apply Forall_nil_2.
Defined.

(** C8, as stated, fails for a deviation that does not fit [int32]: with
    deviation [2^31] the argument [int32(dev)] of [rand.Int31n] is negative
    and [Child] panics on any neuron that has a gene; and a gene at the
    lower end of [int] wraps around. *)
Lemma Child_counterexample :
  0 < 2 ^ 31
  /\ Child Z (fun n s => (s mod n, s + 1)) [0] (2 ^ 31) 0
     = Panic "invalid argument to Int31n"
  /\ Child Z (fun n s => (s mod n, s + 1)) [- 2 ^ 63] 2 0
     = Ret ([2 ^ 63 - 1], 1).
Proof. vm_compute. repeat split; reflexivity. Qed.

(** ** Storage of a neuron built from another value *)

Lemma Storage_make_fresh (mem : gmap nat (list Z)) (n : nat) :
  mem !! Storage.array (Storage.make mem n).2 = None.
Proof. cbn. apply not_elem_of_dom, is_fresh. Qed.

(** The [[]int] case copies: the neuron has the genes of the slice it
    is built from, in a backing array of its own, and a later write
    through the argument leaves the neuron as it is. *)
Lemma NewNeuron_ints_independent (mem : gmap nat (list Z)) (value : Storage.slice)
    (elems : list Z) (i : nat) (v : Z) :
  mem !! Storage.array value = Some elems ->
  (Storage.len value <= length elems)%nat ->
  Storage.array (Storage.NewNeuron_ints mem value).2 <> Storage.array value
  /\ Storage.genes (Storage.NewNeuron_ints mem value).1
       (Storage.NewNeuron_ints mem value).2 = Storage.genes mem value
  /\ Storage.genes
       (Storage.set_index (Storage.NewNeuron_ints mem value).1 value i v)
       (Storage.NewNeuron_ints mem value).2 = Storage.genes mem value.
Proof.
  intros Helems Hlen.
  pose proof (Storage_make_fresh mem (Storage.len value)) as Hfresh.
  unfold Storage.NewNeuron_ints.
  set (made := Storage.make mem (Storage.len value)) in *.
  cbn [fst snd].
  assert (Hne : Storage.array made.2 <> Storage.array value) by congruence.
  assert (Hcopy : Storage.genes
            (alter (fun elems0 => copy elems0 (Storage.genes mem value))
               (Storage.array made.2) made.1) made.2 = Storage.genes mem value).
  { unfold Storage.genes at 1. rewrite lookup_alter_eq. subst made. cbn.
    rewrite lookup_insert_eq. cbn. unfold copy, Storage.genes.
    rewrite Helems. cbn. rewrite length_replicate, !length_take.
    rewrite Nat.min_l by lia. rewrite take_take, Nat.min_id.
    rewrite drop_ge by (rewrite length_replicate; lia).
    rewrite app_nil_r, take_take, Nat.min_id. done. }
  split; [done|]. split; [done|].
  etransitivity; [|exact Hcopy].
  unfold Storage.genes, Storage.set_index. by rewrite lookup_alter_ne.
Qed.

(** C7 (defect of the code).  The [Neuron] case of [NewNeuron] makes no
    clone.  Take the neuron with the genes [1, 2] held in the array at
    address 0, the only array there is.  The neuron constructed from it
    is that very slice: it is held in the array at address 0 and no array
    has been allocated, so that a write of 9 to the first gene of the
    original shows in it.  The [[]int] case does on the same slice what
    the claim asks for: the same genes in a new array, which the write
    leaves as it is. *)
Theorem NewNeuron_Neuron_not_cloned :
  Storage.NewNeuron_Neuron {[ 0%nat := [1; 2] ]} {| Storage.array := 0; Storage.len := 2 |}
  = ({[ 0%nat := [1; 2] ]}, {| Storage.array := 0; Storage.len := 2 |})
  /\ Storage.array
       (Storage.NewNeuron_Neuron {[ 0%nat := [1; 2] ]}
          {| Storage.array := 0; Storage.len := 2 |}).2 = 0%nat
  /\ dom (Storage.NewNeuron_Neuron {[ 0%nat := [1; 2] ]}
            {| Storage.array := 0; Storage.len := 2 |}).1 = ({[ 0%nat ]} : gset nat)
  /\ Storage.genes
       (Storage.set_index
          (Storage.NewNeuron_Neuron {[ 0%nat := [1; 2] ]}
             {| Storage.array := 0; Storage.len := 2 |}).1
          {| Storage.array := 0; Storage.len := 2 |} 0 9)
       (Storage.NewNeuron_Neuron {[ 0%nat := [1; 2] ]}
          {| Storage.array := 0; Storage.len := 2 |}).2 = [9; 2]
  /\ Storage.array
       (Storage.NewNeuron_ints {[ 0%nat := [1; 2] ]}
          {| Storage.array := 0; Storage.len := 2 |}).2 = 1%nat
  /\ dom (Storage.NewNeuron_ints {[ 0%nat := [1; 2] ]}
            {| Storage.array := 0; Storage.len := 2 |}).1 = ({[ 0%nat; 1%nat ]} : gset nat)
  /\ Storage.genes
       (Storage.NewNeuron_ints {[ 0%nat := [1; 2] ]}
          {| Storage.array := 0; Storage.len := 2 |}).1
       (Storage.NewNeuron_ints {[ 0%nat := [1; 2] ]}
          {| Storage.array := 0; Storage.len := 2 |}).2 = [1; 2]
  /\ Storage.genes
       (Storage.set_index
          (Storage.NewNeuron_ints {[ 0%nat := [1; 2] ]}
             {| Storage.array := 0; Storage.len := 2 |}).1
          {| Storage.array := 0; Storage.len := 2 |} 0 9)
       (Storage.NewNeuron_ints {[ 0%nat := [1; 2] ]}
          {| Storage.array := 0; Storage.len := 2 |}).2 = [1; 2].
Proof.
  split; [reflexivity|]. split; [reflexivity|].
  split; [apply (bool_decide_unpack _); vm_compute; exact I|].
  split; [vm_compute; reflexivity|]. split; [vm_compute; reflexivity|].
  split; [apply (bool_decide_unpack _); vm_compute; exact I|].
  split; vm_compute; reflexivity.
Qed.

(** ** [Save] and [LoadNet] *)

Lemma read_into_exact (buf pre rest : list Z) :
  length pre = length buf -> pre ++ rest <> [] ->
  read_into buf (pre ++ rest) = Ret (pre, rest).
Proof.
  intros Hlen Hne. unfold read_into, Read.
  destruct (pre ++ rest) as [|b l] eqn:Hl; [done|]. rewrite <- Hl.
  cbn [mbind outcome_bind fst snd]. rewrite <- Hlen.
  rewrite take_app_length, drop_app_length. unfold copy.
  rewrite Hlen, firstn_all2 by lia. rewrite drop_ge by lia.
  by rewrite app_nil_r.
Qed.

(** The 4-byte count field: two digits, then the two bytes of [current]
    that are never written. *)
Lemma count_field (b0 b1 b2 b3 v : Z) :
  copy [b0; b1; b2; b3] (PutUint16 v) = PutUint16 v ++ [b2; b3].
Proof. reflexivity. Qed.

Lemma ascii_of_byte_of_ascii (c : ascii) : ascii_of_byte (byte_of_ascii c) = c.
Proof. unfold ascii_of_byte, byte_of_ascii. by rewrite N2Z.id, ascii_N_embedding. Qed.

Lemma loadString_name (cs acc : list ascii) (rest : list Z) :
  0 ∉ map byte_of_ascii cs ->
  loadString (map byte_of_ascii cs ++ 0 :: rest) acc
  = Ret (string_of_list_ascii (acc ++ cs), rest).
Proof.
  revert acc. induction cs as [|c cs IH]; intros acc Hnul.
  - cbn. by rewrite app_nil_r.
  - cbn [map app loadString].
    destruct (Z.eqb_spec (byte_of_ascii c) 0) as [Hc|_].
    { exfalso. apply Hnul. cbn [map]. rewrite Hc. left. }
    rewrite IH.
    + rewrite ascii_of_byte_of_ascii, <- app_assoc. done.
    + intros Hin. apply Hnul. cbn [map]. by right.
Qed.

Lemma loadStrings_loop_names (names : list string) (i : nat) (rest : list Z)
    (set : list string) :
  Forall nul_free names ->
  length set = (i + length names)%nat ->
  loadStrings_loop i (length names) (save_strings names ++ rest) set
  = Ret (take i set ++ names, rest).
Proof.
  intros Hnames. revert i set.
  induction Hnames as [|name names Hname _ IH]; intros i set Hlen.
  - cbn. rewrite app_nil_r, take_ge by (simpl in Hlen; lia). done.
  - cbn [length loadStrings_loop save_strings flat_map] in *.
    unfold bytes_of_string. rewrite <- !app_assoc. cbn [app].
    rewrite loadString_name by exact Hname.
    cbn [mbind outcome_bind fst snd app]. rewrite string_of_list_ascii_of_string.
    change (flat_map _ names) with (save_strings names).
    rewrite IH by (rewrite length_insert; lia).
    rewrite (take_S_r _ _ name) by (apply list_lookup_insert_eq; lia).
    rewrite take_insert_ge by lia. by rewrite <- app_assoc.
Qed.

Lemma loadStrings_names (names : list string) (b2 b3 : Z) (rest : list Z) :
  Forall nul_free names ->
  Z.of_nat (length names) < 2 ^ 16 ->
  loadStrings ((PutUint16 (uint16 (Z.of_nat (length names))) ++ [b2; b3])
               ++ save_strings names ++ rest)
  = Ret (names, rest).
Proof.
  intros Hnames Hlen. unfold loadStrings.
  rewrite read_into_exact by done. cbn [mbind outcome_bind fst snd].
  unfold uint16. rewrite Z.mod_small by lia.
  rewrite Uint16_PutUint16 by lia. rewrite Nat2Z.id.
  rewrite loadStrings_loop_names by (rewrite ?length_replicate; done).
  done.
Qed.

(** [readFile] on the marshalled bytes of a neuron, more input following. *)
Lemma readFile_Marshal (neu : list Z) (rest : list Z) :
  Forall in_int32 neu -> Z.of_nat (length neu) < 2 ^ 16 -> rest <> [] ->
  readFile (Marshal neu ++ rest) = Ret (neu, rest).
Proof.
  intros Hgenes Hlen Hrest. unfold readFile.
  set (body := flat_map (fun gene => PutUint32 (gene_word gene)) neu).
  assert (HM : Marshal neu = PutUint16 (Z.of_nat (length neu)) ++ body).
  { unfold Marshal, GetSize, uint16. by rewrite Z.mod_small by lia. }
  assert (Hbody : length body = (4 * length neu)%nat)
    by apply flat_map_PutUint32_length.
  rewrite HM, <- app_assoc.
  rewrite read_into_exact by done. cbn [mbind outcome_bind fst snd].
  rewrite <- (app_nil_r (PutUint16 _)) at 1. rewrite Uint16_PutUint16 by lia.
  rewrite Nat2Z.id.
  assert (Hdata : copy (replicate (2 + 4 * length neu) 0) (PutUint16 (Z.of_nat (length neu)))
                  = PutUint16 (Z.of_nat (length neu)) ++ replicate (4 * length neu) 0).
  { unfold copy. rewrite length_replicate.
    change (2 + 4 * length neu)%nat with (S (S (4 * length neu))).
    unfold PutUint16. cbn [firstn skipn length replicate app].
    by rewrite take_nil. }
  rewrite Hdata. change (drop 2 (PutUint16 ?v ++ ?l)) with l.
  change (take 2 (PutUint16 ?v ++ ?l)) with (PutUint16 v).
  rewrite read_into_exact.
  - cbn [mbind outcome_bind fst snd]. rewrite <- HM.
    rewrite neuronFromBytes_Marshal by done. done.
  - by rewrite length_replicate.
  - intros Happ. apply app_eq_nil in Happ as [_ ?]. done.
Qed.

Lemma save_neurons_cons (neu : list Z) (layer : list (list Z)) :
  save_neurons (neu :: layer) = Marshal neu ++ save_neurons layer.
Proof.
  unfold save_neurons. cbn [flat_map].
  rewrite take_ge by (rewrite Marshal_length; lia). done.
Qed.

Lemma loadNeurons_loop_layer (layer : list (list Z)) (i : nat) (rest : list Z)
    (res : list (list Z)) :
  Forall (fun neu => Forall in_int32 neu /\ Z.of_nat (length neu) < 2 ^ 16) layer ->
  rest <> [] ->
  length res = (i + length layer)%nat ->
  loadNeurons_loop i (length layer) (save_neurons layer ++ rest) res
  = Ret (take i res ++ layer, rest).
Proof.
  intros Hlayer Hrest. revert i res.
  induction Hlayer as [|neu layer [Hgenes Hlen] _ IH]; intros i res Hres.
  - cbn. rewrite app_nil_r, take_ge by (simpl in Hres; lia). done.
  - cbn [length loadNeurons_loop] in *. rewrite save_neurons_cons, <- app_assoc.
    unfold NewNeuron_Reader. rewrite readFile_Marshal; [|done|done|].
    2:{ intros Happ. apply app_eq_nil in Happ as [_ ?]. done. }
    cbn [mbind outcome_bind fst snd].
    rewrite IH by (rewrite length_insert; lia).
    rewrite (take_S_r _ _ neu) by (apply list_lookup_insert_eq; lia).
    rewrite take_insert_ge by lia. by rewrite <- app_assoc.
Qed.

Lemma loadNeurons_layer (layer : list (list Z)) (b2 b3 : Z) (rest : list Z) :
  Forall (fun neu => Forall in_int32 neu /\ Z.of_nat (length neu) < 2 ^ 16) layer ->
  Z.of_nat (length layer) < 2 ^ 16 ->
  rest <> [] ->
  loadNeurons ((PutUint16 (uint16 (Z.of_nat (length layer))) ++ [b2; b3])
               ++ save_neurons layer ++ rest)
  = Ret (layer, rest).
Proof.
  intros Hlayer Hlen Hrest. unfold loadNeurons.
  rewrite read_into_exact by done. cbn [mbind outcome_bind fst snd].
  unfold uint16. rewrite Z.mod_small by lia.
  rewrite Uint16_PutUint16 by lia. rewrite Nat2Z.id.
  rewrite loadNeurons_loop_layer by (rewrite ?length_replicate; done).
  done.
Qed.

(** The layout of the bytes written by [Save]. *)
Lemma Save_layout (net : neuralnet) :
  exists total,
    Save net
    = (PutUint16 total ++ [0; 0])
      ++ ((PutUint16 (uint16 (Z.of_nat (length (sensors net)))) ++ [0; 0])
          ++ save_strings (sensors net)
          ++ ((PutUint16 (uint16 (Z.of_nat (length (actions net)))) ++ [0; 0])
              ++ save_strings (actions net)
              ++ ((PutUint16 (uint16 (Z.of_nat (length (frontNeuronSet net)))) ++ [0; 0])
                  ++ save_neurons (frontNeuronSet net)
                  ++ ((PutUint16 (uint16 (Z.of_nat (length (backNeuronSet net)))) ++ [0; 0])
                      ++ save_neurons (backNeuronSet net)
                      ++ [0; 0; 0; 0])))).
Proof.
  eexists. unfold Save. cbv zeta. unfold PutUint16, copy.
  cbn [length firstn skipn app]. rewrite <- !app_assoc. cbn [app]. reflexivity.
Qed.

(** C5 (amended).  For a net built by [NewNeuralNet] whose names contain
    no zero byte, with fewer than [2^16] sensors and fewer than [2^16]
    actions and every gene within 32-bit two's-complement range,
    [LoadNet] on the bytes written by [Save] returns the same net: the
    same sorted sensors, the same sorted actions, and the same genes in
    both layers. *)
Theorem LoadNet_Save (sensors0 actions0 : list string) (front back : list (list Z))
    (net : neuralnet) :
  NewNeuralNet sensors0 actions0 front back = Ret net ->
  storable net ->
  exists loaded,
    LoadNet (Save net) = Ret loaded
    /\ sensors loaded = sensors net
    /\ actions loaded = actions net
    /\ frontNeuronSet loaded = frontNeuronSet net
    /\ backNeuronSet loaded = backNeuronSet net.
Proof.
  intros Hnew (Hsn & Han & Hsl & Hal & Hfg & Hbg).
  destruct (NewNeuralNet_Ret _ _ _ _ _ Hnew) as [_ Hvalid].
  pose proof Hvalid as [_ _ _ _ _ _ Hf Hb Hfs Hbs].
  exists net. split; [|done].
  destruct (Save_layout net) as [total ->]. unfold LoadNet.
  rewrite read_into_exact by done. cbn [mbind outcome_bind fst snd].
  rewrite loadStrings_names by done. cbn [mbind outcome_bind fst snd].
  rewrite loadStrings_names by done. cbn [mbind outcome_bind fst snd].
  rewrite loadNeurons_layer; [| |lia|].
  2:{ apply Forall_forall. intros neu Hneu.
      split; [exact (proj1 (Forall_forall _ _) Hfg neu Hneu)|].
      pose proof (proj1 (Forall_forall _ _) Hfs neu Hneu) as Hsz.
      unfold GetSize in Hsz. lia. }
  2:{ intros Happ. apply app_eq_nil in Happ as [Happ _]. discriminate Happ. }
  cbn [mbind outcome_bind fst snd].
  rewrite loadNeurons_layer; [| |lia|done].
  2:{ apply Forall_forall. intros neu Hneu.
      split; [exact (proj1 (Forall_forall _ _) Hbg neu Hneu)|].
      pose proof (proj1 (Forall_forall _ _) Hbs neu Hneu) as Hsz.
      unfold GetSize in Hsz. lia. }
  cbn [mbind outcome_bind fst snd]. by apply NewNeuralNet_valid.
Qed.

Lemma LoadNet_Save_witness :
  exists loaded,
    LoadNet (Save {| actions := ["jump"]; frontNeuronSet := [[1; -2]];
                     backNeuronSet := [[3]]; sensors := ["distance"; "height"] |})
    = Ret loaded
    /\ sensors loaded = ["distance"; "height"]
    /\ actions loaded = ["jump"]
    /\ frontNeuronSet loaded = [[1; -2]]
    /\ backNeuronSet loaded = [[3]].
Proof.
  apply (LoadNet_Save ["height"; "distance"] ["jump"] [[1; -2]] [[3]]
           {| actions := ["jump"]; frontNeuronSet := [[1; -2]];
              backNeuronSet := [[3]]; sensors := ["distance"; "height"] |}).
  - vm_compute. reflexivity.
  - unfold storable, in_int32. cbn [sensors actions frontNeuronSet backNeuronSet].
    repeat split; repeat constructor; try lia;
      apply (bool_decide_unpack _); vm_compute; exact I.
Defined.

(** C5, as stated, fails: a gene outside the 32-bit range is stored
    modulo [2^32], and a name with a zero byte is cut at that byte.  The
    net with the front gene [2^32] is loaded with the gene 0; the net
    with the sensor ["a\000b"] is not loaded at all. *)
Lemma LoadNet_Save_counterexample :
  NewNeuralNet ["s"] ["a"] [[2 ^ 32]] [[1]]
  = Ret {| actions := ["a"]; frontNeuronSet := [[2 ^ 32]];
           backNeuronSet := [[1]]; sensors := ["s"] |}
  /\ LoadNet (Save {| actions := ["a"]; frontNeuronSet := [[2 ^ 32]];
                      backNeuronSet := [[1]]; sensors := ["s"] |})
     = Ret {| actions := ["a"]; frontNeuronSet := [[0]];
              backNeuronSet := [[1]]; sensors := ["s"] |}
  /\ NewNeuralNet [String.String "a" (String.String "000" "b")] ["a"] [[1]] [[1]]
     = Ret {| actions := ["a"]; frontNeuronSet := [[1]];
              backNeuronSet := [[1]];
              sensors := [String.String "a" (String.String "000" "b")] |}
  /\ forall loaded,
       LoadNet (Save {| actions := ["a"]; frontNeuronSet := [[1]];
                        backNeuronSet := [[1]];
                        sensors := [String.String "a" (String.String "000" "b")] |})
       <> Ret loaded.
Proof.
  split; [vm_compute; reflexivity|]. split; [vm_compute; reflexivity|].
  split; [vm_compute; reflexivity|]. intros loaded. vm_compute. discriminate.
Qed.

(** * Further properties *)

(** ** [Equals] *)

Lemma Equals_from_spec (rest other : list Z) (i : nat) :
  length rest = (length other - i)%nat ->
  Equals_from i rest other = Ret (bool_decide (rest = drop i other)).
Proof.
  revert i. induction rest as [|value rest IH]; intros i Hlen.
  - cbn [Equals_from]. rewrite drop_ge by (simpl in Hlen; lia). done.
  - cbn [length] in Hlen.
    destruct (lookup_lt_is_Some_2 other i) as [g Hg]; [lia|].
    cbn [Equals_from]. unfold GetGene. rewrite Hg. cbn [mbind outcome_bind].
    rewrite (drop_S _ _ _ Hg).
    destruct (Z.eqb_spec value g) as [->|Hne].
    + rewrite IH by lia. f_equal. apply bool_decide_ext. split; congruence.
    + f_equal. symmetry. apply bool_decide_eq_false. congruence.
Qed.

(** X1.  [Equals] never panics: it returns [true] exactly when the two
    neurons have the same genes in the same order, and [false]
    otherwise, also when the sizes differ. *)
Theorem Equals_spec (neu other : neuron) :
  Equals neu other = Ret (bool_decide (neu = other)).
Proof.
  unfold Equals, GetSize.
  destruct (Nat.eqb_spec (length neu) (length other)) as [Hlen|Hlen]; cbn [negb].
  - rewrite Equals_from_spec by lia. done.
  - f_equal. symmetry. apply bool_decide_eq_false. congruence.
Qed.

(** ** What [Marshal] keeps of a neuron *)

Lemma word_gene_gene_word_int32 gene : word_gene (gene_word gene) = int32 gene.
Proof.
  rewrite gene_word_mod. unfold word_gene, int32.
  change (2 ^ 31) with 2147483648. change (2 ^ 32) with 4294967296.
  destruct (Z.leb_spec 2147483648 (gene mod 4294967296));
    Z.div_mod_to_equations; lia.
Qed.

Lemma genes_of_Marshal_body_take (neu : list Z) (k : nat) :
  (k <= length neu)%nat ->
  genes_of (flat_map (fun gene => PutUint32 (gene_word gene)) neu) k
  = take k (int32 <$> neu).
Proof.
  revert k. induction neu as [|gene neu IH]; intros [|k] Hk; try done.
  { simpl in Hk. lia. }
  cbn [flat_map genes_of fmap list_fmap firstn].
  rewrite Uint32_PutUint32 by apply gene_word_range.
  cbn [default from_option id]. rewrite word_gene_gene_word_int32.
  change (drop 4 (PutUint32 (gene_word gene) ++ ?l)) with l.
  rewrite IH by (simpl in Hk; lia). done.
Qed.

(** X2.  Decoding the marshalled bytes of any neuron succeeds; what comes
    back is the neuron with every gene wrapped into 32 bits and, when
    there are [2^16] genes or more, cut to the gene count modulo [2^16]. *)
Theorem neuronFromBytes_Marshal_any (neu : neuron) :
  neuronFromBytes (Marshal neu)
  = Ret (take (Z.to_nat (uint16 (Z.of_nat (GetSize neu)))) (int32 <$> neu)).
Proof.
  unfold GetSize.
  assert (Hrange : 0 <= uint16 (Z.of_nat (length neu)) < 2 ^ 16)
    by (apply Z.mod_pos_bound; lia).
  assert (Hle : uint16 (Z.of_nat (length neu)) <= Z.of_nat (length neu))
    by (apply Z.mod_le; lia).
  assert (Hcount : Uint16 (Marshal neu) = Some (uint16 (Z.of_nat (length neu))))
    by (unfold Marshal, GetSize; by apply Uint16_PutUint16).
  rewrite (neuronFromBytes_Ret _ _ Hcount).
  2:{ rewrite Marshal_length. unfold GetSize. lia. }
  unfold Marshal. change (drop 2 (PutUint16 ?v ++ ?l)) with l.
  rewrite genes_of_Marshal_body_take by lia. done.
Qed.

(** X3.  On neurons with genes in 32-bit range and fewer than [2^16]
    genes the two encodings are injective: neurons with the same
    marshalled bytes, or with the same text, are [Equals]. *)
Theorem encodings_injective (neu other : neuron) :
  Forall in_int32 neu -> Z.of_nat (length neu) < 2 ^ 16 ->
  Forall in_int32 other -> Z.of_nat (length other) < 2 ^ 16 ->
  Marshal neu = Marshal other \/ String neu = String other ->
  Equals neu other = Ret true.
Proof.
  intros Hn Hnl Ho Hol Hsame.
  assert (Heq : neu = other); [|rewrite Heq; apply Equals_refl].
  assert (Hbytes : neuronFromBytes (Marshal neu) = Ret neu)
    by (by apply neuronFromBytes_Marshal).
  assert (Htext : NewNeuron_string (String neu) = Ret neu).
  { unfold NewNeuron_string, String.
    rewrite take_ge by (rewrite Marshal_length; lia).
    rewrite DecodeString_EncodeToString by apply Marshal_bytes. done. }
  destruct Hsame as [Hsame|Hsame].
  - rewrite Hsame, neuronFromBytes_Marshal in Hbytes by done. congruence.
  - rewrite Hsame in Htext. unfold NewNeuron_string, String in Htext.
    rewrite take_ge in Htext by (rewrite Marshal_length; lia).
    rewrite DecodeString_EncodeToString in Htext by apply Marshal_bytes.
    rewrite neuronFromBytes_Marshal in Htext by done. congruence.
Qed.

Lemma encodings_injective_witness : Equals [7; -3] [7; -3] = Ret true.
Proof.
  apply (encodings_injective [7; -3] [7; -3]).
  - repeat (apply Forall_cons_2; [unfold in_int32; lia|]). apply Forall_nil_2.
  - simpl. lia.
  - repeat (apply Forall_cons_2; [unfold in_int32; lia|]). apply Forall_nil_2.
  - simpl. lia.
  - left. reflexivity.
Defined.

(** ** What [neuronFromBytes] returns *)

Lemma Uint16_bytes (b0 b1 : Z) (rest : list Z) :
  is_byte b0 -> is_byte b1 -> Uint16 (b0 :: b1 :: rest) = Some (b0 * 2 ^ 8 + b1).
Proof.
  unfold is_byte. intros H0 H1. cbn [Uint16].
  rewrite lor_shiftl_add by lia. f_equal. lia.
Qed.

Lemma Uint32_bytes (b0 b1 b2 b3 : Z) (rest : list Z) :
  is_byte b0 -> is_byte b1 -> is_byte b2 -> is_byte b3 ->
  Uint32 (b0 :: b1 :: b2 :: b3 :: rest)
  = Some (b0 * 2 ^ 24 + b1 * 2 ^ 16 + b2 * 2 ^ 8 + b3).
Proof.
  unfold is_byte. intros H0 H1 H2 H3. cbn [Uint32].
  rewrite (lor_shiftl_add _ _ 8) by lia.
  rewrite (lor_shiftl_add _ _ 16) by lia.
  rewrite (lor_shiftl_add _ _ 24) by lia. f_equal. lia.
Qed.

Lemma word_gene_range (w : Z) : 0 <= w < 2 ^ 32 -> in_int32 (word_gene w).
Proof.
  unfold in_int32, word_gene. intros Hw.
  destruct (Z.leb_spec 2147483648 w); lia.
Qed.

Lemma gene_word_word_gene (w : Z) : 0 <= w < 2 ^ 32 -> gene_word (word_gene w) = w.
Proof.
  intros Hw. rewrite gene_word_mod. unfold word_gene.
  change (2 ^ 32) with 4294967296 in *.
  destruct (Z.leb_spec 2147483648 w); Z.div_mod_to_equations; lia.
Qed.

Lemma PutUint32_bytes (b0 b1 b2 b3 : Z) :
  is_byte b0 -> is_byte b1 -> is_byte b2 -> is_byte b3 ->
  PutUint32 (b0 * 2 ^ 24 + b1 * 2 ^ 16 + b2 * 2 ^ 8 + b3) = [b0; b1; b2; b3].
Proof.
  unfold is_byte, PutUint32, byte. intros H0 H1 H2 H3.
  rewrite !Z.shiftr_div_pow2 by lia.
  change (2 ^ 8) with 256. change (2 ^ 16) with 65536. change (2 ^ 24) with 16777216.
  repeat f_equal; Z.div_mod_to_equations; lia.
Qed.

Lemma PutUint16_bytes (b0 b1 : Z) :
  is_byte b0 -> is_byte b1 -> PutUint16 (b0 * 2 ^ 8 + b1) = [b0; b1].
Proof.
  unfold is_byte, PutUint16, byte. intros H0 H1.
  rewrite !Z.shiftr_div_pow2 by lia. change (2 ^ 8) with 256.
  repeat f_equal; Z.div_mod_to_equations; lia.
Qed.

Lemma genes_of_bytes (body : list Z) (n : nat) :
  Forall is_byte body -> (4 * n <= length body)%nat ->
  Forall in_int32 (genes_of body n)
  /\ flat_map (fun gene => PutUint32 (gene_word gene)) (genes_of body n)
     = take (4 * n) body.
Proof.
  revert body. induction n as [|n IH]; intros body Hbytes Hlen.
  - split; [constructor|]. done.
  - destruct body as [|b0 [|b1 [|b2 [|b3 body]]]]; simpl in Hlen; try lia.
    apply Forall_cons in Hbytes as [H0 Hbytes].
    apply Forall_cons in Hbytes as [H1 Hbytes].
    apply Forall_cons in Hbytes as [H2 Hbytes].
    apply Forall_cons in Hbytes as [H3 Hbytes].
    destruct (IH body Hbytes ltac:(lia)) as [IHr IHb].
    cbn [genes_of]. rewrite Uint32_bytes by done.
    cbn [default from_option id].
    change (drop 4 (b0 :: b1 :: b2 :: b3 :: body)) with body.
    assert (Hw : 0 <= b0 * 2 ^ 24 + b1 * 2 ^ 16 + b2 * 2 ^ 8 + b3 < 2 ^ 32)
      by (unfold is_byte in *; lia).
    split.
    + constructor; [by apply word_gene_range | done].
    + cbn [flat_map]. rewrite gene_word_word_gene, PutUint32_bytes, IHb by done.
      replace (4 * S n)%nat with (S (S (S (S (4 * n))))) by lia. done.
Qed.

(** X4.  Whatever sequence of bytes [neuronFromBytes] decodes, a neuron
    it returns has exactly the declared number of genes, each within
    32-bit two's-complement range, and the sequence was long enough to
    hold them. *)
Theorem neuronFromBytes_Ret_inv (input : list Z) (neu : neuron) :
  Forall is_byte input ->
  neuronFromBytes input = Ret neu ->
  exists declared_size,
    Uint16 input = Some declared_size
    /\ 0 <= declared_size < 2 ^ 16
    /\ GetSize neu = Z.to_nat declared_size
    /\ (2 + 4 * Z.to_nat declared_size <= length input)%nat
    /\ Forall in_int32 neu.
Proof.
  intros Hbytes Hret.
  destruct (Uint16 input) as [size|] eqn:Hsize.
  2:{ unfold neuronFromBytes in Hret. by rewrite Hsize in Hret. }
  pose proof (Uint16_Some_length _ _ Hsize) as H2.
  exists size. split; [done|].
  assert (Hrange : 0 <= size < 2 ^ 16).
  { destruct input as [|b0 [|b1 input]]; simpl in H2; try lia.
    apply Forall_cons in Hbytes as [H0 Hbytes].
    apply Forall_cons in Hbytes as [H1 _].
    rewrite Uint16_bytes in Hsize by done. unfold is_byte in *.
    injection Hsize as <-. lia. }
  split; [done|].
  destruct (decide (2 + 4 * Z.to_nat size <= length input)%nat) as [Hlen|Hlen].
  - rewrite (neuronFromBytes_Ret _ _ Hsize Hlen) in Hret. injection Hret as <-.
    split; [apply genes_of_length|]. split; [done|].
    apply genes_of_bytes; [by apply Forall_drop | rewrite length_drop; lia].
  - exfalso. unfold neuronFromBytes, processBytes in Hret. rewrite Hsize in Hret.
    rewrite receive_processBytes_short in Hret; [done| |];
      rewrite length_drop; lia.
Qed.

Lemma neuronFromBytes_Ret_inv_witness :
  exists declared_size,
    Uint16 [0; 1; 255; 255; 255; 254] = Some declared_size
    /\ 0 <= declared_size < 2 ^ 16
    /\ GetSize [-2] = Z.to_nat declared_size
    /\ (2 + 4 * Z.to_nat declared_size <= length [0; 1; 255; 255; 255; 254])%nat
    /\ Forall in_int32 [-2].
Proof.
  apply (neuronFromBytes_Ret_inv [0; 1; 255; 255; 255; 254] [-2]).
  - repeat (apply Forall_cons_2; [unfold is_byte; lia|]). apply Forall_nil_2.
  - reflexivity.
Defined.

Lemma neuronFromBytes_shape (input : list Z) (neu : neuron) :
  Forall is_byte input ->
  neuronFromBytes input = Ret neu ->
  exists b0 b1 body,
    input = b0 :: b1 :: body
    /\ 0 <= b0 * 2 ^ 8 + b1 < 2 ^ 16
    /\ (4 * Z.to_nat (b0 * 2 ^ 8 + b1) <= length body)%nat
    /\ neu = genes_of body (Z.to_nat (b0 * 2 ^ 8 + b1)).
Proof.
  intros Hbytes Hret.
  destruct input as [|b0 [|b1 body]]; try done.
  pose proof Hbytes as Hb.
  apply Forall_cons in Hb as [H0 Hb]. apply Forall_cons in Hb as [H1 _].
  pose proof (Uint16_bytes b0 b1 body H0 H1) as Hsize.
  exists b0, b1, body. split; [done|].
  split; [unfold is_byte in *; lia|].
  destruct (decide (4 * Z.to_nat (b0 * 2 ^ 8 + b1) <= length body)%nat) as [Hlen|Hlen].
  - rewrite (neuronFromBytes_Ret _ _ Hsize) in Hret by (simpl; lia).
    injection Hret as <-. done.
  - exfalso. unfold neuronFromBytes, processBytes in Hret. rewrite Hsize in Hret.
    change (drop 2 (b0 :: b1 :: body)) with body in Hret.
    rewrite receive_processBytes_short in Hret; [done|lia|lia].
Qed.

(** X5.  Marshalling a decoded neuron gives back the bytes it was decoded
    from, up to the end of the last gene: on sequences of bytes the wire
    format has one encoding per neuron. *)
Theorem Marshal_neuronFromBytes (input : list Z) (neu : neuron) :
  Forall is_byte input ->
  neuronFromBytes input = Ret neu ->
  Marshal neu = take (2 + 4 * GetSize neu) input.
Proof.
  intros Hbytes Hret.
  destruct (neuronFromBytes_shape input neu Hbytes Hret)
    as (b0 & b1 & body & -> & Hn & Hlen & ->).
  apply Forall_cons in Hbytes as [H0 Hbytes].
  apply Forall_cons in Hbytes as [H1 Hbytes].
  unfold Marshal, GetSize. rewrite genes_of_length.
  destruct (genes_of_bytes body (Z.to_nat (b0 * 2 ^ 8 + b1)) Hbytes Hlen) as [_ Hb].
  rewrite Hb. unfold uint16.
  rewrite Z2Nat.id, Z.mod_small, PutUint16_bytes by (done || lia).
  done.
Qed.

Lemma Marshal_neuronFromBytes_witness :
  Marshal [-2] = take (2 + 4 * GetSize [-2]) [0; 1; 255; 255; 255; 254; 9].
Proof.
  apply (Marshal_neuronFromBytes [0; 1; 255; 255; 255; 254; 9] [-2]).
  - repeat (apply Forall_cons_2; [unfold is_byte; lia|]). apply Forall_nil_2.
  - reflexivity.
Defined.

(** ** The text of a neuron *)

Lemma EncodedLen_step (n : nat) : EncodedLen (5 + n) = (8 + EncodedLen n)%nat.
Proof.
  unfold EncodedLen.
  replace (5 + n)%nat with (n + 1 * 5)%nat by lia.
  rewrite Nat.div_add, Nat.Div0.mod_add by lia. lia.
Qed.

Lemma Encode_length (src : list Z) : length (Encode src) = EncodedLen (length src).
Proof.
  induction src as [|src Hlen|s0 s1 s2 s3 s4 src IH] using list_ind5.
  - reflexivity.
  - destruct src as [|a [|b [|c [|d [|e l]]]]]; simpl in Hlen; try lia; reflexivity.
  - change (Encode (s0 :: s1 :: s2 :: s3 :: s4 :: src))
      with ((encode_digit <$> quantum [s0; s1; s2; s3; s4]) ++ Encode src).
    rewrite length_app, IH.
    change (length (s0 :: s1 :: s2 :: s3 :: s4 :: src)) with (5 + length src)%nat.
    rewrite EncodedLen_step. reflexivity.
Qed.

Lemma encode_digit_in_alphabet (d : Z) :
  encode_digit d ∈ list_ascii_of_string encodeHex.
Proof.
  rewrite encode_digit_low5. pose proof (low5_range d) as Hd.
  revert Hd. generalize (low5 d). intros v Hv.
  assert (Hin : v ∈ seqZ 0 32) by (apply elem_of_seqZ; lia).
  clear Hv. revert v Hin. apply Forall_forall.
  apply (bool_decide_unpack _). vm_compute. exact I.
Qed.

Lemma string_of_list_ascii_length (cs : list ascii) :
  String.length (string_of_list_ascii cs) = length cs.
Proof. induction cs as [|c cs IH]; cbn; [done|]. by rewrite IH. Qed.

(** X6.  The text of a neuron has [(8*(2 + 4*size) + 4) / 5] characters,
    all of them among the 32 characters [0-9A-V] of the base32hex
    alphabet: there is no padding and no white space. *)
Theorem String_text (neu : neuron) :
  String.length (String neu) = ((8 * (2 + 4 * GetSize neu) + 4) / 5)%nat
  /\ Forall (fun c => c ∈ list_ascii_of_string "0123456789ABCDEFGHIJKLMNOPQRSTUV")
       (list_ascii_of_string (String neu)).
Proof.
  unfold String, EncodeToString.
  rewrite take_ge by (rewrite Marshal_length; lia).
  rewrite string_of_list_ascii_length, Encode_length, Marshal_length.
  rewrite list_ascii_of_string_of_list_ascii. split.
  - unfold EncodedLen. set (n := (2 + 4 * GetSize neu)%nat).
    pose proof (Nat.div_mod_eq n 5) as Hn.
    rewrite Hn at 3.
    replace (8 * (5 * (n / 5) + n mod 5) + 4)%nat
      with ((n mod 5 * 8 + 4) + (n / 5 * 8) * 5)%nat by lia.
    rewrite Nat.div_add by lia. lia.
  - eapply Forall_impl; [apply Encode_alphabet|].
    intros c [d ->]. apply encode_digit_in_alphabet.
Qed.

(** ** Decoding text *)

Lemma list_ascii_of_string_app (a b : string) :
  list_ascii_of_string (a +:+ b) = list_ascii_of_string a ++ list_ascii_of_string b.
Proof.
  induction a as [|c a IH]; [done|].
  change (String.String c a +:+ b) with (String.String c (a +:+ b)).
  cbn [list_ascii_of_string app]. by rewrite IH.
Qed.

Lemma TrimSpace_around (before after : string) (cs : list ascii) :
  Forall (fun c => isSpace c = true) (list_ascii_of_string before) ->
  Forall (fun c => isSpace c = true) (list_ascii_of_string after) ->
  Forall (fun c => exists d, c = encode_digit d) cs ->
  TrimSpace (before +:+ string_of_list_ascii cs +:+ after) = string_of_list_ascii cs.
Proof.
  intros Hb Ha Hcs. unfold TrimSpace.
  rewrite !list_ascii_of_string_app, list_ascii_of_string_of_list_ascii.
  by rewrite TrimSpace_text.
Qed.

(** X7.  White space around the text of a neuron is ignored: with genes
    in 32-bit range and fewer than [2^16] genes, the text between any
    blanks, tabs and line ends decodes to the neuron. *)
Theorem NewNeuron_string_spaces (neu : neuron) (before after : string) :
  Forall in_int32 neu -> Z.of_nat (length neu) < 2 ^ 16 ->
  Forall (fun c => isSpace c = true) (list_ascii_of_string before) ->
  Forall (fun c => isSpace c = true) (list_ascii_of_string after) ->
  NewNeuron_string (before +:+ String neu +:+ after) = Ret neu.
Proof.
  intros Hgenes Hlen Hb Ha. unfold NewNeuron_string, String, EncodeToString.
  rewrite take_ge by (rewrite Marshal_length; lia).
  rewrite TrimSpace_around by (done || apply Encode_alphabet).
  unfold DecodeString. rewrite list_ascii_of_string_of_list_ascii.
  rewrite stripNewlines_alphabet by apply Encode_alphabet.
  rewrite decode_Encode by apply Marshal_bytes.
  by apply neuronFromBytes_Marshal.
Qed.

Lemma NewNeuron_string_spaces_witness :
  NewNeuron_string ("  " +:+ String [0; 256] +:+ " ") = Ret [0; 256].
Proof.
  apply (NewNeuron_string_spaces [0; 256] "  " " ").
  - repeat (apply Forall_cons_2; [unfold in_int32; lia|]). apply Forall_nil_2.
  - simpl. lia.
  - repeat (apply Forall_cons_2; [reflexivity|]). apply Forall_nil_2.
  - repeat (apply Forall_cons_2; [reflexivity|]). apply Forall_nil_2.
Defined.

Lemma index_from_spec (alphabet : string) (i : Z) (c : ascii) :
  ((c ∉ list_ascii_of_string alphabet) /\ index_from i alphabet c = 255)
  \/ ((c ∈ list_ascii_of_string alphabet)
      /\ i <= index_from i alphabet c < i + Z.of_nat (String.length alphabet)).
Proof.
  revert i. induction alphabet as [|a alphabet IH]; intros i.
  - left. split; [apply not_elem_of_nil|done].
  - cbn [index_from list_ascii_of_string String.length].
    destruct (Ascii.eqb_spec a c) as [->|Hne].
    + right. split; [left|lia].
    + destruct (IH (i + 1)) as [[Hnot Hidx]|[Hin Hidx]].
      * left. split; [|done]. intros [?|?]%elem_of_cons; congruence.
      * right. split; [by right|lia].
Qed.

(** A character is refused by [decodeMap] exactly when it is not one of
    the 32 characters of the alphabet. *)
Lemma decodeMap_255 (c : ascii) :
  decodeMap c = 255 <-> c ∉ list_ascii_of_string encodeHex.
Proof.
  unfold decodeMap. destruct (index_from_spec encodeHex 0 c) as [[Hnot Hidx]|[Hin Hidx]].
  - tauto.
  - change (Z.of_nat (String.length encodeHex)) with 32 in Hidx. split; [lia|done].
Qed.

Lemma digits_cases (cs : list ascii) :
  digits cs = Fail CorruptInputError \/ exists ds, digits cs = Ret ds.
Proof.
  induction cs as [|c cs IH]; [right; by exists []|].
  cbn [digits]. destruct (decodeMap c =? 255); [by left|].
  destruct IH as [->|[ds ->]]; [by left|right; eauto].
Qed.

Lemma digits_corrupt (cs : list ascii) :
  Exists (fun c => decodeMap c = 255) cs -> digits cs = Fail CorruptInputError.
Proof.
  induction 1 as [c cs Hc|c cs _ IH]; cbn [digits].
  - by rewrite Hc.
  - destruct (decodeMap c =? 255); [done|]. by rewrite IH.
Qed.

Lemma decode_corrupt (cs : list ascii) :
  Exists (fun c => decodeMap c = 255) cs -> decode cs = Fail CorruptInputError.
Proof.
  induction cs as [cs IH] using (induction_ltof1 _ (@length ascii)).
  unfold ltof in IH. intros Hbad.
  destruct (decide (length cs < 8)%nat) as [Hshort|Hlong].
  - rewrite decode_short.
    + by rewrite digits_corrupt.
    + split; [|done]. destruct cs; [by apply Exists_nil in Hbad|simpl; lia].
  - destruct cs as [|c0 [|c1 [|c2 [|c3 [|c4 [|c5 [|c6 [|c7 rest]]]]]]]];
      simpl in Hlong; try lia.
    change (c0 :: c1 :: c2 :: c3 :: c4 :: c5 :: c6 :: c7 :: rest)
      with ([c0; c1; c2; c3; c4; c5; c6; c7] ++ rest) in Hbad.
    cbn [decode]. apply Exists_app in Hbad as [Hbad|Hbad].
    + by rewrite digits_corrupt.
    + destruct (digits_cases [c0; c1; c2; c3; c4; c5; c6; c7]) as [->|[ds ->]];
        [done|].
      cbn [mbind outcome_bind]. rewrite IH; [done| simpl; lia | done].
Qed.

(** *** White space beyond ASCII *)

(** No sequence of a white-space code point begins or ends with the
    sequence of another one. *)
Lemma IsSpace_parts :
  Forall (fun p => (0 < length p <= 3)%nat
                   /\ Forall (fun k => IsSpace (take k p) = false
                                       /\ IsSpace (rev (take k (rev p))) = false)
                             (seq 1 (length p - 1)))
         ((fun r => ascii_of_byte <$> EncodeRune r) <$> White_Space).
Proof. apply (bool_decide_unpack _). vm_compute. exact I. Qed.

Lemma IsSpace_elem_of (p : list ascii) :
  IsSpace p = true
  <-> p ∈ (fun r => ascii_of_byte <$> EncodeRune r) <$> White_Space.
Proof. apply bool_decide_eq_true. Qed.

Lemma TrimLeft_sequence (p cs : list ascii) :
  IsSpace p = true -> TrimLeft (p ++ cs) = TrimLeft cs.
Proof.
  intros Hp. pose proof Hp as Hin. apply IsSpace_elem_of in Hin.
  destruct (proj1 (Forall_forall _ _) IsSpace_parts p Hin) as [Hlen Hparts].
  unfold TrimLeft.
  destruct p as [|c0 [|c1 [|c2 [|c3 p]]]]; cbn [length] in Hlen; try lia.
  - cbn [app trim]. by rewrite Hp.
  - cbn [length Nat.sub seq] in Hparts. apply Forall_cons in Hparts as [[H1 _] _].
    cbn [firstn] in H1. cbn [app trim]. by rewrite H1, Hp.
  - cbn [length Nat.sub seq] in Hparts. apply Forall_cons in Hparts as [[H1 _] Hparts].
    apply Forall_cons in Hparts as [[H2 _] _].
    cbn [firstn] in H1, H2. cbn [app trim]. by rewrite H1, H2, Hp.
Qed.

Lemma TrimRight_sequence (cs p : list ascii) :
  IsSpace p = true -> TrimRight (cs ++ p) = TrimRight cs.
Proof.
  intros Hp. pose proof Hp as Hin. apply IsSpace_elem_of in Hin.
  destruct (proj1 (Forall_forall _ _) IsSpace_parts p Hin) as [Hlen Hparts].
  unfold TrimRight. rewrite rev_app_distr. f_equal.
  destruct p as [|c0 [|c1 [|c2 [|c3 p]]]]; cbn [length] in Hlen; try lia.
  - cbn [rev app trim]. by rewrite Hp.
  - cbn [length Nat.sub seq] in Hparts. apply Forall_cons in Hparts as [[_ H1] _].
    cbn [firstn rev app] in H1. cbn [rev app trim]. by rewrite H1, Hp.
  - cbn [length Nat.sub seq] in Hparts. apply Forall_cons in Hparts as [[_ H1] Hparts].
    apply Forall_cons in Hparts as [[_ H2] _].
    cbn [firstn rev app] in H1, H2. cbn [rev app trim]. by rewrite H1, H2, Hp.
Qed.

Lemma list_ascii_of_utf8 (rs : list Z) :
  list_ascii_of_string (utf8 rs)
  = flat_map (fun r => ascii_of_byte <$> EncodeRune r) rs.
Proof. apply list_ascii_of_string_of_list_ascii. Qed.

Lemma TrimLeft_utf8 (rs : list Z) (cs : list ascii) :
  Forall (fun r => r ∈ White_Space) rs ->
  TrimLeft (flat_map (fun r => ascii_of_byte <$> EncodeRune r) rs ++ cs) = TrimLeft cs.
Proof.
  induction 1 as [|r rs Hr _ IH]; [done|].
  cbn [flat_map]. rewrite <- app_assoc, TrimLeft_sequence; [done|].
  apply IsSpace_elem_of, list_elem_of_fmap. eauto.
Qed.

Lemma TrimRight_utf8 (cs : list ascii) (rs : list Z) :
  Forall (fun r => r ∈ White_Space) rs ->
  TrimRight (cs ++ flat_map (fun r => ascii_of_byte <$> EncodeRune r) rs) = TrimRight cs.
Proof.
  induction rs as [|r rs IH] using rev_ind; intros Hrs.
  - by rewrite app_nil_r.
  - apply Forall_app in Hrs as [Hrs Hr]. apply Forall_cons in Hr as [Hr _].
    rewrite flat_map_app. cbn [flat_map]. rewrite app_nil_r, app_assoc.
    rewrite TrimRight_sequence; [by apply IH|].
    apply IsSpace_elem_of, list_elem_of_fmap. eauto.
Qed.

(** X25.  White space is what Unicode says it is: with genes in 32-bit
    range and fewer than [2^16] genes, the text of a neuron between any
    white-space code points, a no-break space or an ideographic space as
    well as a blank, decodes to the neuron. *)
Theorem NewNeuron_string_white_space (neu : neuron) (before after : list Z) :
  Forall in_int32 neu -> Z.of_nat (length neu) < 2 ^ 16 ->
  Forall (fun r => r ∈ White_Space) before ->
  Forall (fun r => r ∈ White_Space) after ->
  NewNeuron_string (utf8 before +:+ String neu +:+ utf8 after) = Ret neu.
Proof.
  intros Hgenes Hlen Hb Ha. unfold NewNeuron_string, String, EncodeToString.
  rewrite take_ge by (rewrite Marshal_length; lia).
  assert (Htrim : TrimSpace (utf8 before
                             +:+ string_of_list_ascii (Encode (Marshal neu))
                             +:+ utf8 after)
                  = string_of_list_ascii (Encode (Marshal neu))).
  { unfold TrimSpace.
    rewrite !list_ascii_of_string_app, list_ascii_of_string_of_list_ascii.
    rewrite !list_ascii_of_utf8, TrimLeft_utf8 by done.
    pose proof (alphabet_text _ (Encode_alphabet (Marshal neu))) as Htext.
    destruct (Encode (Marshal neu)) as [|c cs] eqn:HE.
    - rewrite app_nil_l.
      rewrite <- (app_nil_r (flat_map _ after)), TrimLeft_utf8 by done. done.
    - rewrite <- HE in *. f_equal.
      replace (TrimLeft (Encode (Marshal neu) ++ flat_map (fun r => ascii_of_byte <$> EncodeRune r) after))
        with (Encode (Marshal neu) ++ flat_map (fun r => ascii_of_byte <$> EncodeRune r) after).
      + rewrite TrimRight_utf8 by done. by apply TrimRight_text.
      + symmetry. rewrite HE in *. apply Forall_cons in Htext as [[Hc Hsp] _].
        unfold TrimLeft. cbn [app]. apply trim_ascii; [apply IsSpace_one| | |done|done].
        * intros c0 c1 Hc0. apply (IsSpace_ascii c0 [] [c1] Hc0). simpl. lia.
        * intros c0 c1 c2 Hc0. apply (IsSpace_ascii c0 [] [c1; c2] Hc0). simpl. lia. }
  rewrite Htrim. unfold DecodeString. rewrite list_ascii_of_string_of_list_ascii.
  rewrite stripNewlines_alphabet by apply Encode_alphabet.
  rewrite decode_Encode by apply Marshal_bytes.
  by apply neuronFromBytes_Marshal.
Qed.

Lemma NewNeuron_string_white_space_witness :
  NewNeuron_string (utf8 [160; 32] +:+ String [0; 256] +:+ utf8 [12288; 10; 8195])
  = Ret [0; 256].
Proof.
  apply (NewNeuron_string_white_space [0; 256] [160; 32] [12288; 10; 8195]).
  - repeat (apply Forall_cons_2; [unfold in_int32; lia|]). apply Forall_nil_2.
  - simpl. lia.
  - apply (bool_decide_unpack _). vm_compute. exact I.
  - apply (bool_decide_unpack _). vm_compute. exact I.
Defined.

(** X8.  Text with a character outside the base32hex alphabet is refused:
    when such a character is left after the white space at both ends is
    trimmed and the line ends are dropped, [NewNeuron] returns the
    decoder's error and no neuron.  The text is to hold no byte [0xFF]:
    that is the value of [byte(NoPadding)], which the decoder compares
    with a character where padding may stand. *)
Theorem NewNeuron_string_corrupt (value : string) :
  Forall (fun c => c <> "255"%char) (list_ascii_of_string value) ->
  Exists (fun c => c ∉ list_ascii_of_string "0123456789ABCDEFGHIJKLMNOPQRSTUV")
    (stripNewlines (list_ascii_of_string (TrimSpace value))) ->
  NewNeuron_string value = Fail CorruptInputError.
Proof.
  intros _ Hbad. unfold NewNeuron_string, DecodeString.
  rewrite decode_corrupt; [done|].
  eapply Exists_impl; [exact Hbad|]. intros c Hc. by apply decodeMap_255.
Qed.

Lemma NewNeuron_string_corrupt_witness :
  NewNeuron_string (" 0010" +:+ utf8 [160] +:+ "000000000080") = Fail CorruptInputError.
Proof.
  apply (NewNeuron_string_corrupt (" 0010" +:+ utf8 [160] +:+ "000000000080")).
  - apply (bool_decide_unpack _). vm_compute. exact I.
  - apply (bool_decide_unpack _). vm_compute. exact I.
Defined.

(** ** Decoding from a stream *)

Lemma read_into_zeros (n : nat) (input : list Z) :
  input <> [] ->
  read_into (replicate n 0) input
  = Ret (take n input ++ replicate (n - length input) 0, drop n input).
Proof.
  intros Hne. unfold read_into, Read. destruct input as [|b input]; [done|].
  cbn [mbind outcome_bind fst snd]. rewrite length_replicate. f_equal. f_equal.
  unfold copy. rewrite length_replicate, take_take, Nat.min_id, length_take.
  rewrite drop_replicate. f_equal. f_equal. lia.
Qed.

(** [readFile] on a stream with at least one byte after the two size
    bytes: the genes are read from the bytes that follow, zeros standing
    for the bytes the stream does not have. *)
Lemma readFile_stream (input : list Z) (size : Z) :
  Uint16 input = Some size ->
  (2 < length input)%nat ->
  readFile input
  = Ret (genes_of (drop 2 input
                   ++ replicate (4 * Z.to_nat size - (length input - 2)) 0)
                  (Z.to_nat size),
         drop (2 + 4 * Z.to_nat size) input).
Proof.
  intros Hsize Hlen.
  destruct input as [|b0 [|b1 rest]]; try done. cbn [length] in Hlen.
  unfold readFile.
  change (b0 :: b1 :: rest) with ([b0; b1] ++ rest) at 1.
  rewrite read_into_exact by done. cbn [mbind outcome_bind fst snd].
  change (Uint16 [b0; b1]) with (Uint16 (b0 :: b1 :: rest)). rewrite Hsize.
  set (n := Z.to_nat size).
  assert (Hdata : copy (replicate (2 + 4 * n) 0) [b0; b1]
                  = [b0; b1] ++ replicate (4 * n) 0).
  { unfold copy. rewrite length_replicate.
    change (2 + 4 * n)%nat with (S (S (4 * n))).
    cbn [firstn skipn length replicate app]. by rewrite take_nil. }
  rewrite Hdata. change (drop 2 ([b0; b1] ++ ?l)) with l.
  change (take 2 ([b0; b1] ++ ?l)) with [b0; b1].
  rewrite read_into_zeros by (destruct rest; [simpl in Hlen; lia | done]).
  cbn [mbind outcome_bind fst snd].
  rewrite (neuronFromBytes_Ret _ size).
  - cbn [mbind outcome_bind]. fold n.
    change (drop 2 ([b0; b1] ++ ?l)) with l.
    change (drop 2 (b0 :: b1 :: rest)) with rest.
    change (drop (2 + 4 * n) (b0 :: b1 :: rest)) with (drop (4 * n) rest).
    replace (length (b0 :: b1 :: rest) - 2)%nat with (length rest) by (simpl; lia).
    f_equal. f_equal.
    destruct (decide (4 * n <= length rest)%nat) as [Hfit|Hfit].
    + replace (4 * n - length rest)%nat with 0%nat by lia.
      cbn [replicate]. rewrite !app_nil_r.
      rewrite <- (take_drop (4 * n) rest) at 2.
      rewrite genes_of_app by (rewrite length_take; lia). done.
    + rewrite take_ge by lia. done.
  - exact Hsize.
  - fold n. cbn [length app]. rewrite length_app, length_take, length_replicate. lia.
Qed.

(** X9.  Reading a neuron from a stream that holds the [2 + 4*size]
    bytes of the neuron, and at least one byte after the two size bytes,
    consumes exactly these bytes: the neuron is the one
    [neuronFromBytes] decodes from the same bytes, and the stream is left
    at the byte after the last gene.  (An empty neuron whose size bytes
    end the stream is left out: how a read of no bytes at the end of a
    stream is answered depends on the reader.) *)
Theorem readFile_consumes (input : list Z) (declared_size : Z) :
  Uint16 input = Some declared_size ->
  (2 < length input)%nat ->
  (2 + 4 * Z.to_nat declared_size <= length input)%nat ->
  exists neu,
    neuronFromBytes input = Ret neu
    /\ NewNeuron_Reader input = Ret (neu, drop (2 + 4 * Z.to_nat declared_size) input).
Proof.
  intros Hsize H2 Hlen. exists (genes_of (drop 2 input) (Z.to_nat declared_size)).
  split; [by apply neuronFromBytes_Ret|].
  unfold NewNeuron_Reader. rewrite (readFile_stream _ _ Hsize H2).
  replace (4 * Z.to_nat declared_size - (length input - 2))%nat with 0%nat by lia.
  cbn [replicate]. by rewrite app_nil_r.
Qed.

Lemma readFile_consumes_witness :
  exists neu,
    neuronFromBytes [0; 1; 255; 255; 255; 254; 7; 7] = Ret neu
    /\ NewNeuron_Reader [0; 1; 255; 255; 255; 254; 7; 7] = Ret (neu, [7; 7]).
Proof.
  apply (readFile_consumes [0; 1; 255; 255; 255; 254; 7; 7] 1).
  - reflexivity.
  - simpl. lia.
  - simpl. lia.
Defined.

(** X10.  A stream that ends inside the genes is not refused: the bytes
    it lacks are read as zeros, so that where [neuronFromBytes] on the
    same bytes returns an error, reading them from a stream returns a
    neuron of the declared size. *)
Theorem readFile_zero_padding (input : list Z) (declared_size : Z) :
  Uint16 input = Some declared_size ->
  (2 < length input < 2 + 4 * Z.to_nat declared_size)%nat ->
  neuronFromBytes input = Fail RuntimeError
  /\ exists neu,
       NewNeuron_Reader input = Ret (neu, [])
       /\ GetSize neu = Z.to_nat declared_size
       /\ neuronFromBytes
            (input ++ replicate (2 + 4 * Z.to_nat declared_size - length input) 0)
          = Ret neu.
Proof.
  intros Hsize [H2 Hlen]. split.
  { unfold neuronFromBytes, processBytes. rewrite Hsize.
    apply receive_processBytes_short; rewrite length_drop; lia. }
  eexists. unfold NewNeuron_Reader. rewrite (readFile_stream _ _ Hsize H2).
  rewrite (drop_ge input (2 + 4 * Z.to_nat declared_size)) by lia.
  split; [reflexivity|]. split; [apply genes_of_length|].
  rewrite (neuronFromBytes_Ret _ declared_size).
  - rewrite drop_app_le by lia.
    replace (2 + 4 * Z.to_nat declared_size - length input)%nat
      with (4 * Z.to_nat declared_size - (length input - 2))%nat by lia.
    done.
  - rewrite Uint16_app by lia. done.
  - rewrite length_app, length_replicate. lia.
Qed.

Lemma readFile_zero_padding_witness :
  neuronFromBytes [0; 2; 255; 255; 255; 255; 0; 0; 1] = Fail RuntimeError
  /\ exists neu,
       NewNeuron_Reader [0; 2; 255; 255; 255; 255; 0; 0; 1] = Ret (neu, [])
       /\ GetSize neu = 2%nat
       /\ neuronFromBytes ([0; 2; 255; 255; 255; 255; 0; 0; 1] ++ [0]) = Ret neu.
Proof.
  apply (readFile_zero_padding [0; 2; 255; 255; 255; 255; 0; 0; 1] 2).
  - reflexivity.
  - simpl. lia.
Defined.

(** ** Names and construction of a net *)

Lemma usort_ext (args other : list string) :
  (forall x, x ∈ args <-> x ∈ other) -> usort other = usort args.
Proof.
  intros Hsame. unfold usort. f_equal. f_equal. apply set_eq. intros x.
  rewrite !elem_of_list_to_set. by rewrite Hsame.
Qed.

(** X11.  [usort] returns the names it is given in ascending byte-wise
    order, each one once; the result depends only on which names occur in
    the argument, not on their order or on how often they are repeated. *)
Theorem usort_spec (args : list string) :
  Sorted (fun a b => String.leb a b = true) (usort args)
  /\ NoDup (usort args)
  /\ (forall x, x ∈ usort args <-> x ∈ args)
  /\ (forall other, (forall x, x ∈ args <-> x ∈ other) -> usort other = usort args).
Proof.
  split; [apply usort_Sorted|]. split; [apply usort_NoDup|].
  split; [apply usort_elem_of|]. apply usort_ext.
Qed.

Lemma usort_nil_iff (args : list string) : usort args = [] <-> args = [].
Proof.
  split; [|by intros ->].
  intros Hnil. destruct args as [|x args]; [done|].
  assert (Hin : x ∈ usort (x :: args)) by (apply usort_elem_of; left).
  rewrite Hnil in Hin. by apply elem_of_nil in Hin.
Qed.

(** X12.  On layers of neurons of this package, none of them nil,
    [NewNeuralNet] returns a net exactly when there is a sensor, there is
    an action, both layers have one neuron per distinct action, every
    front neuron has one gene per distinct sensor and every back neuron
    one gene per distinct action; the net then holds the sorted names and
    the layers as given.  In every other case it returns an error made by
    [fmt.Errorf] and no net. *)
Theorem NewNeuralNet_spec (sensors0 actions0 : list string)
    (front back : list (list Z)) :
  (sensors0 <> [] /\ actions0 <> []
   /\ length front = length (usort actions0)
   /\ length back = length (usort actions0)
   /\ Forall (fun neu => GetSize neu = length (usort sensors0)) front
   /\ Forall (fun neu => GetSize neu = length (usort actions0)) back ->
   NewNeuralNet sensors0 actions0 front back
   = Ret {| actions := usort actions0; frontNeuronSet := front;
            backNeuronSet := back; sensors := usort sensors0 |})
  /\ (~ (sensors0 <> [] /\ actions0 <> []
         /\ length front = length (usort actions0)
         /\ length back = length (usort actions0)
         /\ Forall (fun neu => GetSize neu = length (usort sensors0)) front
         /\ Forall (fun neu => GetSize neu = length (usort actions0)) back) ->
      exists msg, NewNeuralNet sensors0 actions0 front back = Fail (Errorf msg)).
Proof.
  unfold NewNeuralNet.
  destruct (Nat.eqb_spec (length (usort sensors0)) 0) as [Hs|Hs].
  { apply length_zero_iff_nil in Hs. apply (proj1 (usort_nil_iff _)) in Hs. split; [intros (? & ? & ? & ? & ? & ?); congruence|eauto]. }
  destruct (Nat.eqb_spec (length (usort actions0)) 0) as [Ha|Ha].
  { apply length_zero_iff_nil in Ha. apply (proj1 (usort_nil_iff _)) in Ha. split; [intros (? & ? & ? & ? & ? & ?); congruence|eauto]. }
  destruct (Nat.eqb_spec (length front) (length (usort actions0))) as [Hf|Hf];
    cbn [negb]; [|split; [intros (? & ? & ? & ? & ? & ?); congruence|eauto]].
  destruct (Nat.eqb_spec (length back) (length (usort actions0))) as [Hb|Hb];
    cbn [negb]; [|split; [intros (? & ? & ? & ? & ? & ?); congruence|eauto]].
  destruct (check_sizes (length (usort sensors0)) 0 front) as [[i size]|] eqn:Hfs.
  { split; [|eauto]. intros (_ & _ & _ & _ & Hfs' & _).
    apply (check_sizes_Forall _ 0) in Hfs'. congruence. }
  destruct (check_sizes (length (usort actions0)) 0 back) as [[i size]|] eqn:Hbs.
  { split; [|eauto]. intros (_ & _ & _ & _ & _ & Hbs').
    apply (check_sizes_Forall _ 0) in Hbs'. congruence. }
  split; [done|]. intros Hnot. exfalso. apply Hnot.
  apply check_sizes_Forall in Hfs, Hbs.
  repeat split; try done.
  - intros ->. by apply Hs.
  - intros ->. by apply Ha.
Qed.

(** X13.  The net constructed depends on the sensor and action names only
    as sets: giving the names in another order, or repeating some, gives
    the same result. *)
Theorem NewNeuralNet_names_as_sets (sensors0 sensors1 actions0 actions1 : list string)
    (front back : list (list Z)) :
  (forall x, x ∈ sensors0 <-> x ∈ sensors1) ->
  (forall x, x ∈ actions0 <-> x ∈ actions1) ->
  NewNeuralNet sensors0 actions0 front back
  = NewNeuralNet sensors1 actions1 front back.
Proof.
  intros Hs Ha. unfold NewNeuralNet.
  by rewrite (usort_ext _ _ Hs), (usort_ext _ _ Ha).
Qed.

Lemma NewNeuralNet_names_as_sets_witness :
  NewNeuralNet ["b"; "a"; "a"] ["x"] [[1; 2]] [[3]]
  = NewNeuralNet ["a"; "b"] ["x"; "x"] [[1; 2]] [[3]].
Proof.
  apply (NewNeuralNet_names_as_sets ["b"; "a"; "a"] ["a"; "b"] ["x"] ["x"; "x"]).
  - intros x. rewrite !elem_of_cons, !elem_of_nil. tauto.
  - intros x. rewrite !elem_of_cons, !elem_of_nil. tauto.
Defined.

Lemma check_sizes_first (expected k i : nat) (layer : list (list Z)) (neu : list Z) :
  layer !! i = Some neu ->
  GetSize neu <> expected ->
  Forall (fun neu' => GetSize neu' = expected) (take i layer) ->
  check_sizes expected k layer = Some ((k + i)%nat, GetSize neu).
Proof.
  revert k i. induction layer as [|neu' layer IH]; intros k i Hi Hneu Hbefore;
    [done|].
  cbn [check_sizes]. destruct i as [|i].
  - injection Hi as ->. destruct (Nat.eqb_spec (GetSize neu) expected); [done|].
    cbn [negb]. do 2 f_equal. lia.
  - cbn [firstn] in Hbefore. apply Forall_cons in Hbefore as [-> Hbefore].
    rewrite Nat.eqb_refl. cbn [negb].
    rewrite (IH (S k) i Hi Hneu Hbefore). do 2 f_equal. lia.
Qed.

(** X24.  With a sensor, an action and the right number of neurons in
    both layers, the error of [NewNeuralNet] reports the first neuron of
    the wrong size: the first one of the front layer, with its index, the
    number of distinct sensors and its own size; or, when the front layer
    is right, the first one of the back layer, with its index, the number
    of distinct actions and its own size. *)
Theorem NewNeuralNet_first_mismatch (sensors0 actions0 : list string)
    (front back : list (list Z)) (i : nat) (neu : list Z) :
  sensors0 <> [] -> actions0 <> [] ->
  length front = length (usort actions0) ->
  length back = length (usort actions0) ->
  (front !! i = Some neu ->
   GetSize neu <> length (usort sensors0) ->
   Forall (fun neu' => GetSize neu' = length (usort sensors0)) (take i front) ->
   NewNeuralNet sensors0 actions0 front back
   = Fail (Errorf ("[fron neuron " +:+ pretty i +:+ "] expected "
                   +:+ pretty (length (usort sensors0)) +:+ " genes, got "
                   +:+ pretty (GetSize neu))))
  /\ (Forall (fun neu' => GetSize neu' = length (usort sensors0)) front ->
      back !! i = Some neu ->
      GetSize neu <> length (usort actions0) ->
      Forall (fun neu' => GetSize neu' = length (usort actions0)) (take i back) ->
      NewNeuralNet sensors0 actions0 front back
      = Fail (Errorf ("[back neuron " +:+ pretty i +:+ "] expected "
                      +:+ pretty (length (usort actions0)) +:+ " genes, got "
                      +:+ pretty (GetSize neu)))).
Proof.
  intros Hs Ha Hf Hb. unfold NewNeuralNet.
  destruct (Nat.eqb_spec (length (usort sensors0)) 0) as [Hs0|_].
  { apply length_zero_iff_nil, (proj1 (usort_nil_iff _)) in Hs0. done. }
  destruct (Nat.eqb_spec (length (usort actions0)) 0) as [Ha0|_].
  { apply length_zero_iff_nil, (proj1 (usort_nil_iff _)) in Ha0. done. }
  rewrite Hf, Hb, Nat.eqb_refl. cbn [negb]. split.
  - intros Hi Hneu Hbefore.
    by rewrite (check_sizes_first _ 0 i front neu Hi Hneu Hbefore).
  - intros Hfront Hi Hneu Hbefore.
    rewrite (proj2 (check_sizes_Forall _ 0 front) Hfront).
    by rewrite (check_sizes_first _ 0 i back neu Hi Hneu Hbefore).
Qed.

Lemma NewNeuralNet_first_mismatch_witness :
  NewNeuralNet ["b"; "a"] ["x"; "y"; "z"] [[1; 2]; [3]; [4; 5; 6]] [[1]; [2]; [3]]
  = Fail (Errorf "[fron neuron 1] expected 2 genes, got 1").
Proof.
  apply (NewNeuralNet_first_mismatch ["b"; "a"] ["x"; "y"; "z"]
           [[1; 2]; [3]; [4; 5; 6]] [[1]; [2]; [3]] 1 [3]).
  - done.
  - done.
  - reflexivity.
  - reflexivity.
  - reflexivity.
  - vm_compute. lia.
  - vm_compute. repeat constructor.
Defined.

(** ** The bytes written by [Save] *)

Lemma save_strings_length (names : list string) :
  length (save_strings names)
  = sum_list ((fun name => S (String.length name)) <$> names).
Proof.
  unfold save_strings. induction names as [|name names IH]; [done|].
  cbn [flat_map fmap list_fmap sum_list_with sum_list].
  rewrite !length_app, IH. unfold bytes_of_string.
  rewrite length_map, <- (string_of_list_ascii_length (list_ascii_of_string name)).
  rewrite string_of_list_ascii_of_string. unfold id. cbn [length]. lia.
Qed.

Lemma save_neurons_length (layer : list (list Z)) :
  length (save_neurons layer)
  = sum_list ((fun neu => 2 + 4 * GetSize neu)%nat <$> layer).
Proof.
  induction layer as [|neu layer IH]; [done|].
  rewrite save_neurons_cons, length_app, Marshal_length, IH. done.
Qed.

(** X14.  [Save] writes a 4-byte header, whose first two bytes are the
    length of what follows modulo [2^16], most significant byte first,
    and whose last two bytes are zero; what follows ends with four zero
    bytes and is 20 bytes longer than the names, each with its
    terminator, and the neurons, each with its [2 + 4*size] bytes. *)
Theorem Save_frame (net : neuralnet) :
  take 4 (Save net)
  = PutUint16 (uint16 (Z.of_nat (length (drop 4 (Save net))))) ++ [0; 0]
  /\ drop (length (Save net) - 4) (Save net) = [0; 0; 0; 0]
  /\ length (drop 4 (Save net))
     = (20 + sum_list ((fun name => S (String.length name)) <$> sensors net)
           + sum_list ((fun name => S (String.length name)) <$> actions net)
           + sum_list ((fun neu => 2 + 4 * GetSize neu) <$> frontNeuronSet net)
           + sum_list ((fun neu => 2 + 4 * GetSize neu) <$> backNeuronSet net))%nat.
Proof.
  set (buf :=
    (PutUint16 (uint16 (Z.of_nat (length (sensors net)))) ++ [0; 0])
    ++ save_strings (sensors net)
    ++ (PutUint16 (uint16 (Z.of_nat (length (actions net)))) ++ [0; 0])
    ++ save_strings (actions net)
    ++ (PutUint16 (uint16 (Z.of_nat (length (frontNeuronSet net)))) ++ [0; 0])
    ++ save_neurons (frontNeuronSet net)
    ++ (PutUint16 (uint16 (Z.of_nat (length (backNeuronSet net)))) ++ [0; 0])
    ++ save_neurons (backNeuronSet net)
    ++ [0; 0; 0; 0]).
  assert (HS : Save net
               = (PutUint16 (uint16 (Z.of_nat (length buf))) ++ [0; 0]) ++ buf).
  { subst buf. unfold Save. cbv zeta. unfold PutUint16, copy.
    cbn [length firstn skipn app]. rewrite <- !app_assoc. reflexivity. }
  assert (Hlen : length buf
     = (20 + sum_list ((fun name => S (String.length name)) <$> sensors net)
           + sum_list ((fun name => S (String.length name)) <$> actions net)
           + sum_list ((fun neu => 2 + 4 * GetSize neu) <$> frontNeuronSet net)
           + sum_list ((fun neu => 2 + 4 * GetSize neu) <$> backNeuronSet net))%nat).
  { subst buf. rewrite !length_app, !save_strings_length, !save_neurons_length.
    cbn [length PutUint16]. lia. }
  assert (Hdrop : drop 4 (Save net) = buf) by (by rewrite HS).
  rewrite Hdrop. split; [by rewrite HS|]. split; [|done].
  rewrite HS, length_app.
  change (length (PutUint16 _ ++ [0; 0])) with 4%nat.
  replace (4 + length buf - 4)%nat with (4 + (length buf - 4))%nat by lia.
  rewrite <- drop_drop. change (drop 4 ((PutUint16 ?v ++ [0; 0]) ++ ?l)) with l.
  subst buf. rewrite !app_assoc.
  rewrite drop_app_length'; [done|].
  rewrite !length_app. cbn [length]. lia.
Qed.

(** ** Loading what was saved, from a longer stream *)

Lemma LoadNet_payload (net : neuralnet) (header rest : list Z) :
  valid net -> storable net -> length header = 4%nat -> rest <> [] ->
  LoadNet (header
           ++ (PutUint16 (uint16 (Z.of_nat (length (sensors net)))) ++ [0; 0])
           ++ save_strings (sensors net)
           ++ (PutUint16 (uint16 (Z.of_nat (length (actions net)))) ++ [0; 0])
           ++ save_strings (actions net)
           ++ (PutUint16 (uint16 (Z.of_nat (length (frontNeuronSet net)))) ++ [0; 0])
           ++ save_neurons (frontNeuronSet net)
           ++ (PutUint16 (uint16 (Z.of_nat (length (backNeuronSet net)))) ++ [0; 0])
           ++ save_neurons (backNeuronSet net)
           ++ rest)
  = Ret net.
Proof.
  intros Hvalid (Hsn & Han & Hsl & Hal & Hfg & Hbg) Hheader Hrest.
  pose proof Hvalid as [_ _ _ _ _ _ Hf Hb Hfs Hbs].
  unfold LoadNet.
  rewrite read_into_exact; [|done|].
  2:{ destruct header; [done|]. done. }
  cbn [mbind outcome_bind fst snd].
  rewrite loadStrings_names by done. cbn [mbind outcome_bind fst snd].
  rewrite loadStrings_names by done. cbn [mbind outcome_bind fst snd].
  rewrite loadNeurons_layer; [| |lia|].
  2:{ apply Forall_forall. intros neu Hneu.
      split; [exact (proj1 (Forall_forall _ _) Hfg neu Hneu)|].
      pose proof (proj1 (Forall_forall _ _) Hfs neu Hneu) as Hsz.
      unfold GetSize in Hsz. lia. }
  2:{ intros Happ. apply app_eq_nil in Happ as [Happ _]. discriminate Happ. }
  cbn [mbind outcome_bind fst snd].
  rewrite loadNeurons_layer; [| |lia|done].
  2:{ apply Forall_forall. intros neu Hneu.
      split; [exact (proj1 (Forall_forall _ _) Hbg neu Hneu)|].
      pose proof (proj1 (Forall_forall _ _) Hbs neu Hneu) as Hsz.
      unfold GetSize in Hsz. lia. }
  cbn [mbind outcome_bind fst snd]. by apply NewNeuralNet_valid.
Qed.

(** X15.  [LoadNet] does not read the four header bytes nor anything
    after the back layer: the saved bytes of a net that the format can
    hold are loaded to the same net with any other four bytes in front
    and with any bytes appended. *)
Theorem LoadNet_ignores_frame (net : neuralnet) (header trailing : list Z) :
  valid net -> storable net -> length header = 4%nat ->
  LoadNet (header ++ drop 4 (Save net) ++ trailing) = Ret net.
Proof.
  intros Hvalid Hstorable Hheader.
  destruct (Save_layout net) as [total ->].
  change (drop 4 ((PutUint16 total ++ [0; 0]) ++ ?l)) with l.
  rewrite <- (LoadNet_payload net header ([0; 0; 0; 0] ++ trailing))
    by done.
  f_equal. by rewrite <- !app_assoc.
Qed.

Lemma LoadNet_ignores_frame_witness :
  LoadNet ([9; 9; 9; 9]
           ++ drop 4 (Save {| actions := ["jump"]; frontNeuronSet := [[1; -2]];
                              backNeuronSet := [[3]];
                              sensors := ["distance"; "height"] |})
           ++ [1; 2; 3])
  = Ret {| actions := ["jump"]; frontNeuronSet := [[1; -2]];
           backNeuronSet := [[3]]; sensors := ["distance"; "height"] |}.
Proof.
  apply (LoadNet_ignores_frame
           {| actions := ["jump"]; frontNeuronSet := [[1; -2]];
              backNeuronSet := [[3]]; sensors := ["distance"; "height"] |}
           [9; 9; 9; 9] [1; 2; 3]).
  - apply (NewNeuralNet_Ret ["height"; "distance"] ["jump"] [[1; -2]] [[3]]).
    vm_compute. reflexivity.
  - unfold storable, in_int32. cbn [sensors actions frontNeuronSet backNeuronSet].
    repeat split; repeat constructor; try lia;
      apply (bool_decide_unpack _); vm_compute; exact I.
  - reflexivity.
Defined.

(** ** What [LoadNet] returns on any stream *)

Lemma read_into_cases (buf input : list Z) :
  read_into buf input = Fail EOF
  \/ exists got,
       read_into buf input = Ret (got, drop (length buf) input)
       /\ length got = length buf
       /\ (Forall is_byte buf -> Forall is_byte input -> Forall is_byte got).
Proof.
  destruct input as [|b input]; [by left|]. right.
  unfold read_into, Read. cbn [mbind outcome_bind fst snd].
  eexists. split; [reflexivity|]. unfold copy. split.
  - rewrite length_app, length_drop, !length_take. lia.
  - intros Hbuf Hinput. apply Forall_app. split.
    + by apply Forall_take, Forall_take.
    + by apply Forall_drop.
Qed.

Lemma byte_of_ascii_of_byte (b : Z) : is_byte b -> byte_of_ascii (ascii_of_byte b) = b.
Proof.
  unfold is_byte, byte_of_ascii, ascii_of_byte. intros Hb.
  rewrite N_ascii_embedding by lia. lia.
Qed.

Lemma replicate_zero_bytes (n : nat) : Forall is_byte (replicate n 0).
Proof. apply Forall_replicate. unfold is_byte. lia. Qed.

(** [readFile] returns a neuron or the end-of-file error; it neither
    panics nor hangs.  On a stream of bytes the genes are 32-bit and
    fewer than [2^16]. *)
Lemma readFile_cases (input : list Z) :
  readFile input = Fail EOF
  \/ exists neu rest,
       readFile input = Ret (neu, rest)
       /\ (Forall is_byte input ->
           Forall in_int32 neu /\ Z.of_nat (length neu) < 2 ^ 16
           /\ Forall is_byte rest).
Proof.
  unfold readFile.
  destruct (read_into_cases [0; 0] input) as [->|(got & -> & Hgot & Hb1)]; [by left|].
  cbn [mbind outcome_bind fst snd length].
  destruct got as [|c0 [|c1 [|c2 got]]]; try done.
  cbn [Uint16]. set (count := Z.lor c1 (Z.shiftl c0 8)). set (n := Z.to_nat count).
  assert (Hdata : copy (replicate (2 + 4 * n) 0) [c0; c1]
                  = [c0; c1] ++ replicate (4 * n) 0).
  { unfold copy. rewrite length_replicate.
    change (2 + 4 * n)%nat with (S (S (4 * n))).
    cbn [firstn skipn length replicate app]. by rewrite take_nil. }
  rewrite Hdata. change (drop 2 ([c0; c1] ++ ?l)) with l.
  change (take 2 ([c0; c1] ++ ?l)) with [c0; c1].
  destruct (read_into_cases (replicate (4 * n) 0) (drop 2 input))
    as [->|(body & -> & Hbody & Hb2)]; [by left|].
  cbn [mbind outcome_bind fst snd]. rewrite length_replicate in Hbody.
  rewrite (neuronFromBytes_Ret _ count);
    [|reflexivity|cbn [length app]; fold n; lia].
  cbn [mbind outcome_bind]. right. eexists _, _. split; [reflexivity|].
  intros Hinput. fold n. change (drop 2 ([c0; c1] ++ body)) with body.
  specialize (Hb1 ltac:(repeat constructor; unfold is_byte; lia) Hinput).
  specialize (Hb2 (replicate_zero_bytes _) ltac:(by apply Forall_drop)).
  split; [apply genes_of_bytes; [done|lia]|].
  split; [|by apply Forall_drop, Forall_drop].
  rewrite genes_of_length. subst n count.
  apply Forall_cons in Hb1 as [H0 Hb1]. apply Forall_cons in Hb1 as [H1 _].
  unfold is_byte in *. rewrite lor_shiftl_add by lia. lia.
Qed.

Lemma loadString_cases (input : list Z) (str : list ascii) :
  loadString input str = Fail EOF
  \/ exists name rest,
       loadString input str = Ret (name, rest)
       /\ (Forall is_byte input -> 0 ∉ map byte_of_ascii str ->
           nul_free name /\ Forall is_byte rest).
Proof.
  revert str. induction input as [|current input IH]; intros str; [by left|].
  cbn [loadString]. destruct (Z.eqb_spec current 0) as [->|Hne].
  - right. eexists _, _. split; [reflexivity|]. intros Hbytes Hstr.
    apply Forall_cons in Hbytes as [_ Hbytes]. split; [|done].
    unfold nul_free, bytes_of_string. by rewrite list_ascii_of_string_of_list_ascii.
  - destruct (IH (str ++ [ascii_of_byte current])) as [->|(name & rest & -> & Hok)];
      [by left|].
    right. eexists _, _. split; [reflexivity|]. intros Hbytes Hstr.
    apply Forall_cons in Hbytes as [Hcur Hbytes]. apply Hok; [done|].
    rewrite map_app. cbn [map]. rewrite byte_of_ascii_of_byte by done.
    intros [Hin|Hin]%elem_of_app; [done|].
    apply list_elem_of_singleton in Hin. congruence.
Qed.

Lemma loadStrings_loop_cases (todo i : nat) (input : list Z) (set : list string) :
  loadStrings_loop i todo input set = Fail EOF
  \/ exists names rest,
       loadStrings_loop i todo input set = Ret (names, rest)
       /\ length names = length set
       /\ (Forall is_byte input -> Forall nul_free set ->
           Forall nul_free names /\ Forall is_byte rest).
Proof.
  revert i input set. induction todo as [|todo IH]; intros i input set.
  - right. exists set, input. split; [done|]. split; [done|]. tauto.
  - cbn [loadStrings_loop].
    destruct (loadString_cases input []) as [->|(name & rest & -> & Hname)];
      [by left|].
    cbn [mbind outcome_bind fst snd].
    destruct (IH (S i) rest (<[i := name]> set))
      as [->|(names & rest' & -> & Hlen & Hok)]; [by left|].
    right. eexists _, _. split; [reflexivity|].
    split; [by rewrite Hlen, length_insert|].
    intros Hbytes Hset.
    destruct (Hname Hbytes ltac:(apply not_elem_of_nil)) as [Hn Hrest].
    apply Hok; [done|]. by apply Forall_insert.
Qed.

Lemma nul_free_empty : nul_free EmptyString.
Proof. unfold nul_free. cbn. apply not_elem_of_nil. Qed.

Lemma loadStrings_cases (input : list Z) :
  loadStrings input = Fail EOF
  \/ exists names rest,
       loadStrings input = Ret (names, rest)
       /\ (Forall is_byte input ->
           Forall nul_free names /\ Z.of_nat (length names) < 2 ^ 16
           /\ Forall is_byte rest).
Proof.
  unfold loadStrings.
  destruct (read_into_cases [0; 0; 0; 0] input) as [->|(got & -> & Hgot & Hb1)];
    [by left|].
  cbn [mbind outcome_bind fst snd length].
  destruct got as [|c0 [|c1 got]]; try done. cbn [Uint16].
  set (count := Z.lor c1 (Z.shiftl c0 8)).
  destruct (loadStrings_loop_cases (Z.to_nat count) 0 (drop 4 input)
              (replicate (Z.to_nat count) EmptyString))
    as [->|(names & rest & -> & Hlen & Hok)]; [by left|].
  right. eexists _, _. split; [reflexivity|]. intros Hinput.
  specialize (Hb1 ltac:(repeat constructor; unfold is_byte; lia) Hinput).
  destruct (Hok ltac:(by apply Forall_drop)
              ltac:(apply Forall_replicate, nul_free_empty)) as [Hn Hrest].
  split; [done|]. split; [|done].
  rewrite Hlen, length_replicate. subst count.
  apply Forall_cons in Hb1 as [H0 Hb1]. apply Forall_cons in Hb1 as [H1 _].
  unfold is_byte in *. rewrite lor_shiftl_add by lia. lia.
Qed.

Lemma loadNeurons_loop_cases (todo i : nat) (input : list Z) (res : list (list Z)) :
  loadNeurons_loop i todo input res = Fail EOF
  \/ exists layer rest,
       loadNeurons_loop i todo input res = Ret (layer, rest)
       /\ (Forall is_byte input -> Forall (Forall in_int32) res ->
           Forall (Forall in_int32) layer /\ Forall is_byte rest).
Proof.
  revert i input res. induction todo as [|todo IH]; intros i input res.
  - right. exists res, input. split; [done|]. tauto.
  - cbn [loadNeurons_loop]. unfold NewNeuron_Reader.
    destruct (readFile_cases input) as [->|(neu & rest & -> & Hneu)]; [by left|].
    cbn [mbind outcome_bind fst snd].
    destruct (IH (S i) rest (<[i := neu]> res))
      as [->|(layer & rest' & -> & Hok)]; [by left|].
    right. eexists _, _. split; [reflexivity|]. intros Hbytes Hres.
    destruct (Hneu Hbytes) as (Hg & _ & Hrest).
    apply Hok; [done|]. by apply Forall_insert.
Qed.

Lemma loadNeurons_cases (input : list Z) :
  loadNeurons input = Fail EOF
  \/ exists layer rest,
       loadNeurons input = Ret (layer, rest)
       /\ (Forall is_byte input ->
           Forall (Forall in_int32) layer /\ Forall is_byte rest).
Proof.
  unfold loadNeurons.
  destruct (read_into_cases [0; 0; 0; 0] input) as [->|(got & -> & Hgot & Hb1)];
    [by left|].
  cbn [mbind outcome_bind fst snd length].
  destruct got as [|c0 [|c1 got]]; try done. cbn [Uint16].
  set (count := Z.lor c1 (Z.shiftl c0 8)).
  destruct (loadNeurons_loop_cases (Z.to_nat count) 0 (drop 4 input)
              (replicate (Z.to_nat count) []))
    as [->|(layer & rest & -> & Hok)]; [by left|].
  right. eexists _, _. split; [reflexivity|]. intros Hinput.
  apply Hok; [by apply Forall_drop|]. apply Forall_replicate. constructor.
Qed.

Lemma Save_then_LoadNet (net : neuralnet) :
  valid net -> storable net -> LoadNet (Save net) = Ret net.
Proof.
  intros Hvalid Hstorable. destruct (Save_layout net) as [total ->].
  by apply (LoadNet_payload net (PutUint16 total ++ [0; 0]) [0; 0; 0; 0]).
Qed.

Lemma usort_length_le (args : list string) : (length (usort args) <= length args)%nat.
Proof.
  apply submseteq_length, NoDup_submseteq; [apply usort_NoDup|].
  intros x. apply usort_elem_of.
Qed.

Lemma usort_Forall (P : string -> Prop) (args : list string) :
  Forall P args -> Forall P (usort args).
Proof.
  rewrite !Forall_forall. intros H x Hx. by apply H, usort_elem_of.
Qed.

(** The loaders in sequence: [LoadNet] fails with the end-of-file error of
    a loader or comes to [NewNeuralNet] with what was loaded. *)
Lemma LoadNet_cases (input : list Z) :
  LoadNet input = Fail EOF
  \/ exists names_s names_a front back,
       LoadNet input = NewNeuralNet names_s names_a front back
       /\ (Forall is_byte input ->
           Forall nul_free names_s /\ Z.of_nat (length names_s) < 2 ^ 16
           /\ Forall nul_free names_a /\ Z.of_nat (length names_a) < 2 ^ 16
           /\ Forall (Forall in_int32) front /\ Forall (Forall in_int32) back).
Proof.
  unfold LoadNet.
  destruct (read_into_cases [0; 0; 0; 0] input) as [->|(got & -> & _ & _)];
    [by left|].
  cbn [mbind outcome_bind fst snd length].
  destruct (loadStrings_cases (drop 4 input)) as [->|(ns & r1 & -> & H1)]; [by left|].
  cbn [mbind outcome_bind fst snd].
  destruct (loadStrings_cases r1) as [->|(na & r2 & -> & H2)]; [by left|].
  cbn [mbind outcome_bind fst snd].
  destruct (loadNeurons_cases r2) as [->|(f & r3 & -> & H3)]; [by left|].
  cbn [mbind outcome_bind fst snd].
  destruct (loadNeurons_cases r3) as [->|(b & r4 & -> & H4)]; [by left|].
  cbn [mbind outcome_bind fst snd].
  right. exists ns, na, f, b. split; [done|]. intros Hinput.
  destruct (H1 ltac:(by apply Forall_drop)) as (? & ? & Hr1).
  destruct (H2 Hr1) as (? & ? & Hr2).
  destruct (H3 Hr2) as (? & Hr3).
  destruct (H4 Hr3) as (? & _). done.
Qed.

Lemma NewNeuralNet_Ret_or_Fail (sensors0 actions0 : list string)
    (front back : list (list Z)) :
  (exists net, NewNeuralNet sensors0 actions0 front back = Ret net)
  \/ (exists msg, NewNeuralNet sensors0 actions0 front back = Fail (Errorf msg)).
Proof.
  unfold NewNeuralNet.
  repeat match goal with
         | |- context [if ?b then _ else _] => destruct b; eauto
         end.
  destruct (check_sizes _ 0 front) as [[? ?]|]; [eauto|].
  destruct (check_sizes _ 0 back) as [[? ?]|]; eauto.
Qed.

(** X16.  On any stream [LoadNet] returns a net, the end-of-file error,
    or a construction error of [NewNeuralNet]; it never panics and never
    hangs.  A net it returns satisfies every invariant of construction. *)
Theorem LoadNet_outcome (input : list Z) :
  (exists net, LoadNet input = Ret net /\ valid net)
  \/ LoadNet input = Fail EOF
  \/ exists msg, LoadNet input = Fail (Errorf msg).
Proof.
  destruct (LoadNet_cases input) as [->|(ns & na & f & b & -> & _)]; [by right; left|].
  destruct (NewNeuralNet ns na f b) as [net|err|msg|] eqn:Hnew.
  - left. exists net. split; [done|]. by apply (NewNeuralNet_Ret ns na f b).
  - right. right.
    destruct (NewNeuralNet_Ret_or_Fail ns na f b) as [[net Hret]|[msg Hfail]];
      [congruence|]. exists msg. congruence.
  - exfalso.
    destruct (NewNeuralNet_Ret_or_Fail ns na f b) as [[net Hret]|[m Hfail]]; congruence.
  - exfalso.
    destruct (NewNeuralNet_Ret_or_Fail ns na f b) as [[net Hret]|[m Hfail]]; congruence.
Qed.

(** X17.  A net loaded from a stream of bytes can always be saved and
    loaded again: its names have no zero byte, it has fewer than [2^16]
    sensors and actions and 32-bit genes, and [LoadNet] on the bytes
    [Save] writes for it returns the same net. *)
Theorem LoadNet_restorable (input : list Z) (net : neuralnet) :
  Forall is_byte input ->
  LoadNet input = Ret net ->
  storable net /\ LoadNet (Save net) = Ret net.
Proof.
  intros Hbytes Hload.
  destruct (LoadNet_cases input) as [H|(ns & na & f & b & Hnew & Hok)]; [congruence|].
  rewrite Hload in Hnew. symmetry in Hnew.
  destruct (NewNeuralNet_Ret _ _ _ _ _ Hnew) as [-> Hvalid].
  destruct (Hok Hbytes) as (Hs & Hsl & Ha & Hal & Hf & Hb).
  assert (Hstorable : storable
            {| actions := usort na; frontNeuronSet := f;
               backNeuronSet := b; sensors := usort ns |}).
  { unfold storable. cbn [sensors actions frontNeuronSet backNeuronSet].
    pose proof (usort_length_le ns). pose proof (usort_length_le na).
    repeat split; auto using usort_Forall; lia. }
  split; [done|]. by apply Save_then_LoadNet.
Qed.

Lemma LoadNet_restorable_witness :
  storable {| actions := ["a"]; frontNeuronSet := [[-1]];
              backNeuronSet := [[2]]; sensors := ["s"] |}
  /\ LoadNet (Save {| actions := ["a"]; frontNeuronSet := [[-1]];
                      backNeuronSet := [[2]]; sensors := ["s"] |})
     = Ret {| actions := ["a"]; frontNeuronSet := [[-1]];
              backNeuronSet := [[2]]; sensors := ["s"] |}.
Proof.
  apply (LoadNet_restorable
           [9; 9; 9; 9; 0; 1; 0; 0; 115; 0; 0; 1; 0; 0; 97; 0;
            0; 1; 0; 0; 0; 1; 255; 255; 255; 255;
            0; 1; 0; 0; 0; 1; 0; 0; 0; 2; 5]).
  - apply (bool_decide_unpack _). vm_compute. exact I.
  - vm_compute. reflexivity.
Defined.

(** ** [Child] and the random constructor, on any deviation *)

Section RandomProps.

Variable Rand : Type.
Variable draw : Z -> Rand -> Z * Rand.

Lemma Child_loop_draws (dev : Z) (rest : list Z) (i : nat) (child : list Z) (r : Rand) :
  0 < int32 dev ->
  length child = (i + length rest)%nat ->
  Child_loop Rand draw dev i rest child r
  = Ret (take i child
         ++ zip_with (fun value u => int (int (value + u) - dev ÷ 2)) rest
              (draws Rand draw (int32 dev) (length rest) r).1,
         (draws Rand draw (int32 dev) (length rest) r).2).
Proof.
  intros Hdev. revert i child r.
  induction rest as [|value rest IH]; intros i child r Hlen.
  - cbn. rewrite app_nil_r, take_ge by (simpl in Hlen; lia). done.
  - cbn [Child_loop length draws zip_with fst snd] in *. unfold Int31n.
    destruct (Z.leb_spec (int32 dev) 0) as [?|_]; [lia|]. cbn [mbind outcome_bind].
    rewrite IH by (rewrite length_insert; lia).
    rewrite (take_S_r _ _ (int (int (value + (draw (int32 dev) r).1) - dev ÷ 2)))
      by (apply list_lookup_insert_eq; lia).
    rewrite take_insert_ge by lia. by rewrite <- app_assoc.
Qed.

(** X18.  [Child] panics exactly when the neuron has a gene and the
    deviation, narrowed to 32 bits, is not positive; this covers a zero
    or negative deviation and a deviation such as [2^31].  In every other
    case it returns a neuron of the same size and has drawn one number
    per gene. *)
Theorem Child_outcome (neu : neuron) (dev : Z) (r : Rand) :
  (neu <> [] -> int32 dev <= 0 ->
   Child Rand draw neu dev r = Panic "invalid argument to Int31n")
  /\ (neu = [] \/ 0 < int32 dev ->
      exists child,
        Child Rand draw neu dev r
        = Ret (child, (draws Rand draw (int32 dev) (GetSize neu) r).2)
        /\ GetSize child = GetSize neu).
Proof.
  unfold Child, GetSize. split.
  - intros Hne Hdev. destruct neu as [|value neu]; [done|].
    cbn [Child_loop]. unfold Int31n.
    destruct (Z.leb_spec (int32 dev) 0) as [_|?]; [done|lia].
  - intros [->|Hdev]; [by exists []|].
    rewrite Child_loop_draws by (rewrite ?length_replicate; lia).
    eexists. split; [reflexivity|]. rewrite take_0. cbn [app].
    rewrite length_zip_with, draws_length. lia.
Qed.

Lemma NewNeuron_int_loop_draws (todo i : nat) (neu : list Z) (r : Rand) :
  length neu = (i + todo)%nat ->
  NewNeuron_int_loop Rand draw i todo neu r
  = Ret (take i neu ++ ((fun u => int (u - 1000)) <$> (draws Rand draw 2000 todo r).1),
         (draws Rand draw 2000 todo r).2).
Proof.
  revert i neu r. induction todo as [|todo IH]; intros i neu r Hlen.
  - cbn. rewrite app_nil_r, take_ge by lia. done.
  - cbn [NewNeuron_int_loop draws fst snd fmap list_fmap]. unfold Int31n.
    cbn [Z.leb Z.compare mbind outcome_bind].
    rewrite IH by (rewrite length_insert; lia).
    rewrite (take_S_r _ _ (int ((draw 2000 r).1 - 1000)))
      by (apply list_lookup_insert_eq; lia).
    rewrite take_insert_ge by lia. by rewrite <- app_assoc.
Qed.

Hypothesis draw_range : forall n r, 0 < n -> 0 <= (draw n r).1 < n.

(** X19.  The random constructor returns, for a count [n >= 0], a neuron
    of [n] genes, each at least -1000 and below 1000, having drawn [n]
    numbers; for a negative count it panics. *)
Theorem NewNeuron_int_genes (value : Z) (r : Rand) :
  (value < 0 -> exists msg, NewNeuron_int Rand draw value r = Panic msg)
  /\ (0 <= value ->
      exists neu,
        NewNeuron_int Rand draw value r
        = Ret (neu, (draws Rand draw 2000 (Z.to_nat value) r).2)
        /\ Z.of_nat (GetSize neu) = value
        /\ Forall (fun gene => - 1000 <= gene < 1000) neu).
Proof.
  unfold NewNeuron_int. split; intros Hvalue.
  - destruct (Z.ltb_spec value 0); [eauto|lia].
  - destruct (Z.ltb_spec value 0); [lia|].
    rewrite NewNeuron_int_loop_draws by (by rewrite length_replicate).
    eexists. split; [reflexivity|]. rewrite take_0. cbn [app]. unfold GetSize.
    split; [rewrite length_fmap, draws_length; lia|].
    apply Forall_fmap.
    eapply Forall_impl; [apply (draws_range Rand draw draw_range 2000); lia|].
    cbn. intros u Hu. rewrite int_id; lia.
Qed.

End RandomProps.

Lemma NewNeuron_int_genes_witness :
  exists neu,
    NewNeuron_int Z (fun n s => (s mod n, s + 1)) 3 7
    = Ret (neu, (draws Z (fun n s => (s mod n, s + 1)) 2000 (Z.to_nat 3) 7).2)
    /\ Z.of_nat (GetSize neu) = 3
    /\ Forall (fun gene => - 1000 <= gene < 1000) neu.
Proof.
  apply (NewNeuron_int_genes Z (fun n s => (s mod n, s + 1))).
  - intros n s Hn. cbn. apply Z.mod_pos_bound. lia.
  - lia.
Defined.

Lemma Child_outcome_witness :
  Child Z (fun n s => (s mod n, s + 1)) [4; 5] 0 7
  = Panic "invalid argument to Int31n".
Proof.
  apply (Child_outcome Z (fun n s => (s mod n, s + 1)) [4; 5] 0 7).
  - done.
  - vm_compute. discriminate.
Defined.

(** ** The range of [Compute] *)

(** X20.  With as many parameters as genes [Compute] returns a value.
    When the sum accumulated in [float64] is positive infinity, or finite
    and not below [2^63], the value is what the platform's conversion of
    that sum to [int] gives.  In every other case, that is for a NaN, for
    negative infinity and for a finite sum below [2^63], the value is not
    negative and is below [2^63]. *)
Theorem Compute_range (indefinite : float64 -> Z) (neu : neuron)
    (data : list float64) :
  length data = GetSize neu ->
  exists value,
    Neuron.Compute indefinite neu data = Ret value
    /\ (float_sum neu data = S754_infinity false
        \/ (is_finite (float_sum neu data) = true
            /\ (inject_Z (2 ^ 63) <= float_value (float_sum neu data))%Q) ->
        value = indefinite (float_sum neu data))
    /\ (float_sum neu data = S754_nan
        \/ float_sum neu data = S754_infinity true
        \/ (is_finite (float_sum neu data) = true
            /\ (float_value (float_sum neu data) < inject_Z (2 ^ 63))%Q) ->
        0 <= value < 2 ^ 63).
Proof.
  intros Hlen. rewrite (Compute_threshold indefinite neu data Hlen).
  eexists. split; [reflexivity|]. rewrite fgt_zero.
  destruct (float_sum neu data) as [s|[]| |[] m e].
  - split; [intros [?|[_ Hq]]; [done|]|lia].
    exfalso. revert Hq. cbn. unfold Qle. cbn. lia.
  - split; [intros [?|[? _]]; done|lia].
  - split; [done|]. intros [?|[?|[? _]]]; done.
  - split; [intros [?|[? _]]; done|lia].
  - split; [|lia]. intros [?|[_ Hq]]; [done|]. exfalso.
    pose proof (float_value_sign true m e) as Hneg. apply Qle_bool_iff in Hneg.
    pose proof (Qle_trans _ _ _ Hq Hneg) as H0. revert H0. unfold Qle. cbn. lia.
  - cbn [int_of_float64].
    assert (Hlo : 0 <= ftrunc (S754_finite false m e)).
    { unfold ftrunc. destruct (0 <=? e);
        [apply Z.shiftl_nonneg | apply Z.shiftr_nonneg]; lia. }
    destruct (Z.leb_spec (- 2 ^ 63) (ftrunc (S754_finite false m e))); [|lia].
    cbn [andb]. split.
    + intros [?|[_ Hq]]; [done|].
      assert (Hhi : 2 ^ 63 <= ftrunc (S754_finite false m e)).
      { rewrite ftrunc_positive, <- (Qfloor_Z (2 ^ 63)). by apply Qfloor_resp_le. }
      destruct (Z.ltb_spec (ftrunc (S754_finite false m e)) (2 ^ 63)); [lia|done].
    + intros [?|[?|[_ Hq]]]; [done|done|].
      assert (Hhi : ftrunc (S754_finite false m e) < 2 ^ 63).
      { rewrite Zlt_Qlt. eapply Qle_lt_trans; [|exact Hq].
        rewrite ftrunc_positive. apply Qfloor_le. }
      destruct (Z.ltb_spec (ftrunc (S754_finite false m e)) (2 ^ 63)); lia.
Qed.

Lemma Compute_range_witness :
  exists value,
    Neuron.Compute (fun _ => -7) [2] [float64_of_int (2 ^ 62)] = Ret value
    /\ (float_sum [2] [float64_of_int (2 ^ 62)] = S754_infinity false
        \/ (is_finite (float_sum [2] [float64_of_int (2 ^ 62)]) = true
            /\ Qle (inject_Z (2 ^ 63))
                   (float_value (float_sum [2] [float64_of_int (2 ^ 62)]))) ->
        value = (fun _ => -7) (float_sum [2] [float64_of_int (2 ^ 62)]))
    /\ (float_sum [2] [float64_of_int (2 ^ 62)] = S754_nan
        \/ float_sum [2] [float64_of_int (2 ^ 62)] = S754_infinity true
        \/ (is_finite (float_sum [2] [float64_of_int (2 ^ 62)]) = true
            /\ Qlt (float_value (float_sum [2] [float64_of_int (2 ^ 62)]))
                   (inject_Z (2 ^ 63))) ->
        0 <= value < 2 ^ 63).
Proof.
  apply (Compute_range (fun _ => -7) [2] [float64_of_int (2 ^ 62)]).
  reflexivity.
Defined.

(** ** A neuron built from a slice of integers *)

(** X21.  Constructing a neuron from a slice of integers allocates: the
    neuron is held in an array that did not exist before, every array
    that existed is left as it was, the genes are those of the pure
    constructor on the elements of the slice, and a later write through
    either of the two slices does not show in the other. *)
Theorem NewNeuron_ints_copies (mem : gmap nat (list Z)) (value : Storage.slice)
    (elems : list Z) :
  mem !! Storage.array value = Some elems ->
  (Storage.len value <= length elems)%nat ->
  mem !! Storage.array (Storage.NewNeuron_ints mem value).2 = None
  /\ (forall a, a <> Storage.array (Storage.NewNeuron_ints mem value).2 ->
        (Storage.NewNeuron_ints mem value).1 !! a = mem !! a)
  /\ NewNeuron_ints (Storage.genes mem value)
     = Ret (Storage.genes (Storage.NewNeuron_ints mem value).1
              (Storage.NewNeuron_ints mem value).2)
  /\ forall i v,
       Storage.genes
         (Storage.set_index (Storage.NewNeuron_ints mem value).1 value i v)
         (Storage.NewNeuron_ints mem value).2
       = Storage.genes mem value
       /\ Storage.genes
            (Storage.set_index (Storage.NewNeuron_ints mem value).1
               (Storage.NewNeuron_ints mem value).2 i v)
            value
          = Storage.genes mem value.
Proof.
  intros Helems Hlen.
  pose proof (Storage_make_fresh mem (Storage.len value)) as Hfresh.
  destruct (NewNeuron_ints_independent mem value elems 0 0 Helems Hlen)
    as (Hne & Hgenes & _).
  split; [exact Hfresh|].
  assert (Hother : forall a,
            a <> Storage.array (Storage.NewNeuron_ints mem value).2 ->
            (Storage.NewNeuron_ints mem value).1 !! a = mem !! a).
  { intros a Ha. unfold Storage.NewNeuron_ints in *. cbn [fst snd] in *.
    rewrite lookup_alter_ne by done. unfold Storage.make in *. cbn [fst snd] in *.
    by rewrite lookup_insert_ne. }
  split; [exact Hother|]. split.
  - unfold NewNeuron_ints. rewrite copy_replicate. by rewrite Hgenes.
  - intros i v. split.
    + by destruct (NewNeuron_ints_independent mem value elems i v Helems Hlen)
        as (_ & _ & ?).
    + unfold Storage.genes, Storage.set_index.
      rewrite lookup_alter_ne by done. rewrite Hother by done. done.
Qed.

Lemma NewNeuron_ints_copies_witness :
  NewNeuron_ints (Storage.genes {[ 0%nat := [1; 2; 3] ]}
                    {| Storage.array := 0; Storage.len := 2 |})
  = Ret (Storage.genes
           (Storage.NewNeuron_ints {[ 0%nat := [1; 2; 3] ]}
              {| Storage.array := 0; Storage.len := 2 |}).1
           (Storage.NewNeuron_ints {[ 0%nat := [1; 2; 3] ]}
              {| Storage.array := 0; Storage.len := 2 |}).2).
Proof.
  apply (NewNeuron_ints_copies {[ 0%nat := [1; 2; 3] ]}
           {| Storage.array := 0; Storage.len := 2 |} [1; 2; 3]).
  - reflexivity.
  - simpl. lia.
Defined.

(** ** No stimulus, no response *)

Lemma fmul_zero_l (s : bool) (y : float64) :
  (exists s', fmul (S754_zero s) y = S754_zero s') \/ fmul (S754_zero s) y = S754_nan.
Proof. destruct y as [sy|sy| |sy m e]; cbn; eauto. Qed.

Lemma fmul_zero_r (x : float64) (s : bool) :
  (exists s', fmul x (S754_zero s) = S754_zero s') \/ fmul x (S754_zero s) = S754_nan.
Proof. destruct x as [sx|sx| |sx m e]; cbn; eauto. Qed.

Lemma fadd_zero_or_nan (x y : float64) :
  (exists s, x = S754_zero s) \/ x = S754_nan ->
  (exists s, y = S754_zero s) \/ y = S754_nan ->
  (exists s, fadd x y = S754_zero s) \/ fadd x y = S754_nan.
Proof.
  intros [[sx ->]| ->] [[sy ->]| ->]; cbn; eauto.
  destruct sx, sy; cbn; eauto.
Qed.

Lemma float_sum_quiet (pairs : list (float64 * Z)) (sum : float64) :
  Forall (fun p => (exists s, p.1 = S754_zero s) \/ p.2 = 0) pairs ->
  (exists s, sum = S754_zero s) \/ sum = S754_nan ->
  let total := fold_left (fun sum p => fadd sum (fmul p.1 (float64_of_int p.2)))
                 pairs sum in
  (exists s, total = S754_zero s) \/ total = S754_nan.
Proof.
  intros Hpairs. revert sum.
  induction Hpairs as [|[v g] pairs Hp _ IH]; intros sum Hsum; [done|].
  cbn [fold_left]. apply IH. apply fadd_zero_or_nan; [done|].
  cbn [fst snd] in *. destruct Hp as [[s ->]| ->].
  - apply fmul_zero_l.
  - apply fmul_zero_r.
Qed.

Lemma Compute_quiet (indefinite : float64 -> Z) (neu : list Z) (data : list float64) :
  length data = GetSize neu ->
  Forall (fun p => (exists s, p.1 = S754_zero s) \/ p.2 = 0) (zip data neu) ->
  Neuron.Compute indefinite neu data = Ret 0.
Proof.
  intros Hlen Hpairs. rewrite (Compute_threshold indefinite neu data Hlen).
  unfold float_sum.
  destruct (float_sum_quiet (zip data neu) fzero Hpairs ltac:(left; by exists false))
    as [[s ->]| ->]; done.
Qed.

(** X22.  A neuron whose genes are all zero, and any neuron whose
    parameters are all zero, computes 0, whatever the other side holds,
    infinities and NaN included. *)
Theorem Compute_zero (indefinite : float64 -> Z) (neu : neuron) (data : list float64) :
  length data = GetSize neu ->
  Forall (fun gene => gene = 0) neu
  \/ Forall (fun value => exists s, value = S754_zero s) data ->
  Neuron.Compute indefinite neu data = Ret 0.
Proof.
  intros Hlen Hzero. apply Compute_quiet; [done|].
  apply Forall_forall. intros [v g] Hin. cbn [fst snd].
  apply elem_of_zip_l in Hin as Hv. apply elem_of_zip_r in Hin as Hg.
  cbn [fst snd] in *. destruct Hzero as [Hz|Hz].
  - right. exact (proj1 (Forall_forall _ _) Hz g Hg).
  - left. exact (proj1 (Forall_forall _ _) Hz v Hv).
Qed.

Lemma Compute_zero_witness :
  Neuron.Compute (fun _ => 0) [3; -4] [S754_zero false; S754_zero true] = Ret 0.
Proof.
  apply (Compute_zero (fun _ => 0) [3; -4] [S754_zero false; S754_zero true]).
  - reflexivity.
  - right. repeat (apply Forall_cons_2; [eauto|]). apply Forall_nil_2.
Defined.

(** X23.  With every sensor at zero no action is triggered: for a net
    built by [NewNeuralNet] and an input mapping that gives each sensor
    the value zero, [Compute] returns [false] for every action. *)
Theorem Net_zero_input (indefinite : float64 -> Z)
    (sensors0 actions0 : list string) (front back : list (list Z))
    (net : neuralnet) (incoming : gmap string float64) :
  NewNeuralNet sensors0 actions0 front back = Ret net ->
  dom incoming = (list_to_set (sensors net) : gset string) ->
  map_Forall (fun _ value => exists s, value = S754_zero s) incoming ->
  exists res,
    Net.Compute indefinite net incoming = Ret res
    /\ forall action, action ∈ actions net -> res !! action = Some false.
Proof.
  intros Hnew Hdom Hzero.
  destruct (NewNeuralNet_Ret _ _ _ _ _ Hnew) as [_ Hvalid].
  destruct Hvalid as [_ Hsn _ _ Han _ Hf Hb Hfs Hbs].
  apply checkInput_None in Hdom; [|done].
  unfold Net.Compute. rewrite Hdom.
  destruct (front_loop_Ret indefinite net incoming (frontNeuronSet net) 0
              (replicate (length (actions net)) 0))
    as (middle & Hmiddle & Hfront);
    [by apply checkInput_size | done | rewrite length_replicate; lia |].
  rewrite Hfront. rewrite take_0. cbn [app mbind outcome_bind].
  assert (Hmlen : length middle = length (actions net))
    by (by rewrite <- (Forall2_length _ _ _ Hmiddle)).
  assert (Hinputs : Forall (fun value => exists s, value = S754_zero s)
                      (sensor_inputs net incoming)).
  { unfold sensor_inputs. apply Forall_fmap, Forall_forall. intros sensor _. cbn.
    destruct (incoming !! sensor) as [v|] eqn:Hv; cbn.
    - exact (Hzero sensor v Hv).
    - by exists false. }
  assert (Hmid0 : Forall (fun value => value = 0) middle).
  { assert (Hgen : forall layer values,
              Forall (fun neu => GetSize neu = length (sensors net)) layer ->
              Forall2 (fun neu value =>
                         Neuron.Compute indefinite neu (sensor_inputs net incoming)
                         = Ret value) layer values ->
              Forall (fun value => value = 0) values).
    { intros layer values Hsizes Hvalues.
      induction Hvalues as [|neu value layer values Hc _ IH]; [constructor|].
      apply Forall_cons in Hsizes as [Hsize Hsizes]. constructor; [|by apply IH].
      rewrite (Compute_quiet indefinite neu (sensor_inputs net incoming)) in Hc.
      - congruence.
      - unfold sensor_inputs. rewrite length_fmap. done.
      - apply Forall_forall. intros [v g] Hin. left.
        apply elem_of_zip_l in Hin.
        exact (proj1 (Forall_forall _ _) Hinputs v Hin). }
    exact (Hgen _ _ Hfs Hmiddle). }
  destruct (back_loop_Ret indefinite net middle (length (actions net)) 0 ∅)
    as (res & Hback & _ & Hres);
    [done | done | by rewrite Hmlen | lia |].
  rewrite drop_0 in Hback. exists res. split; [done|].
  intros action [j Hj]%list_elem_of_lookup_1.
  destruct (Hres j action ltac:(lia) Hj) as (neu & value & Hneu & Hc & ->).
  rewrite (Compute_quiet indefinite neu (float64_of_int <$> middle)) in Hc.
  - injection Hc as <-. done.
  - rewrite length_fmap, Hmlen.
    symmetry. eapply (proj1 (Forall_forall _ _) Hbs), list_elem_of_lookup_2, Hneu.
  - apply Forall_forall. intros [v g] Hin. left. cbn [fst].
    apply elem_of_zip_l in Hin. cbn [fst] in Hin.
    apply list_elem_of_fmap in Hin as (m & -> & Hm).
    rewrite (proj1 (Forall_forall _ _) Hmid0 m Hm). by exists false.
Qed.

Lemma Net_zero_input_witness :
  exists res,
    Net.Compute (fun _ => 0)
      {| actions := ["jump"]; frontNeuronSet := [[1; -2]];
         backNeuronSet := [[3]]; sensors := ["distance"; "height"] |}
      {["distance" := S754_zero false; "height" := S754_zero false]} = Ret res
    /\ forall action, action ∈ ["jump"] -> res !! action = Some false.
Proof.
  apply (Net_zero_input (fun _ => 0) ["height"; "distance"] ["jump"]
           [[1; -2]] [[3]]
           {| actions := ["jump"]; frontNeuronSet := [[1; -2]];
              backNeuronSet := [[3]]; sensors := ["distance"; "height"] |}
           {["distance" := S754_zero false; "height" := S754_zero false]}).
  - vm_compute. reflexivity.
  - apply (bool_decide_unpack _). vm_compute. exact I.
  - intros key value Hkey.
    apply lookup_insert_Some in Hkey as [[_ <-]|[_ Hkey]]; [eauto|].
    apply lookup_singleton_Some in Hkey as [_ <-]. eauto.
Defined.

Lemma NewNeuralNet_spec_witness :
  NewNeuralNet ["b"; "a"; "a"] ["x"] [[1; 2]] [[3]]
  = Ret {| actions := usort ["x"]; frontNeuronSet := [[1; 2]];
           backNeuronSet := [[3]]; sensors := usort ["b"; "a"; "a"] |}.
Proof.
  apply (NewNeuralNet_spec ["b"; "a"; "a"] ["x"] [[1; 2]] [[3]]).
  repeat split; try done; vm_compute;
    repeat (apply Forall_cons_2; [reflexivity|]); apply Forall_nil_2.
Defined.
